(** * SMOTE and SMOTEBoost (smote.py): a shallow embedding

    The two classes of [smote.py] are embedded as functions over explicit
    state.  Python exceptions are the [Raise] outcome of a state-and-error
    monad in which, as in Python, the state reached when the exception is
    raised is kept.

    Numbers: NumPy [float64] values are idealised as exact rationals [Q];
    rounding is outside the model.  Arrays of an integer element type hold
    integers, and their one subtraction (line 57) wraps around as NumPy's
    does.  The collaborators that the module imports (NumPy's random
    stream, its conversion to [np.int64], scikit-learn's [NearestNeighbors]
    and the inherited [_boost] step) are interfaces, given as type
    classes. *)

From Stdlib Require Import ZArith QArith Qabs Lqa Lia.
From stdpp Require Import base list strings sorting.
Import ListNotations.

Local Close Scope Q_scope.
Local Open Scope string_scope.
Local Open Scope nat_scope.
Local Open Scope list_scope.
Local Open Scope stdpp_scope.

(** ** Arrays *)

(** A row of features, and a 2-D array as the list of its rows. *)
Definition vec := list Q.
Definition matrix := list vec.

(** [X.shape]: the column count of an array without rows is not tracked
    (every use of it in the module is behind a check that there are rows). *)
Definition n_rows (X : matrix) : nat := length X.
Definition n_cols (X : matrix) : nat :=
  match X with [] => 0 | r :: _ => length r end.

Definition Qsum (w : list Q) : Q := foldr Qplus 0%Q w.

(** Elementwise array arithmetic on rows of one length. *)
Definition vsub (a b : vec) : vec := zip_with Qminus a b.
Definition vadd (a b : vec) : vec := zip_with Qplus a b.
Definition vscale (c : Q) (a : vec) : vec := map (Qmult c) a.

(** Pointwise equality of rows as rational numbers. *)
Definition veq (a b : vec) : Prop := Forall2 Qeq a b.

(** The element type of an array, as far as the module's arithmetic depends
    on it: a floating type ([float64], and the narrower ones, idealised
    alike), or an integer type of [bits] bits, signed or unsigned. *)
Inductive dtype :=
| floating
| signed (bits : positive)
| unsigned (bits : positive).

Definition float64 : dtype := floating.
Definition int64 : dtype := signed 64.
Definition uint8 : dtype := unsigned 8.

(** An integer result brought back into the range of the element type:
    NumPy's integer arithmetic on arrays wraps around without notice. *)
Definition wrap (d : dtype) (z : Z) : Z :=
  match d with
  | floating => z
  | unsigned w => (z mod 2 ^ Z.pos w)%Z
  | signed w =>
      ((z + 2 ^ (Z.pos w - 1)) mod 2 ^ Z.pos w - 2 ^ (Z.pos w - 1))%Z
  end.

(** The integer part of a number (rounding toward zero); an element of an
    integer array is its own integer part. *)
Definition Qtrunc (q : Q) : Z := Z.quot (Qnum q) (Zpos (Qden q)).

(** [a - b] on two elements of arrays of element type [d] *)
Definition sub (d : dtype) (a b : Q) : Q :=
  match d with
  | floating => (a - b)%Q
  | _ => inject_Z (wrap d (Qtrunc a - Qtrunc b))
  end.

(** [a - b] on two rows of an array of element type [d] *)
Definition vsub_in (d : dtype) (a b : vec) : vec := zip_with (sub d) a b.

(** ** Exceptions and outcomes *)

Inductive exn :=
| ValueError (msg : string)
| NameError (name : string)
| AttributeError (attr : string)
| IndexError (msg : string)
| OverflowError (msg : string)
| NotFittedError (msg : string)
| NonFinite (what : string)
    (* a NumPy array took a nan or inf entry: outside the numeric model *)
| RaisedBy (callee : string) (msg : string)
    (* an exception coming out of an opaque collaborator *).

Inductive outcome (A : Type) :=
| Ok (a : A)
| Raise (e : exn).
Arguments Ok {A} a.
Arguments Raise {A} e.

(** State-and-error monad: an exception leaves the state as it was when
    the exception was raised. *)
Definition M (S A : Type) : Type := S -> outcome A * S.

Definition ret {S A} (a : A) : M S A := fun s => (Ok a, s).
Definition raise {S A} (e : exn) : M S A := fun s => (Raise e, s).
Definition bind {S A B} (m : M S A) (f : A -> M S B) : M S B :=
  fun s => match m s with
           | (Ok a, s') => f a s'
           | (Raise e, s') => (Raise e, s')
           end.
Definition get {S} : M S S := fun s => (Ok s, s).
Definition put {S} (s : S) : M S unit := fun _ => (Ok tt, s).
Definition modify {S} (f : S -> S) : M S unit := fun s => (Ok tt, f s).
Definition pure_outcome {S A} (o : outcome A) : M S A := fun s => (o, s).

(** Run a computation on a component of the state. *)
Definition zoom {S T A} (proj : S -> T) (upd : T -> S -> S) (m : M T A) : M S A :=
  fun s => let '(o, t) := m (proj s) in (o, upd t s).

Declare Scope monad_scope.
Delimit Scope monad_scope with monad.
Notation "x <- c1 ;; c2" := (bind c1 (fun x => c2))
  (at level 100, c1 at next level, right associativity) : monad_scope.
Notation "c1 ;; c2" := (bind c1 (fun _ => c2))
  (at level 100, right associativity) : monad_scope.
Local Open Scope monad_scope.

(** ** The module's global names

    The names bound at module level by the import statements (lines 1-12)
    and the two class statements, and the builtins the module uses.  A name
    used in a function body and bound nowhere raises [NameError] when the
    statement runs. *)
Definition module_globals : list string :=
  [ "Counter"; "np"; "is_regressor"; "AdaBoostClassifier"; "BaseForest";
    "NearestNeighbors"; "normalize"; "BaseDecisionTree";
    "check_random_state"; "check_X_y"; "shuffle"; "SMOTE"; "SMOTEBoost" ].
Definition builtins : list string :=
  [ "object"; "range"; "isinstance"; "super"; "max"; "min"; "ValueError" ].

Definition name_bound (name : string) : bool :=
  existsb (String.eqb name) (module_globals ++ builtins).

Definition lookup_global {S} (name : string) : M S unit :=
  if name_bound name then ret tt else raise (NameError name).

(** ** NumPy's random stream *)

(** The legacy global stream behind [np.random.seed], [np.random.randint],
    [np.random.choice] and [np.random.random].  [Generator] is the state of
    the stream, [Entropy] what the operating system hands out when the seed
    is [None]. *)
Class NumpyRandom := {
  Generator : Type;
  Entropy : Type;
  seed_int : Z -> Generator;
  seed_os : Entropy -> Generator * Entropy;
  randint : Z -> Z -> Generator -> Z * Generator;
  choice : list nat -> Generator -> nat * Generator;
  random_sample : Generator -> Q * Generator;
  randint_range : forall lo hi g,
    (lo < hi)%Z -> (lo <= fst (randint lo hi g) < hi)%Z;
  choice_elem : forall a g, a <> [] -> fst (choice a g) ∈ a;
  random_sample_unit : forall g,
    (0 <= fst (random_sample g))%Q /\ (fst (random_sample g) < 1)%Q
}.

(** The draws of the stream, in the order they are made. *)
Inductive draw := DSeed | DRandint | DChoice | DRandom.

Section Process.
Context `{NumpyRandom}.

(** Process-wide state: the global stream [np.random], the entropy source,
    and the log of the calls made on the stream. *)
Record Process := {
  np_random : Generator;
  os_entropy : Entropy;
  drawn : list draw
}.

Definition log (d : draw) (p : Process) : list draw := drawn p ++ [d].

(** [np.random.seed(seed)] *)
Definition np_random_seed (seed : option Z) : M Process unit :=
  fun p =>
    match seed with
    | None =>
        let '(g, e) := seed_os (os_entropy p) in
        (Ok tt, {| np_random := g; os_entropy := e; drawn := log DSeed p |})
    | Some s =>
        if ((0 <=? s) && (s <? 2 ^ 32))%Z
        then (Ok tt, {| np_random := seed_int s; os_entropy := os_entropy p;
                        drawn := log DSeed p |})
        else (Raise (ValueError "Seed must be between 0 and 2**32 - 1"), p)
    end.

(** [np.random.randint(low, high)] *)
Definition np_random_randint (low high : Z) : M Process Z :=
  fun p =>
    if (low <? high)%Z
    then let '(j, g) := randint low high (np_random p) in
         (Ok j, {| np_random := g; os_entropy := os_entropy p;
                   drawn := log DRandint p |})
    else (Raise (ValueError "low >= high"), p).

(** [np.random.choice(a)] on a 1-D array *)
Definition np_random_choice (a : list nat) : M Process nat :=
  fun p =>
    match a with
    | [] => (Raise (ValueError "a must be non-empty"), p)
    | _ => let '(x, g) := choice a (np_random p) in
           (Ok x, {| np_random := g; os_entropy := os_entropy p;
                     drawn := log DChoice p |})
    end.

(** [np.random.random()] *)
Definition np_random_random : M Process Q :=
  fun p =>
    let '(x, g) := random_sample (np_random p) in
    (Ok x, {| np_random := g; os_entropy := os_entropy p;
              drawn := log DRandom p |}).

End Process.

(** ** scikit-learn's NearestNeighbors *)

(** Squared Euclidean distance; it orders points as the Euclidean distance
    does. *)
Definition sqdist (a b : vec) : Q :=
  Qsum (map (fun d => d * d)%Q (vsub a b)).

(** Row [i] of an array whose index is known to be in range. *)
Definition row (X : matrix) (i : nat) : vec := default [] (X !! i).

(** The neighbour search of the index: [nearest X q n] are the indices of
    the [n] rows of [X] nearest to [q], nearest first.  Which of several
    rows at one distance comes first depends on the search structure
    scikit-learn picks; the interface leaves it open. *)
Class NeighborSearch := {
  nearest : matrix -> vec -> nat -> list nat;
  nearest_length : forall X q n,
    n <= length X -> length (nearest X q n) = n;
  nearest_NoDup : forall X q n, NoDup (nearest X q n);
  nearest_bound : forall X q n i, i ∈ nearest X q n -> i < length X;
  nearest_sorted : forall X q n a b ra rb,
    a <= b -> nearest X q n !! a = Some ra -> nearest X q n !! b = Some rb ->
    (sqdist q (row X ra) <= sqdist q (row X rb))%Q;
  nearest_closest : forall X q n i r,
    n <= length X -> i < length X -> i ∉ nearest X q n -> r ∈ nearest X q n ->
    (sqdist q (row X r) <= sqdist q (row X i))%Q
}.

Module NearestNeighbors.

Record t := {
  n_neighbors : nat;
  _fit_X : option matrix
}.

(** [NearestNeighbors(n_neighbors=n)] *)
Definition init (n : nat) : t := {| n_neighbors := n; _fit_X := None |}.

(** [fit(X)]: the input validation of scikit-learn ([check_array]) wants at
    least one row and one column; the neighbour count is not compared with
    the number of rows here. *)
Definition fit (X : matrix) : M t unit :=
  fun self =>
    match X with
    | [] => (Raise (ValueError "Found array with 0 sample(s)"), self)
    | r :: _ =>
        if (length r =? 0)%nat
        then (Raise (ValueError "Found array with 0 feature(s)"), self)
        else (Ok tt, {| n_neighbors := n_neighbors self; _fit_X := Some X |})
    end.

Section Query.
Context `{NeighborSearch}.

(** [kneighbors(q.reshape(1, -1), return_distance=False)[0]]: the row of
    neighbour indices of the one query point. *)
Definition kneighbors (self : t) (q : vec) : outcome (list nat) :=
  match _fit_X self with
  | None => Raise (NotFittedError "Must fit neighbors before querying.")
  | Some X =>
      if (n_neighbors self <=? length X)%nat
      then Ok (nearest X q (n_neighbors self))
      else Raise (ValueError "Expected n_neighbors <= n_samples")
  end.

End Query.
End NearestNeighbors.

(** ** NumPy indexing *)

(** [X[j]] for an integer [j]: a negative index counts from the end. *)
Definition np_index {S} (X : matrix) (j : Z) : M S vec :=
  let n := Z.of_nat (length X) in
  let i := if (j <? 0)%Z then (n + j)%Z else j in
  if ((0 <=? i) && (i <? n))%Z
  then ret (row X (Z.to_nat i))
  else raise (IndexError "index is out of bounds for axis 0").

(** Reading an attribute that no assignment has created yet. *)
Definition attr {S A} (name : string) (a : option A) : M S A :=
  match a with
  | Some v => ret v
  | None => raise (AttributeError name)
  end.

(** ** class SMOTE *)

Module SMOTE.

(** [X] and [X_dtype] are the one attribute [self.X]: the rows of the
    array and its element type. *)
Record t := {
  k : nat;
  random_state : option Z;
  X : option matrix;
  X_dtype : option dtype;
  n_minority_samples : option nat;
  n_features : option nat;
  neigh : option NearestNeighbors.t
}.

(** [__init__] (lines 28-30) *)
Definition init (k_neighbors : nat) (random_state : option Z) : t :=
  {| k := k_neighbors; random_state := random_state; X := None;
     X_dtype := None;
     n_minority_samples := None; n_features := None; neigh := None |}.

(** [fit] (lines 64-79), on an array of element type [d] with the rows
    [X0]; the array is stored as it is given. *)
Definition fit (d : dtype) (X0 : matrix) : M t unit :=
  fun self =>
    let self1 :=
      {| k := k self; random_state := random_state self;
         X := Some X0;
         X_dtype := Some d;
         n_minority_samples := Some (n_rows X0);
         n_features := Some (n_cols X0);
         neigh := Some (NearestNeighbors.init (k self + 1)) |} in
    let '(o, nn) := NearestNeighbors.fit X0 (NearestNeighbors.init (k self + 1)) in
    (o, {| k := k self1; random_state := random_state self1;
           X := X self1;
           X_dtype := X_dtype self1;
           n_minority_samples := n_minority_samples self1;
           n_features := n_features self1;
           neigh := Some nn |}).

Section Sample.
Context `{NumpyRandom} `{NeighborSearch}.

(** One round of the loop of [sample] (lines 50-60), giving row [S[i, :]].
    The difference of line 57 is taken in the element type of [self.X];
    its product with the Python float [gap] and the sum of line 60 are
    floating. *)
Definition sample_row (self : t) : M Process vec :=
  X0 <- attr "X" (X self) ;;
  d <- attr "X" (X_dtype self) ;;
  j <- np_random_randint 0 (Z.of_nat (n_rows X0)) ;;
  xj <- np_index X0 j ;;
  nb <- attr "neigh" (neigh self) ;;
  nn <- pure_outcome (NearestNeighbors.kneighbors nb xj) ;;
  (* Exclude the sample itself: [:, 1:] *)
  nn_index <- np_random_choice (tail nn) ;;
  xn <- np_index X0 (Z.of_nat nn_index) ;;
  let dif := vsub_in d xn xj in
  gap <- np_random_random ;;
  ret (vadd xj (vscale gap dif)).

(** [for i in range(n_samples)]: the rows of [S] in the order they are
    written. *)
Fixpoint sample_rows (self : t) (n_samples : nat) : M Process matrix :=
  match n_samples with
  | 0 => ret []
  | S n => r <- sample_row self ;;
           rest <- sample_rows self n ;;
           ret (r :: rest)
  end.

(** [sample] (lines 32-62) *)
Definition sample (self : t) (n_samples : nat) : M Process matrix :=
  np_random_seed (random_state self) ;;
  _ <- attr "n_features" (n_features self) ;;
  sample_rows self n_samples.

End Sample.
End SMOTE.

(** ** scikit-learn and NumPy helpers used by [SMOTEBoost.fit] *)

(** [check_X_y(X, y, ...)] on dense numeric input: [X] must be a 2-D array
    with at least one row and one column, [y] a vector of the same length. *)
Definition check_X_y {S} (X : matrix) (y : list Q) : M S (matrix * list Q) :=
  match X with
  | [] => raise (ValueError "Found array with 0 sample(s)")
  | r :: _ =>
      if negb (forallb (fun r' => length r' =? length r)%nat X)
      then raise (ValueError "setting an array element with a sequence.")
      else if (length r =? 0)%nat
      then raise (ValueError "Found array with 0 feature(s)")
      else if negb (length y =? length X)%nat
      then raise (ValueError
                    "Found input variables with inconsistent numbers of samples")
      else ret (X, y)
  end.

(** [check_array(w, ensure_2d=False)] on a vector *)
Definition check_array_1d {S} (w : list Q) : M S (list Q) :=
  match w with
  | [] => raise (ValueError "Found array with 0 sample(s)")
  | _ => ret w
  end.

(** [np.squeeze(normalize(w.reshape(-1, 1), axis=0, norm='l1'))]: the one
    column is divided by the sum of its absolute values, a zero sum being
    replaced by 1.  (For a single row, [np.squeeze] gives a 0-d array, which
    the model does not tell from the one-element vector.) *)
Definition l1_norm (w : list Q) : Q := Qsum (map Qabs w).
Definition normalize_l1 {S} (w : list Q) : M S (list Q) :=
  match w with
  | [] => raise (ValueError "Found array with 0 sample(s)")
  | _ =>
      let norms := l1_norm w in
      let norms := if Qeq_bool norms 0 then 1%Q else norms in
      ret (map (fun x => x / norms)%Q w)
  end.

(** [Counter(y)]: the labels with their counts, in order of first
    occurrence. *)
Fixpoint count_label (c : list (Q * nat)) (v : Q) : list (Q * nat) :=
  match c with
  | [] => [(v, 1)]
  | (u, n) :: c' =>
      if Qeq_bool u v then (u, S n) :: c' else (u, n) :: count_label c' v
  end.
Definition Counter (y : list Q) : list (Q * nat) := fold_left count_label y [].

(** [min(stats_c_, key=stats_c_.get)]: the first label, in iteration order,
    with the least count. *)
Fixpoint min_by_count (c : list (Q * nat)) : option (Q * nat) :=
  match c with
  | [] => None
  | (u, n) :: c' =>
      match min_by_count c' with
      | Some (u', n') => if (n' <? n)%nat then Some (u', n') else Some (u, n)
      | None => Some (u, n)
      end
  end.

(** [X[np.where(y == minority_target)]] *)
Definition minority_rows (X : matrix) (y : list Q) (m : Q) : matrix :=
  map fst (filter (fun p => Qeq_bool (snd p) m = true) (zip X y)).

(** Conversion to [np.int64], as [np.full(..., dtype=np.int64)] does it to
    its fill value.  A value whose integer part is in the 64-bit range is
    cut off to it (rounding toward zero).  Outside that range, what NumPy
    does depends on the type of the value and on the platform: a NumPy
    integer wraps around modulo [2^64], a float is cast to an integer that
    the platform picks, and a Python [int] of [2^64] or more raises
    [OverflowError].  The interface leaves that case open: [to_int64]
    gives some 64-bit integer, or [None] for the exception. *)
Definition int64_range (z : Z) : bool :=
  ((- 2 ^ 63 <=? z) && (z <? 2 ^ 63))%Z.

Class Int64Cast := {
  to_int64 : Q -> option Z;
  to_int64_in_range : forall q,
    int64_range (Qtrunc q) = true -> to_int64 q = Some (Qtrunc q);
  to_int64_is_int64 : forall q z, to_int64 q = Some z -> int64_range z = true
}.

(** [np.full(n, fill_value=fill, dtype=np.int64)] *)
Definition np_full_int64 `{Int64Cast} {S} (n : nat) (fill : Q) : M S (list Z) :=
  match to_int64 fill with
  | Some z => ret (repeat z n)
  | None => raise (OverflowError "Python int too large to convert to C long")
  end.

(** The [np.int64] that a fill value becomes when its conversion raises
    nothing. *)
Definition int64_of `{Int64Cast} (fill : Q) : Z := default 0%Z (to_int64 fill).

(** [np.append(y, y_syn)]: the integers take the type of [y]. *)
Definition np_append_labels (y : list Q) (y_syn : list Z) : list Q :=
  y ++ map inject_Z y_syn.

(** ** Division of supplied weights (lines 177-183)

    A division by zero in NumPy gives [inf] or [nan] and no exception, and
    no comparison with [nan] holds; this one block is therefore computed on
    floats extended with the non-finite values. *)
Inductive npfloat := Fin (q : Q) | PInf | NInf | NaN.

Definition fdiv (a s : Q) : npfloat :=
  if Qeq_bool s 0
  then (if Qeq_bool a 0 then NaN
        else if Qle_bool 0 a then PInf else NInf)
  else Fin (a / s).

Definition fadd (a b : npfloat) : npfloat :=
  match a, b with
  | NaN, _ | _, NaN => NaN
  | PInf, NInf | NInf, PInf => NaN
  | PInf, _ | _, PInf => PInf
  | NInf, _ | _, NInf => NInf
  | Fin x, Fin y => Fin (x + y)
  end.

Definition fsum (w : list npfloat) : npfloat := foldr fadd (Fin 0) w.

(** [x <= 0] *)
Definition fle0 (a : npfloat) : bool :=
  match a with
  | Fin x => Qle_bool x 0
  | NInf => true
  | PInf | NaN => false
  end.

Definition normalize_existing_weights (w : list Q) : outcome (list npfloat) :=
  (* Normalize existing weights. *)
  let sample_weight := map (fun x => fdiv x (Qsum w)) w in
  (* Check that the sample weights sum is positive. *)
  if fle0 (fsum sample_weight)
  then Raise (ValueError
      "Attempting to fit with a non-positive weighted number of samples.")
  else Ok sample_weight.

(** Back to the finite numbers of the rest of the model. *)
Fixpoint finite_weights (w : list npfloat) : outcome (list Q) :=
  match w with
  | [] => Ok []
  | Fin q :: w' =>
      match finite_weights w' with
      | Ok l => Ok (q :: l)
      | Raise e => Raise e
      end
  | _ :: _ => Raise (NonFinite "sample_weight")
  end.

(** ** The inherited boosting machinery

    [SMOTEBoost] inherits [_validate_estimator] and [_boost] from
    scikit-learn's [AdaBoostClassifier].  They are opaque here.  What they
    may read and write is the list of fitted learners [self.estimators_],
    the process-wide stream, the [RandomState] object that [fit] hands over
    ([None]: the process-wide stream itself), and state of their own (the
    base estimator, the algorithm, ...).  The arrays passed to [_boost] are
    read only. *)
Record BoostEnv `{NumpyRandom} (Learner Private : Type) := {
  be_estimators : list Learner;
  be_process : Process;
  be_random_state : option Generator;
  be_private : Private
}.
Arguments be_estimators {_ _ _} _.
Arguments be_process {_ _ _} _.
Arguments be_random_state {_ _ _} _.
Arguments be_private {_ _ _} _.

Class Booster `{NumpyRandom} := {
  Learner : Type;
  Private : Type;
  (* an exception is given by its message *)
  _validate_estimator : nat -> Private -> (string + unit) * Private;
  (* [_boost(iboost, X, y, sample_weight, random_state)] returns
     [(sample_weight, estimator_weight, estimator_error)], the first being
     [None] to stop *)
  _boost : nat -> matrix -> list Q -> list Q ->
           BoostEnv Learner Private ->
           (string + (option (list Q) * Q * Q)) * BoostEnv Learner Private
}.

(** ** class SMOTEBoost *)

(** [self.base_estimator] as [fit] looks at it (lines 157-159): [None], an
    instance of [BaseDecisionTree], an instance of [BaseForest], or another
    estimator. *)
Inductive base_estimator_kind :=
| NoEstimator
| DecisionTree
| Forest
| OtherEstimator.

Module SMOTEBoost.
Section WithCollaborators.
Context `{NumpyRandom} `{NeighborSearch} `{!Booster} `{Int64Cast}.

Record t := {
  n_samples : nat;
  smote : SMOTE.t;
  base_estimator : base_estimator_kind;
  n_estimators : nat;
  learning_rate : Q;
  random_state : option Z;
  minority_target : option Q;
  estimators_ : option (list Learner);
  estimator_weights_ : option (list Q);
  estimator_errors_ : option (list Q)
}.

(** [__init__] (lines 104-122); [algorithm] goes to the inherited class. *)
Definition init (n_samples n_estimators k_neighbors : nat)
    (base_estimator : base_estimator_kind)
    (learning_rate : Q) (random_state : option Z) : t :=
  {| n_samples := n_samples;
     smote := SMOTE.init k_neighbors random_state;
     base_estimator := base_estimator;
     n_estimators := n_estimators;
     learning_rate := learning_rate;
     random_state := random_state;
     minority_target := None;
     estimators_ := None;
     estimator_weights_ := None;
     estimator_errors_ := None |}.

Definition set_smote (v : SMOTE.t) (s : t) : t :=
  {| n_samples := n_samples s; smote := v;
     base_estimator := base_estimator s; n_estimators := n_estimators s;
     learning_rate := learning_rate s; random_state := random_state s;
     minority_target := minority_target s; estimators_ := estimators_ s;
     estimator_weights_ := estimator_weights_ s;
     estimator_errors_ := estimator_errors_ s |}.
Definition set_minority_target (v : Q) (s : t) : t :=
  {| n_samples := n_samples s; smote := smote s;
     base_estimator := base_estimator s; n_estimators := n_estimators s;
     learning_rate := learning_rate s; random_state := random_state s;
     minority_target := Some v; estimators_ := estimators_ s;
     estimator_weights_ := estimator_weights_ s;
     estimator_errors_ := estimator_errors_ s |}.
Definition set_estimators_ (v : list Learner) (s : t) : t :=
  {| n_samples := n_samples s; smote := smote s;
     base_estimator := base_estimator s; n_estimators := n_estimators s;
     learning_rate := learning_rate s; random_state := random_state s;
     minority_target := minority_target s; estimators_ := Some v;
     estimator_weights_ := estimator_weights_ s;
     estimator_errors_ := estimator_errors_ s |}.
Definition set_estimator_weights_ (v : list Q) (s : t) : t :=
  {| n_samples := n_samples s; smote := smote s;
     base_estimator := base_estimator s; n_estimators := n_estimators s;
     learning_rate := learning_rate s; random_state := random_state s;
     minority_target := minority_target s; estimators_ := estimators_ s;
     estimator_weights_ := Some v;
     estimator_errors_ := estimator_errors_ s |}.
Definition set_estimator_errors_ (v : list Q) (s : t) : t :=
  {| n_samples := n_samples s; smote := smote s;
     base_estimator := base_estimator s; n_estimators := n_estimators s;
     learning_rate := learning_rate s; random_state := random_state s;
     minority_target := minority_target s; estimators_ := estimators_ s;
     estimator_weights_ := estimator_weights_ s;
     estimator_errors_ := Some v |}.

(** The objects [fit] works on: the classifier itself, the process-wide
    stream, the [RandomState] object bound to the local [random_state]
    ([None]: it is the process-wide stream) and the inherited class's own
    state. *)
Record Heap := {
  self : t;
  process : Process;
  rstate : option Generator;
  private : Private
}.

Definition with_self (f : t -> t) (h : Heap) : Heap :=
  {| self := f (self h); process := process h; rstate := rstate h;
     private := private h |}.
Definition with_process (p : Process) (h : Heap) : Heap :=
  {| self := self h; process := p; rstate := rstate h; private := private h |}.
Definition with_rstate (r : option Generator) (h : Heap) : Heap :=
  {| self := self h; process := process h; rstate := r; private := private h |}.
Definition with_private (b : Private) (h : Heap) : Heap :=
  {| self := self h; process := process h; rstate := rstate h; private := b |}.

Definition get_self : M Heap t := fun h => (Ok (self h), h).
Definition on_smote {A} (m : M SMOTE.t A) : M Heap A :=
  zoom (fun h => smote (self h)) (fun v => with_self (set_smote v)) m.
Definition on_process {A} (m : M Process A) : M Heap A :=
  zoom process with_process m.

(** The local variables of the loop: the growing training set and its
    weights.  [X] and [X_dtype] are the one variable [X]: the rows of the
    array and its element type. *)
Record Locals := {
  X : matrix;
  X_dtype : dtype;
  y : list Q;
  sample_weight : list Q
}.

(** How one round of the loop ends: [break], leaving the training set as it
    is, or the next round. *)
Inductive next :=
| Break (X : matrix) (y : list Q)
| Continue (l : Locals).

(** [self._validate_estimator()] *)
Definition validate_estimator : M Heap unit :=
  fun h =>
    match _validate_estimator (n_estimators (self h)) (private h) with
    | (inl msg, b) => (Raise (RaisedBy "_validate_estimator" msg), with_private b h)
    | (inr _, b) => (Ok tt, with_private b h)
    end.

(** [check_random_state(self.random_state)] *)
Definition check_random_state (seed : option Z) : M Heap unit :=
  match seed with
  | None => modify (with_rstate None)
  | Some s =>
      if ((0 <=? s) && (s <? 2 ^ 32))%Z
      then modify (with_rstate (Some (seed_int s)))
      else raise (ValueError "Seed must be between 0 and 2**32 - 1")
  end.

(** The call [self._boost(iboost, X, y, sample_weight, random_state)]
    (lines 230-234) *)
Definition boost (iboost : nat) (l : Locals) : M Heap (option (list Q) * Q * Q) :=
  fun h =>
    match estimators_ (self h) with
    | None => (Raise (AttributeError "estimators_"), h)
    | Some ests =>
        let env := {| be_estimators := ests; be_process := process h;
                      be_random_state := rstate h; be_private := private h |} in
        let '(r, env') := _boost iboost (X l) (y l) (sample_weight l) env in
        let h' := {| self := set_estimators_ (be_estimators env') (self h);
                     process := be_process env';
                     rstate := be_random_state env';
                     private := be_private env' |} in
        match r with
        | inl msg => (Raise (RaisedBy "_boost" msg), h')
        | inr v => (Ok v, h')
        end
    end.

(** [self.estimator_weights_[iboost] = estimator_weight] and the same for
    the errors (lines 240-241); an index past the end raises. *)
Definition record (iboost : nat) (estimator_weight estimator_error : Q) : M Heap unit :=
  s <- get_self ;;
  ws <- attr "estimator_weights_" (estimator_weights_ s) ;;
  (if (iboost <? length ws)%nat
   then modify (with_self (set_estimator_weights_ (<[iboost := estimator_weight]> ws)))
   else raise (IndexError "index is out of bounds for axis 0")) ;;
  s <- get_self ;;
  es <- attr "estimator_errors_" (estimator_errors_ s) ;;
  (if (iboost <? length es)%nat
   then modify (with_self (set_estimator_errors_ (<[iboost := estimator_error]> es)))
   else raise (IndexError "index is out of bounds for axis 0")).

(** The SMOTE step (lines 205-208): the synthetic rows [X_syn]. *)
Definition smote_step (l : Locals) : M Heap matrix :=
  s <- get_self ;;
  m <- attr "minority_target" (minority_target s) ;;
  let X_min := minority_rows (X l) (y l) m in
  on_smote (SMOTE.fit (X_dtype l) X_min) ;;
  s <- get_self ;;
  on_process (SMOTE.sample (smote s) (n_samples s)).

(** The merge (lines 209-224): the training set and the weights that go to
    the boosting step. *)
Definition merge (l : Locals) (X_syn : matrix) : M Heap Locals :=
  s <- get_self ;;
  m <- attr "minority_target" (minority_target s) ;;
  y_syn <- np_full_int64 (n_rows X_syn) m ;;
  (* Normalize synthetic sample weights based on current training set. *)
  let sample_weight_syn :=
    repeat (1 / inject_Z (Z.of_nat (n_rows (X l))))%Q (n_rows X_syn) in
  (* Combine the original and synthetic samples: [X_syn] is floating, and
     so is the array that [np.vstack] makes. *)
  let X1 := X l ++ X_syn in
  let y1 := np_append_labels (y l) y_syn in
  (* Combine the weights. *)
  w <- normalize_l1 (sample_weight l ++ sample_weight_syn) ;;
  ret {| X := X1; X_dtype := floating; y := y1; sample_weight := w |}.

Definition augment (l : Locals) : M Heap Locals :=
  X_syn <- smote_step l ;;
  merge l X_syn.

(** The boosting step and the tests that end the loop (lines 229-255) *)
Definition boost_step (iboost : nat) (l : Locals) : M Heap next :=
  r <- boost iboost l ;;
  let '(sample_weight', estimator_weight, estimator_error) := r in
  (* Early termination. *)
  match sample_weight' with
  | None => ret (Break (X l) (y l))
  | Some w =>
      record iboost estimator_weight estimator_error ;;
      (* Stop if error is zero. *)
      if Qeq_bool estimator_error 0 then ret (Break (X l) (y l)) else
      let sample_weight_sum := Qsum w in
      (* Stop if the sum of sample weights has become non-positive. *)
      if Qle_bool sample_weight_sum 0 then ret (Break (X l) (y l)) else
      s <- get_self ;;
      if (iboost <? n_estimators s - 1)%nat
      then (* Normalize. *)
           ret (Continue {| X := X l; X_dtype := X_dtype l; y := y l;
                            sample_weight := map (fun x => x / sample_weight_sum)%Q w |})
      else ret (Continue {| X := X l; X_dtype := X_dtype l; y := y l;
                            sample_weight := w |})
  end.

(** The body of the loop *)
Definition iteration (iboost : nat) (l : Locals) : M Heap next :=
  l1 <- augment l ;;
  boost_step iboost l1.

(** [for iboost in range(self.n_estimators)], entered at [iboost] with
    [todo] rounds to go; the result is the training set when the loop is
    left. *)
Fixpoint boost_loop (iboost todo : nat) (l : Locals) : M Heap (matrix * list Q) :=
  match todo with
  | 0 => ret (X l, y l)
  | S todo' =>
      r <- iteration iboost l ;;
      match r with
      | Break X1 y1 => ret (X1, y1)
      | Continue l' => boost_loop (S iboost) todo' l'
      end
  end.

(** The initial weights (lines 170-183) *)
Definition initial_weights (X0 : matrix) (sample_weight : option (list Q)) : M Heap (list Q) :=
  match sample_weight with
  | None =>
      (* Initialize weights to 1 / n_samples. *)
      ret (repeat (1 / inject_Z (Z.of_nat (n_rows X0)))%Q (n_rows X0))
  | Some w =>
      lookup_global "check_array" ;;
      w <- check_array_1d w ;;
      w <- pure_outcome (normalize_existing_weights w) ;;
      pure_outcome (finite_weights w)
  end.

(** The element type that [check_X_y] is asked for (lines 157-165), and
    the one its result has when the input has the element type [d]: the
    input is converted to [float64] for no base estimator, a tree or a
    forest, and keeps its element type otherwise. *)
Definition wanted_dtype (s : t) : option dtype :=
  match base_estimator s with
  | NoEstimator | DecisionTree | Forest => Some float64
  | OtherEstimator => None
  end.
Definition checked_dtype (s : t) (d : dtype) : dtype := default d (wanted_dtype s).

(** [fit] up to the loop (lines 153-202): the locals the loop starts from.
    The argument [X] is an array of element type [d] with the rows [X0]. *)
Definition fit_init (d : dtype) (X0 : matrix) (y0 : list Q)
    (sample_weight : option (list Q)) (minority_target : option Q)
    : M Heap Locals :=
  s <- get_self ;;
  (* Check parameters. *)
  if Qle_bool (learning_rate s) 0
  then raise (ValueError "learning_rate must be greater than zero") else
  (* lines 157-168: on dense numeric input [check_X_y] checks the shapes
     and hands [X] on in the element type asked for *)
  let d := checked_dtype s d in
  Xy <- check_X_y X0 y0 ;;
  let '(X0, y0) := Xy in
  sample_weight <- initial_weights X0 sample_weight ;;
  (match minority_target with
   | None =>
       (* Determine the minority class label. *)
       match min_by_count (Counter y0) with
       | Some (min_c_, _) => modify (with_self (set_minority_target min_c_))
       | None => raise (ValueError "min() arg is an empty sequence")
       end
   | Some m => modify (with_self (set_minority_target m))
   end) ;;
  (* Check parameters. *)
  validate_estimator ;;
  (* Clear any previous fit results. *)
  modify (with_self (set_estimators_ [])) ;;
  s <- get_self ;;
  modify (with_self (set_estimator_weights_ (repeat 0%Q (n_estimators s)))) ;;
  modify (with_self (set_estimator_errors_ (repeat 1%Q (n_estimators s)))) ;;
  check_random_state (random_state s) ;;
  ret {| X := X0; X_dtype := d; y := y0; sample_weight := sample_weight |}.

(** The body of [fit] (lines 153-255), giving the training set that the
    locals [X] and [y] hold at the [return]. *)
Definition fit_locals (d : dtype) (X0 : matrix) (y0 : list Q)
    (sample_weight : option (list Q)) (minority_target : option Q)
    : M Heap (matrix * list Q) :=
  l <- fit_init d X0 y0 sample_weight minority_target ;;
  s <- get_self ;;
  boost_loop 0 (n_estimators s) l.

(** [fit] (lines 124-257); it returns [self], which is in the heap. *)
Definition fit (d : dtype) (X0 : matrix) (y0 : list Q)
    (sample_weight : option (list Q)) (minority_target : option Q) : M Heap unit :=
  fit_locals d X0 y0 sample_weight minority_target ;; ret tt.

End WithCollaborators.
End SMOTEBoost.

(** * Properties *)

(** ** The monad *)

Lemma bind_Ok {S A B} (m : M S A) (f : A -> M S B) s b s' :
  bind m f s = (Ok b, s') ->
  exists a s1, m s = (Ok a, s1) /\ f a s1 = (Ok b, s').
Proof.
  unfold bind. destruct (m s) as [[a | e] s1]; [eauto | discriminate].
Qed.

Lemma bind_Raise {S A B} (m : M S A) (f : A -> M S B) s e s' :
  bind m f s = (Raise e, s') ->
  m s = (Raise e, s') \/
  exists a s1, m s = (Ok a, s1) /\ f a s1 = (Raise e, s').
Proof.
  unfold bind. destruct (m s) as [[a | e1] s1]; [eauto | left; congruence].
Qed.

Lemma bind_eq_Ok {S A B} (m : M S A) (f : A -> M S B) s a s1 :
  m s = (Ok a, s1) -> bind m f s = f a s1.
Proof. unfold bind. intros ->. reflexivity. Qed.

Lemma bind_eq_Raise {S A B} (m : M S A) (f : A -> M S B) s e s1 :
  m s = (Raise e, s1) -> bind m f s = (Raise e, s1).
Proof. unfold bind. intros ->. reflexivity. Qed.

(** [never_raises e m]: no run of [m] ends with the exception [e]. *)
Definition exn_of {A} (o : outcome A) : option exn :=
  match o with Ok _ => None | Raise e => Some e end.
Definition never_raises {S A} (e : exn) (m : M S A) : Prop :=
  forall s, exn_of (fst (m s)) <> Some e.

Lemma never_bind {S A B} e (m : M S A) (f : A -> M S B) :
  never_raises e m -> (forall a, never_raises e (f a)) ->
  never_raises e (bind m f).
Proof.
  intros Hm Hf s. unfold bind. specialize (Hm s).
  destruct (m s) as [[a | e1] s1]; simpl in *; [apply Hf | exact Hm].
Qed.

Lemma never_ret {S A} e (a : A) : never_raises e (@ret S A a).
Proof. intros s. simpl. discriminate. Qed.

Lemma never_raise {S A} e e' : e' <> e -> never_raises e (@raise S A e').
Proof. intros Hne s. simpl. congruence. Qed.

Lemma never_modify {S} e (f : S -> S) : never_raises e (modify f).
Proof. intros s. simpl. discriminate. Qed.

Lemma never_pure_outcome {S A} e (o : outcome A) :
  o <> Raise e -> never_raises e (@pure_outcome S A o).
Proof. intros Hne s. simpl. destruct o; simpl; congruence. Qed.

Lemma never_zoom {S T A} e (proj : S -> T) upd (m : M T A) :
  never_raises e m -> never_raises e (zoom proj upd m).
Proof.
  intros Hm s. unfold zoom. specialize (Hm (proj s)).
  destruct (m (proj s)) as [o t]. exact Hm.
Qed.

Lemma never_attr {S A} e name (a : option A) :
  (forall n, e <> AttributeError n) -> never_raises e (@attr S A name a).
Proof.
  intros Hne. destruct a; [apply never_ret | apply never_raise; auto].
Qed.

Ltac never_step :=
  match goal with
  | |- never_raises _ (bind _ _) => apply never_bind; [| intros]
  | |- never_raises _ (ret _) => apply never_ret
  | |- never_raises _ (raise _) => apply never_raise; discriminate
  | |- never_raises _ (modify _) => apply never_modify
  | |- never_raises _ (attr _ _) => apply never_attr; intros; discriminate
  | |- never_raises _ (zoom _ _ _) => apply never_zoom
  | |- never_raises _ (match ?x with _ => _ end) => destruct x
  end.

(** Computations given as functions of the state: all their exits are in
    sight after unfolding. *)
Ltac never_direct :=
  let s := fresh "s" in
  intros s; simpl;
  repeat match goal with
         | |- context [match ?x with _ => _ end] => destruct x; simpl
         end;
  discriminate.

(** ** The learning-rate check *)

Definition learning_rate_error : exn :=
  ValueError "learning_rate must be greater than zero".

Section LearningRate.
Context `{NumpyRandom} `{NeighborSearch} `{!Booster} `{Int64Cast}.
Import SMOTEBoost.

Lemma never_lr_np_random_seed seed : never_raises learning_rate_error (np_random_seed seed).
Proof. unfold np_random_seed. never_direct. Qed.

Lemma never_lr_np_random_randint lo hi :
  never_raises learning_rate_error (np_random_randint lo hi).
Proof. unfold np_random_randint. never_direct. Qed.

Lemma never_lr_np_random_choice a :
  never_raises learning_rate_error (np_random_choice a).
Proof. unfold np_random_choice. never_direct. Qed.

Lemma never_lr_np_random_random : never_raises learning_rate_error np_random_random.
Proof. unfold np_random_random. never_direct. Qed.

Lemma never_lr_np_index {S} X0 j : never_raises learning_rate_error (@np_index S X0 j).
Proof. unfold np_index. repeat never_step. Qed.

Lemma never_lr_kneighbors {S} nb q :
  never_raises learning_rate_error (@pure_outcome S _ (NearestNeighbors.kneighbors nb q)).
Proof.
  apply never_pure_outcome. unfold NearestNeighbors.kneighbors.
  repeat case_match; discriminate.
Qed.

Lemma never_lr_sample_row sm : never_raises learning_rate_error (SMOTE.sample_row sm).
Proof.
  unfold SMOTE.sample_row.
  repeat first
    [ apply never_lr_np_random_randint | apply never_lr_np_random_choice
    | apply never_lr_np_random_random | apply never_lr_np_index
    | apply never_lr_kneighbors | never_step ].
Qed.

Lemma never_lr_sample_rows sm n : never_raises learning_rate_error (SMOTE.sample_rows sm n).
Proof.
  induction n as [| n IH]; simpl.
  - apply never_ret.
  - apply never_bind; [apply never_lr_sample_row | intros r].
    apply never_bind; [exact IH | intros rest]. apply never_ret.
Qed.

Lemma never_lr_sample sm n : never_raises learning_rate_error (SMOTE.sample sm n).
Proof.
  unfold SMOTE.sample.
  repeat first [ apply never_lr_np_random_seed | apply never_lr_sample_rows | never_step ].
Qed.

Lemma never_lr_smote_fit d X0 : never_raises learning_rate_error (SMOTE.fit d X0).
Proof.
  intros s. unfold SMOTE.fit, NearestNeighbors.fit. simpl.
  destruct X0 as [| r X0]; simpl; [discriminate |].
  destruct (length r =? 0)%nat; simpl; discriminate.
Qed.

Lemma never_lr_augment l : never_raises learning_rate_error (augment l).
Proof.
  unfold augment, smote_step, merge, on_smote, on_process, get_self,
    np_full_int64, normalize_l1.
  repeat first
    [ apply never_lr_smote_fit | apply never_lr_sample | never_step
    | never_direct ].
Qed.

Lemma never_lr_boost i l : never_raises learning_rate_error (boost i l).
Proof.
  intros h. unfold boost.
  destruct (estimators_ (self h)); simpl; [| discriminate].
  destruct (_boost _ _ _ _ _) as [[msg | v] env']; simpl; discriminate.
Qed.

Lemma never_lr_record i a e : never_raises learning_rate_error (record i a e).
Proof.
  unfold record, get_self. repeat first [ never_step | never_direct ].
Qed.

Lemma never_lr_boost_step i l : never_raises learning_rate_error (boost_step i l).
Proof.
  unfold boost_step.
  apply never_bind; [apply never_lr_boost | intros [[w a] e]].
  destruct w as [w |]; [| apply never_ret].
  apply never_bind; [apply never_lr_record | intros _].
  unfold get_self.
  repeat first [ never_step | never_direct ].
Qed.

Lemma never_lr_boost_loop todo : forall i l,
  never_raises learning_rate_error (boost_loop i todo l).
Proof.
  induction todo as [| todo IH]; intros i l; simpl.
  - apply never_ret.
  - apply never_bind.
    + unfold iteration. apply never_bind; [apply never_lr_augment | intros l1].
      apply never_lr_boost_step.
    + intros [X1 y1 | l']; [apply never_ret | apply IH].
Qed.

Lemma never_lr_initial_weights X0 sw :
  never_raises learning_rate_error (initial_weights X0 sw).
Proof.
  unfold initial_weights, lookup_global, check_array_1d.
  destruct sw as [w |]; [| apply never_ret].
  apply never_bind; [destruct (name_bound _); never_step |].
  intros _. apply never_bind; [destruct w; never_step |].
  intros w1. apply never_bind.
  - apply never_pure_outcome. unfold normalize_existing_weights.
    destruct (fle0 _); discriminate.
  - intros w2. apply never_pure_outcome.
    induction w2 as [| [q | | |] w2 IH]; simpl; try discriminate.
    destruct (finite_weights w2); [discriminate | exact IH].
Qed.

(** After the learning-rate check nothing in [fit] raises its exception. *)
Lemma never_lr_after_check d X1 y1 sw mt :
  never_raises learning_rate_error
    (Xy <- check_X_y X1 y1 ;;
     let '(X0, y0) := Xy in
     sample_weight <- initial_weights X0 sw ;;
     (match mt with
      | None =>
          match min_by_count (Counter y0) with
          | Some (min_c_, _) => modify (with_self (set_minority_target min_c_))
          | None => raise (ValueError "min() arg is an empty sequence")
          end
      | Some m => modify (with_self (set_minority_target m))
      end) ;;
     validate_estimator ;;
     modify (with_self (set_estimators_ [])) ;;
     s <- get_self ;;
     modify (with_self (set_estimator_weights_ (repeat 0%Q (n_estimators s)))) ;;
     modify (with_self (set_estimator_errors_ (repeat 1%Q (n_estimators s)))) ;;
     check_random_state (random_state s) ;;
     ret {| X := X0; X_dtype := d; y := y0; sample_weight := sample_weight |}).
Proof.
  apply never_bind.
  { unfold check_X_y. repeat first [ never_step | never_direct ]. }
  intros [X0 y0].
  apply never_bind; [apply never_lr_initial_weights | intros w].
  apply never_bind; [repeat first [ never_step | never_direct ] | intros _].
  apply never_bind.
  { intros h. unfold validate_estimator.
    destruct (_validate_estimator _ _) as [[msg | u] b]; simpl; discriminate. }
  intros _. unfold get_self, check_random_state.
  repeat first [ never_step | never_direct ].
Qed.

(** C8: with [learning_rate <= 0], [fit] raises the learning-rate
    [ValueError] (the specification's InvalidParameterError) and leaves the
    whole heap as it was: no round has run and no attribute of the ensemble
    has been created.  With [learning_rate > 0] no run of [fit] ends with
    that exception. *)
Theorem fit_learning_rate_check dt X0 y0 sw mt (h : Heap) :
  ((learning_rate (self h) <= 0)%Q ->
   fit dt X0 y0 sw mt h = (Raise learning_rate_error, h)) /\
  ((0 < learning_rate (self h))%Q ->
   forall h', fit dt X0 y0 sw mt h <> (Raise learning_rate_error, h')).
Proof.
  split.
  - intros Hle. apply Qle_bool_iff in Hle.
    unfold fit, fit_locals, fit_init, bind at 1 2 3, get_self.
    rewrite Hle. reflexivity.
  - intros Hlt h' Heq.
    assert (Hnot : Qle_bool (learning_rate (self h)) 0 = false).
    { destruct (Qle_bool (learning_rate (self h)) 0) eqn:E; [| reflexivity].
      apply Qle_bool_iff in E. lra. }
    assert (Hinit : exn_of (fst (fit_init dt X0 y0 sw mt h)) <> Some learning_rate_error).
    { unfold fit_init, bind at 1, get_self. rewrite Hnot.
      apply never_lr_after_check. }
    unfold fit, fit_locals in Heq.
    apply bind_Raise in Heq as [Heq | (a & s1 & _ & Heq)]; [| discriminate].
    apply bind_Raise in Heq as [Heq | (l & h1 & _ & Heq)].
    + rewrite Heq in Hinit. simpl in Hinit. congruence.
    + apply bind_Raise in Heq as [Heq | (s & h2 & _ & Heq)]; [discriminate |].
      pose proof (never_lr_boost_loop (n_estimators s) 0 l h2) as Hn.
      rewrite Heq in Hn. simpl in Hn. congruence.
Qed.

End LearningRate.

(** [preserves R m]: every run of [m], also one that raises, takes the
    state to one related to it by [R]. *)
Definition preserves {S A} (R : S -> S -> Prop) (m : M S A) : Prop :=
  forall s o s', m s = (o, s') -> R s s'.

Lemma preserves_bind {S A B} (R : S -> S -> Prop) (m : M S A) (f : A -> M S B) :
  (forall a b c, R a b -> R b c -> R a c) ->
  preserves R m -> (forall a, preserves R (f a)) -> preserves R (bind m f).
Proof.
  intros Htrans Hm Hf s o s' Hb. unfold bind in Hb.
  destruct (m s) as [[a | e] s1] eqn:E.
  - eapply Htrans; [eapply Hm; eauto | eapply Hf; eauto].
  - injection Hb as _ <-. eapply Hm; eauto.
Qed.

Lemma preserves_ret {S A} (R : S -> S -> Prop) (a : A) :
  (forall s, R s s) -> preserves R (ret a).
Proof. intros Hrefl s o s' Heq. injection Heq as _ <-. apply Hrefl. Qed.

Lemma preserves_raise {S A} (R : S -> S -> Prop) e :
  (forall s, R s s) -> preserves R (@raise S A e).
Proof. intros Hrefl s o s' Heq. injection Heq as _ <-. apply Hrefl. Qed.

Lemma preserves_attr {S A} (R : S -> S -> Prop) name (a : option A) :
  (forall s, R s s) -> preserves R (attr name a).
Proof.
  intros Hrefl. destruct a; [apply preserves_ret | apply preserves_raise]; auto.
Qed.

Lemma preserves_modify {S} (R : S -> S -> Prop) (f : S -> S) :
  (forall s, R s (f s)) -> preserves R (modify f).
Proof. intros Hf s o s' Heq. injection Heq as _ <-. apply Hf. Qed.

Lemma preserves_zoom {S T A} (R : S -> S -> Prop) (proj : S -> T) upd (m : M T A) :
  (forall s t, R s (upd t s)) -> preserves R (zoom proj upd m).
Proof.
  intros Hupd s o s' Heq. unfold zoom in Heq.
  destruct (m (proj s)) as [o' t]. injection Heq as _ <-. apply Hupd.
Qed.

(** ** One round of the boosting loop *)

Section Rounds.
Context `{NumpyRandom} `{NeighborSearch} `{!Booster} `{Int64Cast}.
Import SMOTEBoost.

Lemma sample_rows_length sm n : forall p S p',
  SMOTE.sample_rows sm n p = (Ok S, p') -> length S = n.
Proof.
  induction n as [| n IH]; intros p S p' Hs; simpl in Hs.
  - inversion Hs. reflexivity.
  - apply bind_Ok in Hs as (r & p1 & _ & Hs).
    apply bind_Ok in Hs as (rest & p2 & Hrest & Hs).
    inversion Hs; subst. simpl. f_equal. eauto.
Qed.

Lemma sample_length sm n p S p' :
  SMOTE.sample sm n p = (Ok S, p') -> length S = n.
Proof.
  unfold SMOTE.sample. intros Hs.
  apply bind_Ok in Hs as (u & p1 & _ & Hs).
  apply bind_Ok in Hs as (f & p2 & _ & Hs).
  eapply sample_rows_length; eauto.
Qed.

(** What the heap keeps over a round: every attribute of the classifier
    but [smote], [estimators_] and the two arrays of the ensemble. *)
Definition same_config (s s' : t) : Prop :=
  n_samples s' = n_samples s /\ n_estimators s' = n_estimators s /\
  learning_rate s' = learning_rate s /\ random_state s' = random_state s /\
  minority_target s' = minority_target s.

Lemma same_config_refl s : same_config s s.
Proof. repeat split. Qed.

Lemma same_config_trans s1 s2 s3 :
  same_config s1 s2 -> same_config s2 s3 -> same_config s1 s3.
Proof. unfold same_config. intuition congruence. Qed.

(** The SMOTE step only replaces the sampler and advances the stream. *)
Definition smote_frame (h h1 : Heap) : Prop :=
  same_config (self h) (self h1) /\
  estimators_ (self h1) = estimators_ (self h) /\
  estimator_weights_ (self h1) = estimator_weights_ (self h) /\
  estimator_errors_ (self h1) = estimator_errors_ (self h) /\
  rstate h1 = rstate h /\ private h1 = private h.

Lemma smote_frame_refl h : smote_frame h h.
Proof. repeat split. Qed.

Lemma smote_frame_trans h1 h2 h3 :
  smote_frame h1 h2 -> smote_frame h2 h3 -> smote_frame h1 h3.
Proof. unfold smote_frame, same_config. intuition congruence. Qed.

Lemma smote_step_frame l : preserves smote_frame (smote_step l).
Proof.
  unfold smote_step, get_self, on_smote, on_process.
  repeat first
    [ apply preserves_bind; [apply smote_frame_trans | | intros]
    | apply preserves_attr; apply smote_frame_refl
    | apply preserves_zoom; intros; repeat split
    | (intros h o h1 Heq; injection Heq as _ <-; apply smote_frame_refl) ].
Qed.

Lemma smote_step_length l h X_syn h1 :
  smote_step l h = (Ok X_syn, h1) -> length X_syn = n_samples (self h).
Proof.
  unfold smote_step, get_self, on_smote, on_process, zoom. intros Hs.
  apply bind_Ok in Hs as (s & h2 & Hs0 & Hs). inversion Hs0; subst s h2.
  apply bind_Ok in Hs as (m & h2 & Hm & Hs).
  destruct (minority_target (self h)); inversion Hm; subst.
  apply bind_Ok in Hs as (u & h3 & Hfit & Hs).
  apply bind_Ok in Hs as (s & h4 & Hs0' & Hs). inversion Hs0'; subst s h4.
  destruct (SMOTE.fit _ _) as [o sm] eqn:E. inversion Hfit; subst.
  destruct (SMOTE.sample _ _ _) as [o' p] eqn:E'.
  inversion Hs; subst. simpl in E'.
  eapply sample_length; eauto.
Qed.

(** What the merge computes. *)
Definition merged_weights (l : Locals) (n : nat) : list Q :=
  sample_weight l ++ repeat (1 / inject_Z (Z.of_nat (length (X l))))%Q n.

Lemma merge_Ok l X_syn h l1 h1 :
  merge l X_syn h = (Ok l1, h1) ->
  h1 = h /\
  exists m, minority_target (self h) = Some m /\
    to_int64 m = Some (int64_of m) /\
    X l1 = X l ++ X_syn /\
    y l1 = y l ++ repeat (inject_Z (int64_of m)) (length X_syn) /\
    let w := merged_weights l (length X_syn) in
    w <> [] /\
    sample_weight l1 =
      map (fun x => x / (if Qeq_bool (l1_norm w) 0 then 1 else l1_norm w))%Q w.
Proof.
  unfold merge, get_self, np_full_int64, normalize_l1, merged_weights, n_rows.
  intros Hm.
  apply bind_Ok in Hm as (s & h2 & Hs0 & Hm). inversion Hs0; subst s h2.
  apply bind_Ok in Hm as (m & h2 & Hmt & Hm).
  destruct (minority_target (self h)) as [m' |]; inversion Hmt; subst.
  apply bind_Ok in Hm as (y_syn & h3 & Hy & Hm).
  assert (Hz : to_int64 m = Some (int64_of m) /\
               y_syn = repeat (int64_of m) (length X_syn) /\ h3 = h2).
  { unfold int64_of. destruct (to_int64 m) as [z |]; [| discriminate].
    unfold ret in Hy. injection Hy as <- <-. repeat split. }
  destruct Hz as (Hz & -> & ->).
  apply bind_Ok in Hm as (w & h4 & Hw & Hm).
  unfold ret in Hm. injection Hm as <- <-.
  destruct (sample_weight l ++ _) as [| w0 ws] eqn:Hww; [discriminate |].
  unfold ret in Hw. injection Hw as <- <-.
  split; [reflexivity |]. exists m.
  split; [reflexivity |]. split; [exact Hz |]. split; [reflexivity |].
  split.
  { simpl. unfold np_append_labels. rewrite map_repeat. reflexivity. }
  cbv zeta. split; [discriminate | reflexivity].
Qed.

(** The merged array is floating, as the synthetic rows are. *)
Lemma merge_dtype l X_syn h l1 h1 :
  merge l X_syn h = (Ok l1, h1) -> X_dtype l1 = floating.
Proof.
  unfold merge. intros Hm.
  apply bind_Ok in Hm as (s & h2 & _ & Hm).
  apply bind_Ok in Hm as (m & h3 & _ & Hm).
  apply bind_Ok in Hm as (y_syn & h4 & _ & Hm).
  apply bind_Ok in Hm as (w & h5 & _ & Hm).
  unfold ret in Hm. injection Hm as <- _. reflexivity.
Qed.

Lemma augment_Ok l h l1 h1 :
  augment l h = (Ok l1, h1) ->
  exists X_syn, smote_step l h = (Ok X_syn, h1) /\ merge l X_syn h1 = (Ok l1, h1).
Proof.
  unfold augment. intros Ha.
  apply bind_Ok in Ha as (X_syn & h2 & Hs & Hm).
  pose proof (merge_Ok _ _ _ _ _ Hm) as [-> _]. eauto.
Qed.

(** The boosting call touches no attribute of the classifier but
    [estimators_]. *)
Lemma boost_frame i l h o h1 :
  boost i l h = (o, h1) ->
  same_config (self h) (self h1) /\ smote (self h1) = smote (self h) /\
  estimator_weights_ (self h1) = estimator_weights_ (self h) /\
  estimator_errors_ (self h1) = estimator_errors_ (self h).
Proof.
  unfold boost. intros Hb.
  destruct (estimators_ (self h)) as [ests |].
  2: { inversion Hb; subst. repeat split. }
  destruct (_boost _ _ _ _ _) as [[msg | v] env'];
    inversion Hb; subst; repeat split.
Qed.

(** Writing the slot of round [iboost]. *)
Definition recorded (iboost : nat) (a e : Q) (s : t) : t :=
  match estimator_weights_ s, estimator_errors_ s with
  | Some ws, Some es =>
      set_estimator_errors_ (<[iboost := e]> es)
        (set_estimator_weights_ (<[iboost := a]> ws) s)
  | _, _ => s
  end.

Lemma record_Ok i a e h ws es :
  estimator_weights_ (self h) = Some ws ->
  estimator_errors_ (self h) = Some es ->
  i < length ws -> i < length es ->
  record i a e h = (Ok tt, with_self (recorded i a e) h).
Proof.
  intros Hws Hes Hi Hi'.
  destruct h as [s p r b]. destruct s. simpl in *. subst.
  unfold record, recorded, get_self, bind, attr, modify, with_self. simpl.
  apply Nat.ltb_lt in Hi. rewrite Hi. simpl.
  apply Nat.ltb_lt in Hi'. rewrite Hi'. reflexivity.
Qed.

(** The answer of the boosting step decides how the round ends. *)
Definition after_boost (iboost : nat) (l : Locals) (n_estimators : nat)
    (w : list Q) (estimator_error : Q) : next :=
  if Qeq_bool estimator_error 0 then Break (X l) (y l)
  else if Qle_bool (Qsum w) 0 then Break (X l) (y l)
  else if (iboost <? n_estimators - 1)%nat
       then Continue {| X := X l; X_dtype := X_dtype l; y := y l;
                        sample_weight := map (fun x => x / Qsum w)%Q w |}
       else Continue {| X := X l; X_dtype := X_dtype l; y := y l;
                        sample_weight := w |}.

Lemma boost_step_unfold i l h :
  boost_step i l h =
  match boost i l h with
  | (Raise e, h1) => (Raise e, h1)
  | (Ok (None, _, _), h1) => (Ok (Break (X l) (y l)), h1)
  | (Ok (Some w, a, e), h1) =>
      match record i a e h1 with
      | (Raise e', h2) => (Raise e', h2)
      | (Ok _, h2) => (Ok (after_boost i l (n_estimators (self h2)) w e), h2)
      end
  end.
Proof.
  unfold boost_step, bind at 1.
  destruct (boost i l h) as [[[[[w |] a] e] | e] h1]; try reflexivity.
  unfold bind at 1.
  destruct (record i a e h1) as [[u | e'] h2]; try reflexivity.
  unfold after_boost, get_self, bind, ret.
  repeat case_match; reflexivity.
Qed.

(** [rounds i k l h]: the locals and the heap at the head of round
    [i + k], when the [k] rounds from round [i] on have all gone on to the
    next one. *)
Fixpoint rounds (i k : nat) (l : Locals) (h : Heap) : option (Locals * Heap) :=
  match k with
  | 0 => Some (l, h)
  | S k' =>
      match iteration i l h with
      | (Ok (Continue l'), h') => rounds (S i) k' l' h'
      | _ => None
      end
  end.

Lemma rounds_boost_loop k : forall i l h l' h' todo,
  rounds i k l h = Some (l', h') ->
  boost_loop i (k + todo) l h = boost_loop (i + k) todo l' h'.
Proof.
  induction k as [| k IH]; intros i l h l' h' todo Hr; simpl in Hr.
  - injection Hr as <- <-. rewrite Nat.add_0_r. reflexivity.
  - simpl. unfold bind at 1.
    destruct (iteration i l h) as [[[X1 y1 | l1] | e] h1]; try discriminate.
    rewrite (IH _ _ _ _ _ todo Hr). f_equal. lia.
Qed.

Lemma rounds_snoc k : forall i l h l' h' l'' h'',
  rounds i k l h = Some (l', h') ->
  iteration (i + k) l' h' = (Ok (Continue l''), h'') ->
  rounds i (S k) l h = Some (l'', h'').
Proof.
  induction k as [| k IH]; intros i l h l' h' l'' h'' Hr Hit; simpl in Hr.
  - injection Hr as <- <-. rewrite Nat.add_0_r in Hit. simpl. rewrite Hit.
    reflexivity.
  - change (rounds i (S (S k)) l h) with
      (match iteration i l h with
       | (Ok (Continue l1), h1) => rounds (S i) (S k) l1 h1
       | _ => None
       end).
    destruct (iteration i l h) as [[[X1 y1 | l1] | e] h1]; try discriminate.
    eapply IH; eauto. replace (S i + k) with (i + S k) by lia. exact Hit.
Qed.

(** Induction over the rounds of a run. *)
Lemma rounds_invariant (P : nat -> Locals -> Heap -> Prop) :
  (forall i l h l' h',
     P i l h -> iteration i l h = (Ok (Continue l'), h') -> P (S i) l' h') ->
  forall k i l h l' h',
    P i l h -> rounds i k l h = Some (l', h') -> P (i + k) l' h'.
Proof.
  intros Hstep k. induction k as [| k IH]; intros i l h l' h' HP Hr; simpl in Hr.
  - injection Hr as <- <-. rewrite Nat.add_0_r. exact HP.
  - destruct (iteration i l h) as [[[X1 y1 | l1] | e] h1] eqn:Hit; try discriminate.
    replace (i + S k) with (S i + k) by lia.
    eapply IH; [| exact Hr]. eapply Hstep; eauto.
Qed.

End Rounds.

(** ** What [fit] has set up when the loop is entered *)

Section FitInit.
Context `{NumpyRandom} `{NeighborSearch} `{!Booster} `{Int64Cast}.
Import SMOTEBoost.

Definition same_config_but_target (s s' : t) : Prop :=
  n_samples s' = n_samples s /\ n_estimators s' = n_estimators s /\
  learning_rate s' = learning_rate s /\ random_state s' = random_state s /\
  smote s' = smote s.

Lemma check_array_unbound : name_bound "check_array" = false.
Proof. reflexivity. Qed.

(** Supplied weights never get past line 175: [check_array] is bound
    nowhere in the module. *)
Lemma initial_weights_supplied X0 w (h : Heap) :
  initial_weights X0 (Some w) h = (Raise (NameError "check_array"), h).
Proof. reflexivity. Qed.

Lemma check_X_y_Ok {S} X0 y0 (s : S) Xy s' :
  check_X_y X0 y0 s = (Ok Xy, s') ->
  Xy = (X0, y0) /\ s' = s /\ 0 < length X0 /\ length y0 = length X0.
Proof.
  unfold check_X_y. destruct X0 as [| r X0']; [discriminate |].
  destruct (negb (forallb _ _)); [discriminate |].
  destruct (length r =? 0)%nat; [discriminate |].
  destruct (negb (length y0 =? length (r :: X0'))%nat) eqn:E; [discriminate |].
  intros Heq. injection Heq as <- <-.
  apply negb_false_iff, Nat.eqb_eq in E. simpl in *. repeat split; [lia | exact E].
Qed.

Lemma fit_init_Ok dt X0 y0 sw mt h l0 h0 :
  fit_init dt X0 y0 sw mt h = (Ok l0, h0) ->
  sw = None /\
  0 < length X0 /\ length y0 = length X0 /\
  l0 = {| X := X0; X_dtype := checked_dtype (self h) dt; y := y0;
          sample_weight :=
            repeat (1 / inject_Z (Z.of_nat (length X0)))%Q (length X0) |} /\
  (0 < learning_rate (self h))%Q /\
  same_config_but_target (self h) (self h0) /\
  (exists m, minority_target (self h0) = Some m /\
             match mt with
             | Some m' => m = m'
             | None => exists c, min_by_count (Counter y0) = Some (m, c)
             end) /\
  estimators_ (self h0) = Some [] /\
  estimator_weights_ (self h0) = Some (repeat 0%Q (n_estimators (self h))) /\
  estimator_errors_ (self h0) = Some (repeat 1%Q (n_estimators (self h))).
Proof.
  intros Hf. unfold fit_init in Hf.
  apply bind_Ok in Hf as (s & h1 & Hs & Hf).
  unfold get_self in Hs. injection Hs as <- <-.
  destruct (Qle_bool (learning_rate (self h)) 0) eqn:Hlr; [discriminate |].
  apply bind_Ok in Hf as (Xy & h1 & Hc & Hf).
  apply check_X_y_Ok in Hc as (-> & -> & Hlen & Hy).
  apply bind_Ok in Hf as (w & h1 & Hw & Hf).
  destruct sw as [w0 |]; [rewrite initial_weights_supplied in Hw; discriminate |].
  unfold initial_weights, ret in Hw. injection Hw as <- <-.
  apply bind_Ok in Hf as (u & h1 & Hmt & Hf).
  apply bind_Ok in Hf as (u1 & h2 & Hv & Hf).
  apply bind_Ok in Hf as (u2 & h3 & He1 & Hf).
  apply bind_Ok in Hf as (s3 & h4 & Hs & Hf).
  unfold get_self in Hs. injection Hs as <- <-.
  apply bind_Ok in Hf as (u3 & h4 & He2 & Hf).
  apply bind_Ok in Hf as (u4 & h5 & He3 & Hf).
  apply bind_Ok in Hf as (u5 & h6 & Hcr & Hf).
  unfold ret in Hf. injection Hf as <- <-.
  unfold modify in He1, He2, He3.
  injection He1 as _ <-. injection He2 as _ <-. injection He3 as _ <-.
  assert (Hcr' : self h6 = self
            (with_self (set_estimator_errors_ (repeat 1%Q (n_estimators (self (with_self (set_estimators_ []) h2)))))
               (with_self (set_estimator_weights_ (repeat 0%Q (n_estimators (self (with_self (set_estimators_ []) h2)))))
                  (with_self (set_estimators_ []) h2)))).
  { unfold check_random_state in Hcr.
    destruct (random_state _) as [sd |].
    - destruct ((0 <=? sd) && (sd <? 2 ^ 32))%Z; [| discriminate].
      unfold modify in Hcr. injection Hcr as _ <-. reflexivity.
    - unfold modify in Hcr. injection Hcr as _ <-. reflexivity. }
  assert (Hv' : self h2 = self h1).
  { unfold validate_estimator in Hv.
    destruct (_validate_estimator _ _) as [[msg | v] b]; [discriminate |].
    injection Hv as _ <-. reflexivity. }
  assert (Hmt' : exists m, self h1 = set_minority_target m (self h) /\
             match mt with
             | Some m' => m = m'
             | None => exists c, min_by_count (Counter y0) = Some (m, c)
             end).
  { destruct mt as [m |].
    - unfold modify in Hmt. injection Hmt as _ <-. exists m. split; reflexivity.
    - destruct (min_by_count (Counter y0)) as [[m c] |]; [| discriminate].
      unfold modify in Hmt. injection Hmt as _ <-. exists m. split; eauto. }
  destruct Hmt' as (m & Hself1 & Hm).
  rewrite Hcr'. simpl. rewrite Hv', Hself1. simpl.
  split; [reflexivity |]. split; [exact Hlen |]. split; [exact Hy |].
  split; [reflexivity |].
  split. { destruct (Qlt_le_dec 0 (learning_rate (self h))) as [Hlt | Hle]; [exact Hlt |].
           apply Qle_bool_iff in Hle. congruence. }
  split; [repeat split |].
  split; [exists m; split; [reflexivity | exact Hm] |].
  repeat split.
Qed.

End FitInit.

(** ** Anatomy of a round *)

Section RoundAnatomy.
Context `{NumpyRandom} `{NeighborSearch} `{!Booster} `{Int64Cast}.
Import SMOTEBoost.

(** The call that [boost] wraps. *)
Lemma boost_Ok i l h v h1 :
  boost i l h = (Ok v, h1) ->
  exists ests env',
    estimators_ (self h) = Some ests /\
    _boost i (X l) (y l) (sample_weight l)
      {| be_estimators := ests; be_process := process h;
         be_random_state := rstate h; be_private := private h |} = (inr v, env').
Proof.
  unfold boost. intros Hb.
  destruct (estimators_ (self h)) as [ests |]; [| discriminate].
  destruct (_boost _ _ _ _ _) as [[msg | v'] env'] eqn:E; [discriminate |].
  injection Hb as <- _. eauto.
Qed.

Lemma record_frame i a e : preserves
  (fun h h1 => same_config (self h) (self h1) /\ smote (self h1) = smote (self h) /\
               estimators_ (self h1) = estimators_ (self h))
  (record i a e).
Proof.
  assert (Hrefl : forall h : Heap,
             same_config (self h) (self h) /\ smote (self h) = smote (self h) /\
             estimators_ (self h) = estimators_ (self h)).
  { intros h. repeat split. }
  assert (Htrans : forall a0 b c : Heap,
             same_config (self a0) (self b) /\ smote (self b) = smote (self a0) /\
             estimators_ (self b) = estimators_ (self a0) ->
             same_config (self b) (self c) /\ smote (self c) = smote (self b) /\
             estimators_ (self c) = estimators_ (self b) ->
             same_config (self a0) (self c) /\ smote (self c) = smote (self a0) /\
             estimators_ (self c) = estimators_ (self a0)).
  { unfold same_config. intuition congruence. }
  unfold record, get_self.
  repeat first
    [ apply preserves_bind; [exact Htrans | | intros]
    | apply preserves_attr; exact Hrefl
    | apply preserves_raise; exact Hrefl
    | apply preserves_modify; intros; repeat split
    | (intros h o h1 Heq; injection Heq as _ <-; apply Hrefl)
    | match goal with |- preserves _ (if ?b then _ else _) => destruct b end ].
Qed.

(** A round that goes on to the next one, taken apart. *)
Lemma iteration_Continue i l h l' h' :
  iteration i l h = (Ok (Continue l'), h') ->
  exists X_syn h1 l1 w a e h2,
    smote_step l h = (Ok X_syn, h1) /\ merge l X_syn h1 = (Ok l1, h1) /\
    boost i l1 h1 = (Ok (Some w, a, e), h2) /\
    record i a e h2 = (Ok tt, h') /\
    after_boost i l1 (n_estimators (self h')) w e = Continue l'.
Proof.
  unfold iteration. intros Hit.
  apply bind_Ok in Hit as (l1 & h1 & Ha & Hb).
  apply augment_Ok in Ha as (X_syn & Hs & Hm).
  rewrite boost_step_unfold in Hb.
  destruct (boost i l1 h1) as [[[[[w |] a] e] | e] h2] eqn:Hboost; try discriminate.
  destruct (record i a e h2) as [[[] | e'] h3] eqn:Hrec; try discriminate.
  injection Hb as Hab <-.
  exists X_syn, h1, l1, w, a, e, h2. repeat split; assumption.
Qed.

(** The configuration of the classifier does not change over a round,
    however the round ends. *)
Lemma iteration_config i l : preserves
  (fun h h1 => same_config (self h) (self h1)) (iteration i l).
Proof.
  intros h o h' Hit. unfold iteration, bind in Hit.
  destruct (augment l h) as [[l1 | e] h1] eqn:Ha.
  - assert (Hc1 : same_config (self h) (self h1)).
    { unfold augment, bind in Ha.
      destruct (smote_step l h) as [[X_syn | e] h2] eqn:Hs; [| discriminate].
      apply smote_step_frame in Hs as [Hc _].
      destruct (merge l X_syn h2) as [o1 h3] eqn:Hm.
      assert (h3 = h2) as ->.
      { revert Hm. unfold merge, get_self, np_full_int64, normalize_l1,
          bind, attr, ret, raise.
        repeat case_match; intros Heq; congruence. }
      congruence. }
    rewrite boost_step_unfold in Hit.
    destruct (boost i l1 h1) as [[[[[w |] a] e] | e] h2] eqn:Hboost.
    + pose proof (boost_frame _ _ _ _ _ Hboost) as [Hc2 _].
      destruct (record i a e h2) as [o2 h3] eqn:Hrec.
      pose proof (record_frame _ _ _ _ _ _ Hrec) as [Hc3 _].
      assert (h' = h3) as -> by (destruct o2; congruence).
      eauto using same_config_trans.
    + pose proof (boost_frame _ _ _ _ _ Hboost) as [Hc2 _].
      injection Hit as _ <-. eauto using same_config_trans.
    + pose proof (boost_frame _ _ _ _ _ Hboost) as [Hc2 _].
      injection Hit as _ <-. eauto using same_config_trans.
  - injection Hit as _ <-.
    unfold augment, bind in Ha.
    destruct (smote_step l h) as [[X_syn | e'] h2] eqn:Hs.
    + apply smote_step_frame in Hs as [Hc _].
      destruct (merge l X_syn h2) as [o1 h3] eqn:Hm.
      assert (h3 = h2) as ->.
      { revert Hm. unfold merge, get_self, np_full_int64, normalize_l1,
          bind, attr, ret, raise.
        repeat case_match; intros Heq; congruence. }
      congruence.
    + apply smote_step_frame in Hs as [Hc _]. congruence.
Qed.

Lemma rounds_config k : forall i l h l' h',
  rounds i k l h = Some (l', h') -> same_config (self h) (self h').
Proof.
  induction k as [| k IH]; intros i l h l' h' Hr; simpl in Hr.
  - injection Hr as _ <-. apply same_config_refl.
  - destruct (iteration i l h) as [[[X1 y1 | l1] | e] h1] eqn:Hit; try discriminate.
    apply iteration_config in Hit.
    eapply same_config_trans; [exact Hit |]. eapply IH; eauto.
Qed.

End RoundAnatomy.

(** ** The growth of the training set *)

Section Growth.
Context `{NumpyRandom} `{NeighborSearch} `{!Booster} `{Int64Cast}.
Import SMOTEBoost.

(** The training set of a result. *)
Definition next_X (o : next) : matrix :=
  match o with Break X1 _ => X1 | Continue l => X l end.
Definition next_y (o : next) : list Q :=
  match o with Break _ y1 => y1 | Continue l => y l end.

(** The boosting step hands on the training set it was given. *)
Lemma after_boost_data i l n w e :
  next_X (after_boost i l n w e) = X l /\ next_y (after_boost i l n w e) = y l.
Proof. unfold after_boost. repeat case_match; split; reflexivity. Qed.

(** Any round that ends without an exception, taken apart. *)
Lemma iteration_Ok i l h o h' :
  iteration i l h = (Ok o, h') ->
  exists X_syn h1 l1,
    smote_step l h = (Ok X_syn, h1) /\ merge l X_syn h1 = (Ok l1, h1) /\
    next_X o = X l1 /\ next_y o = y l1.
Proof.
  unfold iteration. intros Hit.
  apply bind_Ok in Hit as (l1 & h1 & Ha & Hb).
  apply augment_Ok in Ha as (X_syn & Hs & Hm).
  exists X_syn, h1, l1. split; [exact Hs |]. split; [exact Hm |].
  rewrite boost_step_unfold in Hb.
  destruct (boost i l1 h1) as [[[[[w |] a] e] | e] h2]; try discriminate.
  - destruct (record i a e h2) as [[[] | e'] h3]; try discriminate.
    injection Hb as <- _. apply after_boost_data.
  - injection Hb as <- _. split; reflexivity.
Qed.

(** The batches of synthetic rows made by the rounds [i], ..., [i + k - 1],
    in the order they are made. *)
Fixpoint batches (i k : nat) (l : Locals) (h : Heap) : list matrix :=
  match k with
  | 0 => []
  | S k' =>
      match smote_step l h with
      | (Ok X_syn, _) =>
          X_syn ::
          match iteration i l h with
          | (Ok (Continue l'), h') => batches (S i) k' l' h'
          | _ => []
          end
      | _ => []
      end
  end.

Lemma rounds_batches m k : forall i l h l' h',
  minority_target (self h) = Some m ->
  rounds i k l h = Some (l', h') ->
  length (batches i k l h) = k /\
  Forall (fun b => length b = n_samples (self h)) (batches i k l h) /\
  X l' = X l ++ concat (batches i k l h) /\
  y l' = y l ++ repeat (inject_Z (int64_of m)) (length (concat (batches i k l h))).
Proof.
  induction k as [| k IH]; intros i l h l' h' Hmt Hr; simpl in Hr.
  - injection Hr as <- <-. simpl. rewrite !app_nil_r. repeat split. constructor.
  - destruct (iteration i l h) as [[[X1 y1 | l1] | e] h1] eqn:Hit; try discriminate.
    pose proof (iteration_config _ _ _ _ _ Hit) as Hcfg.
    pose proof (iteration_Ok _ _ _ _ _ Hit) as (X_syn & h2 & l2 & Hs & Hm & HX & Hy).
    simpl in HX, Hy.
    apply merge_Ok in Hm as (_ & m' & Hmt' & _ & HX2 & Hy2 & _).
    pose proof (smote_step_length _ _ _ _ Hs) as Hlen.
    pose proof (smote_step_frame _ _ _ _ Hs) as [Hcfg2 _].
    assert (m' = m) as ->.
    { destruct Hcfg2 as (_ & _ & _ & _ & E). congruence. }
    assert (Hmt1 : minority_target (self h1) = Some m).
    { destruct Hcfg as (_ & _ & _ & _ & E). congruence. }
    destruct (IH _ _ _ _ _ Hmt1 Hr) as (IHlen & IHall & IHX & IHy).
    simpl. rewrite Hs, Hit. simpl.
    split; [f_equal; exact IHlen |].
    split.
    { constructor; [exact Hlen |].
      destruct Hcfg as (E & _). rewrite <- E. exact IHall. }
    rewrite IHX, IHy, HX, Hy, HX2, Hy2. rewrite <- !app_assoc.
    split; [reflexivity |]. f_equal.
    rewrite length_app, repeat_app. reflexivity.
Qed.

(** The batch of a round that the loop reaches is in its place in the list
    of the batches. *)
Lemma batches_lookup k : forall i l h l' h' X_syn h1 todo,
  rounds i k l h = Some (l', h') ->
  smote_step l' h' = (Ok X_syn, h1) ->
  k < todo ->
  batches i todo l h !! k = Some X_syn.
Proof.
  induction k as [| k IH]; intros i l h l' h' X_syn h1 todo Hr Hs Hk;
    (destruct todo as [| todo]; [lia |]); simpl in Hr.
  - injection Hr as <- <-. simpl. rewrite Hs. reflexivity.
  - destruct (iteration i l h) as [[[X1 y1 | l1] | e] h2] eqn:Hit; try discriminate.
    pose proof (iteration_Ok _ _ _ _ _ Hit) as (X' & h3 & l3 & Hs' & _).
    simpl. rewrite Hs', Hit. simpl.
    apply (IH _ _ _ _ _ _ _ _ Hr Hs). lia.
Qed.

(** How a run of the loop that returns has ended: after the last round
    allowed, or at the [break] of an earlier one. *)
Lemma boost_loop_end todo : forall i l h Xf yf hf,
  boost_loop i todo l h = (Ok (Xf, yf), hf) ->
  (exists l', rounds i todo l h = Some (l', hf) /\ Xf = X l' /\ yf = y l') \/
  (exists k l' h',
     k < todo /\ rounds i k l h = Some (l', h') /\
     iteration (i + k) l' h' = (Ok (Break Xf yf), hf)).
Proof.
  induction todo as [| todo IH]; intros i l h Xf yf hf Hl; simpl in Hl.
  - injection Hl as <- <- <-. left. exists l. repeat split.
  - apply bind_Ok in Hl as (r & h1 & Hit & Hl).
    destruct r as [X1 y1 | l1].
    + injection Hl as <- <- <-. right. exists 0, l, h.
      rewrite Nat.add_0_r. repeat split; [lia | exact Hit].
    + destruct (IH _ _ _ _ _ _ Hl) as [(l' & Hr & HX & Hy) | (k & l' & h' & Hk & Hr & Hb)].
      * left. exists l'. simpl. rewrite Hit. repeat split; assumption.
      * right. exists (S k), l', h'. simpl. rewrite Hit.
        replace (i + S k) with (S i + k) by lia.
        repeat split; [lia | exact Hr | exact Hb].
Qed.

(** A round that breaks has made the last batch. *)
Lemma batches_break k : forall i l h l' h' Xf yf hf rest,
  rounds i k l h = Some (l', h') ->
  iteration (i + k) l' h' = (Ok (Break Xf yf), hf) ->
  length (batches i (k + S rest) l h) = S k.
Proof.
  induction k as [| k IH]; intros i l h l' h' Xf yf hf rest Hr Hb; simpl in Hr.
  - injection Hr as <- <-. rewrite Nat.add_0_r in Hb. simpl.
    pose proof (iteration_Ok _ _ _ _ _ Hb) as (X_syn & h1 & l1 & Hs & _).
    rewrite Hs, Hb. reflexivity.
  - destruct (iteration i l h) as [[[X1 y1 | l1] | e] h1] eqn:Hit; try discriminate.
    pose proof (iteration_Ok _ _ _ _ _ Hit) as (X_syn & h2 & l2 & Hs & _).
    simpl. rewrite Hs, Hit. simpl. f_equal.
    apply (IH (S i) l1 h1 l' h' Xf yf hf rest Hr).
    replace (S i + k) with (i + S k) by lia. exact Hb.
Qed.

(** The training set that the loop returns: the one it started from,
    followed by the batches of the rounds it ran. *)
Lemma boost_loop_batches m todo : forall i l h Xf yf hf,
  minority_target (self h) = Some m ->
  boost_loop i todo l h = (Ok (Xf, yf), hf) ->
  length (batches i todo l h) <= todo /\
  Xf = X l ++ concat (batches i todo l h) /\
  yf = y l ++ repeat (inject_Z (int64_of m))
                (length (concat (batches i todo l h))).
Proof.
  induction todo as [| todo IH]; intros i l h Xf yf hf Hmt Hl; simpl in Hl.
  - injection Hl as <- <- _. simpl. rewrite !app_nil_r. repeat split. lia.
  - apply bind_Ok in Hl as (r & h1 & Hit & Hl).
    pose proof (iteration_config _ _ _ _ _ Hit) as Hcfg.
    pose proof (iteration_Ok _ _ _ _ _ Hit) as (X_syn & h2 & l2 & Hs & Hm & HX & Hy).
    apply merge_Ok in Hm as (_ & m' & Hmt' & _ & HX2 & Hy2 & _).
    pose proof (smote_step_frame _ _ _ _ Hs) as [Hcfg2 _].
    assert (m' = m) as ->.
    { destruct Hcfg2 as (_ & _ & _ & _ & E). congruence. }
    destruct r as [X1 y1 | l1].
    + injection Hl as <- <- _. simpl in HX, Hy. simpl.
      rewrite Hs, Hit. simpl. rewrite !app_nil_r.
      split; [lia |]. split; congruence.
    + assert (Hmt1 : minority_target (self h1) = Some m).
      { destruct Hcfg as (_ & _ & _ & _ & E). congruence. }
      destruct (IH _ _ _ _ _ _ Hmt1 Hl) as (IHlen & IHX & IHy).
      simpl in HX, Hy. simpl. rewrite Hs, Hit. simpl.
      split; [lia |].
      rewrite IHX, IHy, HX, Hy, HX2, Hy2. rewrite <- !app_assoc.
      split; [reflexivity |]. f_equal.
      rewrite length_app, repeat_app. reflexivity.
Qed.

(** [fit] is its loop, entered at any round head that a run reaches. *)
Lemma fit_locals_via_loop dt X0 y0 sw mt h l0 h0 :
  fit_init dt X0 y0 sw mt h = (Ok l0, h0) ->
  fit_locals dt X0 y0 sw mt h = boost_loop 0 (n_estimators (self h)) l0 h0.
Proof.
  intros Hinit. unfold fit_locals.
  rewrite (bind_eq_Ok _ _ _ _ _ Hinit). unfold get_self, bind at 1.
  apply fit_init_Ok in Hinit as (_ & _ & _ & _ & _ & (_ & E & _) & _).
  rewrite E. reflexivity.
Qed.

Lemma fit_locals_at_head dt X0 y0 sw mt h l0 h0 i l hi :
  fit_init dt X0 y0 sw mt h = (Ok l0, h0) ->
  rounds 0 i l0 h0 = Some (l, hi) ->
  i <= n_estimators (self h) ->
  fit_locals dt X0 y0 sw mt h = boost_loop i (n_estimators (self h) - i) l hi.
Proof.
  intros Hinit Hr Hi. rewrite (fit_locals_via_loop _ _ _ _ _ _ _ _ Hinit).
  replace (n_estimators (self h)) with (i + (n_estimators (self h) - i)) at 1 by lia.
  rewrite (rounds_boost_loop _ _ _ _ _ _ _ Hr). reflexivity.
Qed.

(** How a run of [fit] that returns has ended. *)
Lemma fit_locals_end dt X0 y0 sw mt h l0 h0 Xf yf hf :
  fit_init dt X0 y0 sw mt h = (Ok l0, h0) ->
  fit_locals dt X0 y0 sw mt h = (Ok (Xf, yf), hf) ->
  (exists l, rounds 0 (n_estimators (self h)) l0 h0 = Some (l, hf) /\
             Xf = X l /\ yf = y l) \/
  (exists i l hi,
     i < n_estimators (self h) /\ rounds 0 i l0 h0 = Some (l, hi) /\
     iteration i l hi = (Ok (Break Xf yf), hf)).
Proof.
  intros Hinit Hfit. rewrite (fit_locals_via_loop _ _ _ _ _ _ _ _ Hinit) in Hfit.
  apply boost_loop_end in Hfit. exact Hfit.
Qed.

(** C9: the training set only grows at its end, in a run of [fit].  The
    head of round [i] is a point of the run: [fit] is its loop entered
    there.  At that head the set is the original one followed by the [i]
    batches of the earlier rounds in the order they were made; when the
    round ends without an exception, going on or breaking, the set handed
    on is the set at its head followed by the batch that the round's SMOTE
    step made, which is the entry [i] of the list of the batches of the
    run.  The set that the locals hold when [fit] returns is the original
    one followed by all the batches of the run, one for each round run:
    [n_estimators] of them when no round breaks, [i + 1] when round [i]
    breaks.  The labels appended are the minority label as [np.int64]. *)
Theorem fit_appends_batches dt X0 y0 sw mt h l0 h0 :
  fit_init dt X0 y0 sw mt h = (Ok l0, h0) ->
  exists m, minority_target (self h0) = Some m /\
  (forall i l hi,
     rounds 0 i l0 h0 = Some (l, hi) ->
     (i <= n_estimators (self h) ->
      fit_locals dt X0 y0 sw mt h =
      boost_loop i (n_estimators (self h) - i) l hi) /\
     length (batches 0 i l0 h0) = i /\
     X l = X0 ++ concat (batches 0 i l0 h0) /\
     y l = y0 ++ repeat (inject_Z (int64_of m))
                   (length (concat (batches 0 i l0 h0))) /\
     (forall o h',
        iteration i l hi = (Ok o, h') ->
        exists X_syn h1,
          smote_step l hi = (Ok X_syn, h1) /\
          to_int64 m = Some (int64_of m) /\
          next_X o = X l ++ X_syn /\
          next_y o = y l ++ repeat (inject_Z (int64_of m)) (length X_syn)) /\
     (forall X_syn h1,
        i < n_estimators (self h) ->
        smote_step l hi = (Ok X_syn, h1) ->
        batches 0 (n_estimators (self h)) l0 h0 !! i = Some X_syn)) /\
  (forall Xf yf hf,
     fit_locals dt X0 y0 sw mt h = (Ok (Xf, yf), hf) ->
     Xf = X0 ++ concat (batches 0 (n_estimators (self h)) l0 h0) /\
     yf = y0 ++ repeat (inject_Z (int64_of m))
                  (length (concat (batches 0 (n_estimators (self h)) l0 h0))) /\
     ((exists l,
         rounds 0 (n_estimators (self h)) l0 h0 = Some (l, hf) /\
         length (batches 0 (n_estimators (self h)) l0 h0) =
           n_estimators (self h)) \/
      (exists i l hi,
         i < n_estimators (self h) /\
         rounds 0 i l0 h0 = Some (l, hi) /\
         iteration i l hi = (Ok (Break Xf yf), hf) /\
         length (batches 0 (n_estimators (self h)) l0 h0) = S i))).
Proof.
  intros Hinit.
  pose proof (fit_init_Ok _ _ _ _ _ _ _ _ Hinit)
    as (_ & _ & _ & Hl0 & _ & Hcfg0 & (m & Hmt & _) & _).
  exists m. split; [exact Hmt |].
  assert (HX0 : X l0 = X0) by (rewrite Hl0; reflexivity).
  assert (Hy0 : y l0 = y0) by (rewrite Hl0; reflexivity).
  split.
  - intros i l hi Hr.
    destruct (rounds_batches m _ _ _ _ _ _ Hmt Hr) as (Hlen & _ & HX & Hy).
    rewrite HX0 in HX. rewrite Hy0 in Hy.
    split; [intros Hi; eapply fit_locals_at_head; eauto |].
    split; [exact Hlen |]. split; [exact HX |]. split; [exact Hy |].
    split.
    + intros o h' Hit.
      pose proof (iteration_Ok _ _ _ _ _ Hit) as (X_syn & h1 & l1 & Hs & Hm & HXo & Hyo).
      apply merge_Ok in Hm as (_ & m' & Hmt' & Hz & HX2 & Hy2 & _).
      pose proof (smote_step_frame _ _ _ _ Hs) as [Hcfg2 _].
      pose proof (rounds_config _ _ _ _ _ _ Hr) as Hcfg.
      assert (m' = m) as ->.
      { destruct Hcfg2 as (_ & _ & _ & _ & E).
        destruct Hcfg as (_ & _ & _ & _ & E'). congruence. }
      exists X_syn, h1. split; [exact Hs |]. split; [exact Hz |].
      split; congruence.
    + intros X_syn h1 Hi Hs. eapply batches_lookup; eauto.
  - intros Xf yf hf Hfit.
    pose proof Hfit as Hfit'.
    rewrite (fit_locals_via_loop _ _ _ _ _ _ _ _ Hinit) in Hfit'.
    destruct (boost_loop_batches m _ _ _ _ _ _ _ Hmt Hfit') as (_ & HX & Hy).
    rewrite HX0 in HX. rewrite Hy0 in Hy.
    split; [exact HX |]. split; [exact Hy |].
    destruct (fit_locals_end _ _ _ _ _ _ _ _ _ _ _ Hinit Hfit)
      as [(l & Hr & _ & _) | (i & l & hi & Hi & Hr & Hb)].
    + left. exists l. split; [exact Hr |].
      apply (rounds_batches m _ _ _ _ _ _ Hmt Hr).
    + right. exists i, l, hi.
      split; [exact Hi |]. split; [exact Hr |]. split; [exact Hb |].
      replace (n_estimators (self h)) with (i + S (n_estimators (self h) - i - 1))
        by lia.
      eapply batches_break; eauto.
Qed.

End Growth.

(** ** Sizes *)

Section Sizes.
Context `{NumpyRandom} `{NeighborSearch} `{!Booster} `{Int64Cast}.
Import SMOTEBoost.

(** Contract of the boosting step used for the sizes: the weights it
    returns are as many as the weights it was given. *)
Definition booster_keeps_length : Prop :=
  forall i X0 y0 w env w' a e env',
    _boost i X0 y0 w env = (inr (Some w', a, e), env') -> length w' = length w.

Lemma merge_lengths l X_syn h l1 h1 :
  merge l X_syn h = (Ok l1, h1) ->
  length (y l) = length (X l) -> length (sample_weight l) = length (X l) ->
  length (X l1) = length (X l) + length X_syn /\
  length (y l1) = length (X l1) /\ length (sample_weight l1) = length (X l1).
Proof.
  intros Hm Hy Hw.
  apply merge_Ok in Hm as (_ & m & _ & _ & HX & Hy1 & _ & Hw1).
  rewrite HX, Hy1, Hw1. unfold merged_weights.
  rewrite length_map, !length_app, !repeat_length. lia.
Qed.

Lemma after_boost_Continue_length i l n w e l' :
  after_boost i l n w e = Continue l' ->
  X l' = X l /\ y l' = y l /\ length (sample_weight l') = length w.
Proof.
  unfold after_boost. repeat case_match; intros Heq; try discriminate;
    injection Heq as <-; simpl; rewrite ?length_map; auto.
Qed.

(** C5: the sizes in a run of [fit].  The head of round [i] (the rounds
    before it having gone on without a break) is a point of the run: [fit]
    is its loop entered there.  At that head the training set has
    [originalN + i * n_samples] rows and as many labels and weights; at the
    boosting call of round [i], and after round [i] when it goes on to the
    next round, it has [originalN + (i + 1) * n_samples] rows and as many
    labels and weights.  When [fit] returns, the training set that its
    locals hold has [originalN + n_estimators * n_samples] rows if no round
    broke, and [originalN + (i + 1) * n_samples] rows if round [i] did, with
    as many labels.  The boosting step is taken to return as many weights
    as it is given. *)
Theorem fit_dataset_size dt X0 y0 sw mt h l0 h0 :
  booster_keeps_length ->
  fit_init dt X0 y0 sw mt h = (Ok l0, h0) ->
  (forall i l hi,
     rounds 0 i l0 h0 = Some (l, hi) ->
     (i <= n_estimators (self h) ->
      fit_locals dt X0 y0 sw mt h =
      boost_loop i (n_estimators (self h) - i) l hi) /\
     (length (X l) = length X0 + i * n_samples (self h) /\
      length (y l) = length (X l) /\
      length (sample_weight l) = length (X l)) /\
     (forall l1 h1,
        augment l hi = (Ok l1, h1) ->
        length (X l1) = length X0 + (i + 1) * n_samples (self h) /\
        length (y l1) = length (X l1) /\
        length (sample_weight l1) = length (X l1)) /\
     (forall l' h',
        iteration i l hi = (Ok (Continue l'), h') ->
        length (X l') = length X0 + (i + 1) * n_samples (self h) /\
        length (y l') = length (X l') /\
        length (sample_weight l') = length (X l'))) /\
  (forall Xf yf hf,
     fit_locals dt X0 y0 sw mt h = (Ok (Xf, yf), hf) ->
     length yf = length Xf /\
     ((exists l,
         rounds 0 (n_estimators (self h)) l0 h0 = Some (l, hf) /\
         length Xf = length X0 + n_estimators (self h) * n_samples (self h)) \/
      (exists i l hi,
         i < n_estimators (self h) /\
         rounds 0 i l0 h0 = Some (l, hi) /\
         iteration i l hi = (Ok (Break Xf yf), hf) /\
         length Xf = length X0 + (i + 1) * n_samples (self h)))).
Proof.
  intros Hkeep Hinit.
  pose proof (fit_init_Ok _ _ _ _ _ _ _ _ Hinit)
    as (_ & _ & Hy0 & Hl0 & _ & Hcfg0 & _).
  set (ns := n_samples (self h)).
  set (P := fun (i : nat) (l : Locals) (hi : Heap) =>
              n_samples (self hi) = ns /\
              length (X l) = length X0 + i * ns /\
              length (y l) = length (X l) /\
              length (sample_weight l) = length (X l)).
  assert (Haug : forall i l hi l1 h1,
             P i l hi -> augment l hi = (Ok l1, h1) ->
             n_samples (self h1) = ns /\
             length (X l1) = length X0 + (i + 1) * ns /\
             length (y l1) = length (X l1) /\
             length (sample_weight l1) = length (X l1)).
  { intros i l hi l1 h1 (Hns & HX & Hy & Hw) Ha.
    apply augment_Ok in Ha as (X_syn & Hs & Hm).
    pose proof (smote_step_length _ _ _ _ Hs) as Hlen.
    pose proof (smote_step_frame _ _ _ _ Hs) as [(E & _) _].
    destruct (merge_lengths _ _ _ _ _ Hm Hy Hw) as (HX1 & Hy1 & Hw1).
    split; [congruence |]. split; [| auto]. rewrite HX1, HX, Hlen, Hns. lia. }
  assert (Hstep : forall i l hi l' h',
             P i l hi -> iteration i l hi = (Ok (Continue l'), h') -> P (S i) l' h').
  { intros i l hi l' h' HP Hit.
    pose proof (iteration_config _ _ _ _ _ Hit) as (E & _).
    apply iteration_Continue in Hit
      as (X_syn & h1 & l1 & w & a & e & h2 & Hs & Hm & Hb & Hrec & Hab).
    assert (Ha : augment l hi = (Ok l1, h1)).
    { unfold augment. rewrite (bind_eq_Ok _ _ _ _ _ Hs). exact Hm. }
    destruct (Haug _ _ _ _ _ HP Ha) as (_ & HX1 & Hy1 & Hw1).
    apply boost_Ok in Hb as (ests & env' & _ & Hb).
    apply Hkeep in Hb.
    apply after_boost_Continue_length in Hab as (EX & Ey & Ew).
    destruct HP as (Hns & _).
    split; [congruence |]. rewrite EX, Ey, Ew, Hb.
    replace (S i) with (i + 1) by lia. auto. }
  assert (HP0 : P 0 l0 h0).
  { subst P. simpl. rewrite Hl0. simpl. rewrite repeat_length.
    destruct Hcfg0 as (E & _). repeat split; auto. }
  assert (Hhead : forall i l hi, rounds 0 i l0 h0 = Some (l, hi) -> P i l hi).
  { intros i l hi Hr.
    exact (rounds_invariant P Hstep _ _ _ _ _ _ HP0 Hr). }
  split.
  - intros i l hi Hr. pose proof (Hhead _ _ _ Hr) as HP.
    split; [intros Hi; eapply fit_locals_at_head; eauto |].
    split; [destruct HP as (_ & HX & Hy & Hw); auto |]. split.
    + intros l1 h1 Ha. destruct (Haug _ _ _ _ _ HP Ha) as (_ & HX1 & Hy1 & Hw1). auto.
    + intros l' h' Hit. destruct (Hstep _ _ _ _ _ HP Hit) as (_ & HX1 & Hy1 & Hw1).
      replace (i + 1) with (S i) by lia. auto.
  - intros Xf yf hf Hfit.
    destruct (fit_locals_end _ _ _ _ _ _ _ _ _ _ _ Hinit Hfit)
      as [(l & Hr & -> & ->) | (i & l & hi & Hi & Hr & Hb)].
    + destruct (Hhead _ _ _ Hr) as (_ & HX & Hy & _).
      split; [exact Hy |]. left. exists l. split; [exact Hr | exact HX].
    + pose proof (Hhead _ _ _ Hr) as HP.
      pose proof (iteration_Ok _ _ _ _ _ Hb) as (X_syn & h1 & l1 & Hs & Hm & HXb & Hyb).
      simpl in HXb, Hyb.
      assert (Ha : augment l hi = (Ok l1, h1)).
      { unfold augment. rewrite (bind_eq_Ok _ _ _ _ _ Hs). exact Hm. }
      destruct (Haug _ _ _ _ _ HP Ha) as (_ & HX1 & Hy1 & _).
      split; [congruence |]. right. exists i, l, hi.
      repeat split; try assumption. congruence.
Qed.

End Sizes.

(** ** The labels of the synthetic rows *)

(** A label that is an integer of the 64-bit range. *)
Definition int64_label (m : Q) : Prop :=
  exists z, int64_range z = true /\ (m == inject_Z z)%Q.

Lemma Qtrunc_integer m z : (m == inject_Z z)%Q -> Qtrunc m = z.
Proof.
  unfold Qeq, Qtrunc. simpl. intros Heq. rewrite Z.mul_1_r in Heq.
  rewrite Heq. apply Z.quot_mul. discriminate.
Qed.

Lemma int64_label_iff m :
  int64_label m <->
  int64_range (Qtrunc m) = true /\ (inject_Z (Qtrunc m) == m)%Q.
Proof.
  split.
  - intros (z & Hr & Heq). rewrite (Qtrunc_integer _ _ Heq).
    split; [exact Hr | symmetry; exact Heq].
  - intros (Hr & Heq). exists (Qtrunc m). split; [exact Hr | symmetry; exact Heq].
Qed.

Lemma minority_rows_app X1 y1 X2 y2 m :
  length X1 = length y1 ->
  minority_rows (X1 ++ X2) (y1 ++ y2) m =
  minority_rows X1 y1 m ++ minority_rows X2 y2 m.
Proof.
  intros Hlen. unfold minority_rows.
  rewrite zip_with_app by exact Hlen.
  rewrite filter_app, map_app. reflexivity.
Qed.

Lemma minority_rows_other X2 v n m :
  Qeq_bool v m = false -> minority_rows X2 (repeat v n) m = [].
Proof.
  intros Hne. unfold minority_rows. revert n.
  induction X2 as [| r X2 IH]; intros [| n]; simpl; try reflexivity.
  rewrite filter_cons. simpl. rewrite decide_False by (rewrite Hne; discriminate).
  apply IH.
Qed.

Lemma minority_rows_same X2 v m :
  Qeq_bool v m = true -> minority_rows X2 (repeat v (length X2)) m = X2.
Proof.
  intros Heq. unfold minority_rows.
  induction X2 as [| r X2 IH]; simpl; [reflexivity |].
  rewrite filter_cons. simpl. rewrite decide_True by exact Heq.
  simpl. f_equal. exact IH.
Qed.

Section Labels.
Context `{NumpyRandom} `{NeighborSearch} `{!Booster} `{Int64Cast}.
Import SMOTEBoost.

Lemma int64_of_Some m z : to_int64 m = Some z -> int64_of m = z.
Proof. unfold int64_of. intros ->. reflexivity. Qed.

(** The conversion of a label that is a 64-bit integer gives the label. *)
Lemma to_int64_label m :
  int64_label m -> to_int64 m = Some (Qtrunc m) /\ (inject_Z (Qtrunc m) == m)%Q.
Proof.
  intros Hint. apply int64_label_iff in Hint as (Hr & Heq).
  split; [apply to_int64_in_range; exact Hr | exact Heq].
Qed.

(** The conversion of any other label gives another number. *)
Lemma to_int64_other m z :
  ~ int64_label m -> to_int64 m = Some z -> ~ (inject_Z z == m)%Q.
Proof.
  intros Hnot Hz Heq. apply Hnot. exists z.
  split; [eapply to_int64_is_int64; eauto | symmetry; exact Heq].
Qed.



End Labels.

(** ** Sums of weights *)

Lemma Qsum_nil : Qsum [] = 0%Q.
Proof. reflexivity. Qed.

Lemma Qsum_cons x w : Qsum (x :: w) = (x + Qsum w)%Q.
Proof. reflexivity. Qed.

Lemma Qsum_app a b : (Qsum (a ++ b) == Qsum a + Qsum b)%Q.
Proof.
  induction a as [| x a IH].
  - rewrite app_nil_l, Qsum_nil. lra.
  - rewrite <- app_comm_cons, !Qsum_cons, IH. lra.
Qed.

Lemma Qsum_nonneg w : Forall (fun x => 0 <= x)%Q w -> (0 <= Qsum w)%Q.
Proof.
  induction 1 as [| x w Hx _ IH].
  - rewrite Qsum_nil. lra.
  - rewrite Qsum_cons. lra.
Qed.

Lemma Qsum_map_div w s :
  (Qsum (map (fun x => x / s) w) == Qsum w / s)%Q.
Proof.
  induction w as [| x w IH].
  - change (map (fun x => x / s)%Q []) with (@nil Q). rewrite Qsum_nil.
    unfold Qdiv. lra.
  - change (map (fun x => x / s)%Q (x :: w))
      with ((x / s)%Q :: map (fun x => x / s)%Q w).
    rewrite !Qsum_cons, IH. unfold Qdiv. lra.
Qed.

Lemma l1_norm_nonneg w :
  Forall (fun x => 0 <= x)%Q w -> (l1_norm w == Qsum w)%Q.
Proof.
  unfold l1_norm. induction 1 as [| x w Hx _ IH].
  - reflexivity.
  - change (map Qabs (x :: w)) with (Qabs x :: map Qabs w).
    rewrite !Qsum_cons, IH. rewrite Qabs_pos by exact Hx. reflexivity.
Qed.

Lemma Forall_nonneg_div w s :
  (0 < s)%Q -> Forall (fun x => 0 <= x)%Q w ->
  Forall (fun x => 0 <= x)%Q (map (fun x => x / s)%Q w).
Proof.
  intros Hs Hw. induction Hw as [| x w Hx _ IH]; constructor; [| exact IH].
  apply Qle_shift_div_l; [exact Hs | lra].
Qed.

Lemma Qsum_normalized w s :
  (0 < s)%Q -> (Qsum w == s)%Q -> (Qsum (map (fun x => x / s) w) == 1)%Q.
Proof.
  intros Hs Hw. rewrite Qsum_map_div, Hw. field. lra.
Qed.

Lemma Qsum_repeat c k : (Qsum (repeat c k) == inject_Z (Z.of_nat k) * c)%Q.
Proof.
  induction k as [| k IH].
  - change (repeat c 0) with (@nil Q). rewrite Qsum_nil.
    change (inject_Z (Z.of_nat 0)) with 0%Q. lra.
  - change (repeat c (S k)) with (c :: repeat c k).
    rewrite Qsum_cons, IH.
    rewrite Nat2Z.inj_succ. unfold Z.succ. rewrite inject_Z_plus.
    change (inject_Z 1) with 1%Q. lra.
Qed.

Lemma inject_nat_pos n : 0 < n -> (0 < inject_Z (Z.of_nat n))%Q.
Proof. intros Hn. rewrite <- (Zlt_Qlt 0). lia. Qed.

Lemma Qsum_repeat_uniform n :
  0 < n ->
  (Qsum (repeat (1 / inject_Z (Z.of_nat n)) n) == 1)%Q.
Proof.
  intros Hn. rewrite Qsum_repeat. field.
  pose proof (inject_nat_pos n Hn). lra.
Qed.

Lemma inv_count_nonneg n : (0 <= 1 / inject_Z (Z.of_nat n))%Q.
Proof.
  destruct n as [| n].
  - change (inject_Z (Z.of_nat 0)) with 0%Q. unfold Qdiv, Qinv, Qle. simpl. lia.
  - apply Qle_shift_div_l; [apply inject_nat_pos; lia | lra].
Qed.

Section Weights.
Context `{NumpyRandom} `{NeighborSearch} `{!Booster} `{Int64Cast}.
Import SMOTEBoost.

(** Contract of the boosting step used for the sums: given weights that are
    not negative, it returns weights that are not negative (the data model's
    invariant on weights). *)
Definition booster_keeps_nonnegative : Prop :=
  forall i X0 y0 w env w' a e env',
    Forall (fun x => 0 <= x)%Q w ->
    _boost i X0 y0 w env = (inr (Some w', a, e), env') ->
    Forall (fun x => 0 <= x)%Q w'.

(** The weights at the head of a round: none negative, and a positive
    sum. *)
Definition weights_ok (l : Locals) : Prop :=
  Forall (fun x => 0 <= x)%Q (sample_weight l) /\ (0 < Qsum (sample_weight l))%Q.

Lemma merged_weights_ok l n :
  weights_ok l ->
  Forall (fun x => 0 <= x)%Q (merged_weights l n) /\
  (0 < l1_norm (merged_weights l n))%Q.
Proof.
  intros (Hnn & Hpos).
  assert (Hall : Forall (fun x => 0 <= x)%Q (merged_weights l n)).
  { unfold merged_weights. apply Forall_app. split; [exact Hnn |].
    apply Forall_forall. intros x Hx.
    apply list_elem_of_In, repeat_spec in Hx. subst x. apply inv_count_nonneg. }
  split; [exact Hall |].
  rewrite (l1_norm_nonneg _ Hall). unfold merged_weights. rewrite Qsum_app.
  assert (0 <= Qsum (repeat (1 / inject_Z (Z.of_nat (length (X l)))) n))%Q.
  { apply Qsum_nonneg. apply Forall_forall. intros x Hx.
    apply list_elem_of_In, repeat_spec in Hx. subst x. apply inv_count_nonneg. }
  lra.
Qed.

Lemma merge_weights_sum l X_syn h l1 h1 :
  weights_ok l ->
  merge l X_syn h = (Ok l1, h1) ->
  sample_weight l1 =
    map (fun x => x / l1_norm (merged_weights l (length X_syn)))%Q
        (merged_weights l (length X_syn)) /\
  Forall (fun x => 0 <= x)%Q (sample_weight l1) /\
  (Qsum (sample_weight l1) == 1)%Q.
Proof.
  intros Hok Hm.
  apply merge_Ok in Hm as (_ & m & _ & _ & _ & _ & _ & Hw).
  destruct (merged_weights_ok l (length X_syn) Hok) as (Hall & Hpos).
  assert (Hne : Qeq_bool (l1_norm (merged_weights l (length X_syn))) 0 = false).
  { destruct (Qeq_bool _ 0) eqn:E; [| reflexivity].
    apply Qeq_bool_iff in E. lra. }
  rewrite Hne in Hw. rewrite Hw.
  split; [reflexivity |]. split.
  - apply Forall_nonneg_div; assumption.
  - apply Qsum_normalized; [exact Hpos |]. symmetry. apply l1_norm_nonneg, Hall.
Qed.

Lemma after_boost_Continue_weights i l n w e l' :
  Forall (fun x => 0 <= x)%Q w ->
  after_boost i l n w e = Continue l' ->
  weights_ok l' /\ (i < n - 1 -> (Qsum (sample_weight l') == 1)%Q).
Proof.
  intros Hnn. unfold after_boost.
  destruct (Qeq_bool e 0); [discriminate |].
  destruct (Qle_bool (Qsum w) 0) eqn:Hle; [discriminate |].
  assert (Hpos : (0 < Qsum w)%Q).
  { destruct (Qlt_le_dec 0 (Qsum w)) as [Hlt | Hle']; [exact Hlt |].
    apply Qle_bool_iff in Hle'. congruence. }
  destruct (i <? n - 1)%nat eqn:Hi; intros Heq; injection Heq as <-; simpl.
  - assert (Hs : (Qsum (map (fun x => x / Qsum w)%Q w) == 1)%Q).
    { apply Qsum_normalized; [exact Hpos | reflexivity]. }
    split; [split |].
    + apply Forall_nonneg_div; assumption.
    + rewrite Hs. lra.
    + intros _. exact Hs.
  - split; [split; assumption |]. intros Hlt.
    apply Nat.ltb_ge in Hi. lia.
Qed.

(** C6: in every round of a run of [fit], the weights that go to the
    boosting step are the weights of the round's head, followed by one
    weight [1 / N_current] for each of the [n_samples] synthetic rows,
    [N_current] being the number of rows before the merge, all divided by
    their L1 norm; their sum is 1 (in the exact arithmetic of the model, so
    within any tolerance).  When the round goes on to the next and is not the
    last one allowed, the weights handed on sum to 1 again.  The boosting
    step is taken to return no negative weight when given none. *)
Theorem fit_weights_normalized dt X0 y0 sw mt h l0 h0 :
  booster_keeps_nonnegative ->
  fit_init dt X0 y0 sw mt h = (Ok l0, h0) ->
  forall i l hi,
    rounds 0 i l0 h0 = Some (l, hi) ->
    (forall l1 h1,
       augment l hi = (Ok l1, h1) ->
       let w := sample_weight l ++
                repeat (1 / inject_Z (Z.of_nat (length (X l))))%Q
                       (n_samples (self h)) in
       sample_weight l1 = map (fun x => x / l1_norm w)%Q w /\
       (Qsum (sample_weight l1) == 1)%Q /\
       (Qabs (Qsum (sample_weight l1) - 1) <= 1 # 1000000000)%Q) /\
    (forall l' h',
       iteration i l hi = (Ok (Continue l'), h') ->
       i < n_estimators (self h) - 1 ->
       (Qsum (sample_weight l') == 1)%Q /\
       (Qabs (Qsum (sample_weight l') - 1) <= 1 # 1000000000)%Q).
Proof.
  intros Hkeep Hinit.
  pose proof (fit_init_Ok _ _ _ _ _ _ _ _ Hinit)
    as (_ & HN & _ & Hl0 & _ & Hcfg0 & _).
  assert (Htol : forall q, (q == 1)%Q -> (Qabs (q - 1) <= 1 # 1000000000)%Q).
  { intros q Hq. rewrite Hq. unfold Qminus. rewrite Qplus_opp_r.
    unfold Qabs, Qle. simpl. lia. }
  set (P := fun (i : nat) (l : Locals) (hi : Heap) => weights_ok l).
  assert (Hstep : forall i l hi l' h',
             P i l hi -> iteration i l hi = (Ok (Continue l'), h') ->
             P (S i) l' h' /\
             (i < n_estimators (self h') - 1 -> (Qsum (sample_weight l') == 1)%Q)).
  { intros i l hi l' h' HP Hit.
    apply iteration_Continue in Hit
      as (X_syn & h1 & l1 & w & a & e & h2 & Hs & Hm & Hb & Hrec & Hab).
    destruct (merge_weights_sum _ _ _ _ _ HP Hm) as (_ & Hnn1 & _).
    apply boost_Ok in Hb as (ests & env' & _ & Hb).
    apply (Hkeep _ _ _ _ _ _ _ _ _ Hnn1) in Hb.
    apply (after_boost_Continue_weights _ _ _ _ _ _ Hb Hab). }
  assert (HP0 : P 0 l0 h0).
  { subst P. cbv beta. rewrite Hl0. split; simpl.
    - apply Forall_forall. intros x Hx.
      apply list_elem_of_In, repeat_spec in Hx. subst x. apply inv_count_nonneg.
    - rewrite Qsum_repeat_uniform by exact HN. lra. }
  intros i l hi Hr.
  assert (HP : P (0 + i) l hi).
  { eapply (rounds_invariant P); [| exact HP0 | exact Hr].
    intros. eapply Hstep; eauto. }
  pose proof (rounds_config _ _ _ _ _ _ Hr) as Hcfg.
  split.
  - intros l1 h1 Ha.
    apply augment_Ok in Ha as (X_syn & Hs & Hm).
    pose proof (smote_step_length _ _ _ _ Hs) as Hlen.
    destruct (merge_weights_sum _ _ _ _ _ HP Hm) as (Hw & _ & Hsum).
    assert (Hn : length X_syn = n_samples (self h)).
    { destruct Hcfg as (E & _). destruct Hcfg0 as (E0 & _). congruence. }
    rewrite Hn in Hw. split; [exact Hw |]. split; [exact Hsum | apply Htol, Hsum].
  - intros l' h' Hit Hi.
    pose proof (iteration_config _ _ _ _ _ Hit) as (_ & E & _).
    destruct (Hstep _ _ _ _ _ HP Hit) as (_ & Hsum).
    assert (Hsum' : (Qsum (sample_weight l') == 1)%Q).
    { apply Hsum. destruct Hcfg as (_ & E1 & _). destruct Hcfg0 as (_ & E0 & _).
      rewrite E, E1, E0. exact Hi. }
    split; [exact Hsum' | apply Htol, Hsum'].
Qed.

End Weights.

(** ** The slots of the ensemble *)

Lemma lookup_repeat {A} (x : A) n i : i < n -> repeat x n !! i = Some x.
Proof.
  revert i. induction n as [| n IH]; intros [| i] Hi; simpl; try lia; auto.
  apply IH. lia.
Qed.

Section Slots.
Context `{NumpyRandom} `{NeighborSearch} `{!Booster} `{Int64Cast}.
Import SMOTEBoost.

(** The slots from [i] on hold their defaults: weight 0 and error 1. *)
Definition slots_default_from (i n : nat) (s : t) : Prop :=
  exists ws es,
    estimator_weights_ s = Some ws /\ estimator_errors_ s = Some es /\
    length ws = n /\ length es = n /\
    forall j, i <= j -> j < n -> ws !! j = Some 0%Q /\ es !! j = Some 1%Q.

Lemma record_inv i a e h u h' :
  record i a e h = (Ok u, h') ->
  exists ws es,
    estimator_weights_ (self h) = Some ws /\ estimator_errors_ (self h) = Some es /\
    i < length ws /\ i < length es /\ h' = with_self (recorded i a e) h.
Proof.
  intros Hrec.
  destruct (estimator_weights_ (self h)) as [ws |] eqn:Hws.
  2: { unfold record, get_self, bind, attr in Hrec. simpl in Hrec.
       rewrite Hws in Hrec. discriminate. }
  destruct (estimator_errors_ (self h)) as [es |] eqn:Hes.
  2: { revert Hrec. destruct h as [s p r b]. destruct s. simpl in *. subst.
       unfold record, get_self, bind, attr, modify, with_self. simpl.
       destruct (i <? length ws)%nat; discriminate. }
  destruct (Nat.lt_ge_cases i (length ws)) as [Hi | Hi].
  2: { revert Hrec. destruct h as [s p r b]. destruct s. simpl in *. subst.
       unfold record, get_self, bind, attr, modify, with_self. simpl.
       apply Nat.ltb_ge in Hi. rewrite Hi. discriminate. }
  destruct (Nat.lt_ge_cases i (length es)) as [Hi' | Hi'].
  2: { revert Hrec. destruct h as [s p r b]. destruct s. simpl in *. subst.
       unfold record, get_self, bind, attr, modify, with_self. simpl.
       apply Nat.ltb_lt in Hi. rewrite Hi. simpl.
       apply Nat.ltb_ge in Hi'. rewrite Hi'. discriminate. }
  rewrite (record_Ok _ _ _ _ _ _ Hws Hes Hi Hi') in Hrec.
  injection Hrec as _ <-. exists ws, es. auto.
Qed.

Lemma recorded_slots i a e n s :
  slots_default_from i n s -> i < n ->
  exists ws es,
    estimator_weights_ (recorded i a e s) = Some ws /\
    estimator_errors_ (recorded i a e s) = Some es /\
    length ws = n /\ length es = n /\
    ws !! i = Some a /\ es !! i = Some e /\
    forall j, S i <= j -> j < n -> ws !! j = Some 0%Q /\ es !! j = Some 1%Q.
Proof.
  intros (ws & es & Hws & Hes & Hlw & Hle & Hdef) Hi.
  unfold recorded. rewrite Hws, Hes. simpl.
  exists (<[i := a]> ws), (<[i := e]> es).
  rewrite !length_insert.
  split; [reflexivity |]. split; [reflexivity |].
  split; [exact Hlw |]. split; [exact Hle |].
  split; [apply list_lookup_insert_eq; lia |].
  split; [apply list_lookup_insert_eq; lia |].
  intros j Hj Hjn. rewrite !list_lookup_insert_ne by lia. apply Hdef; lia.
Qed.

Lemma slots_default_weaken i j n s :
  i <= j -> slots_default_from i n s -> slots_default_from j n s.
Proof.
  intros Hij (ws & es & Hws & Hes & Hlw & Hle & Hdef).
  exists ws, es. repeat split; try assumption; apply Hdef; lia.
Qed.

(** The slots not yet reached keep their defaults over the rounds. *)
Lemma iteration_slots i l h l' h' n :
  slots_default_from i n (self h) ->
  iteration i l h = (Ok (Continue l'), h') ->
  slots_default_from (S i) n (self h').
Proof.
  intros Hdef Hit.
  apply iteration_Continue in Hit
    as (X_syn & h1 & l1 & w & a & e & h2 & Hs & Hm & Hb & Hrec & Hab).
  pose proof (smote_step_frame _ _ _ _ Hs) as (_ & _ & Ew1 & Ee1 & _).
  pose proof (boost_frame _ _ _ _ _ Hb) as (_ & _ & Ew2 & Ee2).
  apply record_inv in Hrec as (ws & es & Hws & Hes & Hi & Hi' & ->).
  assert (Hdef2 : slots_default_from i n (self h2)).
  { destruct Hdef as (ws0 & es0 & Hws0 & Hes0 & Hrest).
    exists ws0, es0. split; [congruence |]. split; [congruence | exact Hrest]. }
  assert (Hin : i < n).
  { destruct Hdef2 as (ws0 & es0 & Hws0 & _ & Hlw & _). congruence. }
  destruct (recorded_slots i a e n _ Hdef2 Hin)
    as (ws' & es' & Hws' & Hes' & Hlw & Hle & _ & _ & Hrest).
  exists ws', es'. simpl. auto.
Qed.

Lemma fit_via_loop dt X0 y0 sw mt h l0 h0 :
  fit_init dt X0 y0 sw mt h = (Ok l0, h0) ->
  fit dt X0 y0 sw mt h =
  match boost_loop 0 (n_estimators (self h0)) l0 h0 with
  | (Ok _, hf) => (Ok tt, hf)
  | (Raise e, hf) => (Raise e, hf)
  end.
Proof.
  intros Hinit. unfold fit, fit_locals, bind. rewrite Hinit.
  unfold get_self.
  destruct (boost_loop 0 (n_estimators (self h0)) l0 h0) as [[r | e] hf];
    reflexivity.
Qed.

Lemma boost_loop_S i todo l h :
  boost_loop i (S todo) l h =
  match iteration i l h with
  | (Ok (Break X1 y1), h') => (Ok (X1, y1), h')
  | (Ok (Continue l'), h') => boost_loop (S i) todo l' h'
  | (Raise e, h') => (Raise e, h')
  end.
Proof.
  simpl. unfold bind at 1.
  destruct (iteration i l h) as [[[X1 y1 | l'] | e] h']; reflexivity.
Qed.

Lemma iteration_eq i l h l1 h1 :
  augment l h = (Ok l1, h1) -> iteration i l h = boost_step i l1 h1.
Proof. intros Ha. unfold iteration. apply bind_eq_Ok. exact Ha. Qed.

(** C7: take a run of [fit] in which round [i] is reached and its boosting
    call returns.  If the call returns weights with an error equal to 0,
    [fit] ends without an exception, slot [i] holds the learner weight and
    the error that were returned, and every later slot holds weight 0 and
    error 1.  If the call returns the stop signal instead, [fit] ends
    without an exception and slot [i] and every later slot hold weight 0
    and error 1. *)
Theorem fit_early_stop dt X0 y0 sw mt h l0 h0 i l hi l1 h1 ow a e h2 :
  fit_init dt X0 y0 sw mt h = (Ok l0, h0) ->
  i < n_estimators (self h) ->
  rounds 0 i l0 h0 = Some (l, hi) ->
  augment l hi = (Ok l1, h1) ->
  boost i l1 h1 = (Ok (ow, a, e), h2) ->
  (forall w, ow = Some w -> (e == 0)%Q ->
     exists hf ws es,
       fit dt X0 y0 sw mt h = (Ok tt, hf) /\
       estimator_weights_ (self hf) = Some ws /\
       estimator_errors_ (self hf) = Some es /\
       ws !! i = Some a /\ es !! i = Some e /\
       forall j, i < j -> j < n_estimators (self h) ->
                 ws !! j = Some 0%Q /\ es !! j = Some 1%Q) /\
  (ow = None ->
     exists hf ws es,
       fit dt X0 y0 sw mt h = (Ok tt, hf) /\
       estimator_weights_ (self hf) = Some ws /\
       estimator_errors_ (self hf) = Some es /\
       forall j, i <= j -> j < n_estimators (self h) ->
                 ws !! j = Some 0%Q /\ es !! j = Some 1%Q).
Proof.
  intros Hinit Hi Hr Ha Hb.
  pose proof (fit_init_Ok _ _ _ _ _ _ _ _ Hinit)
    as (_ & _ & _ & _ & _ & Hcfg0 & _ & _ & Hws0 & Hes0).
  set (n := n_estimators (self h)) in *.
  assert (Hn0 : n_estimators (self h0) = n) by (destruct Hcfg0 as (_ & E & _); exact E).
  assert (HP0 : slots_default_from 0 n (self h0)).
  { exists (repeat 0%Q n), (repeat 1%Q n). rewrite !repeat_length.
    repeat split; try assumption; apply lookup_repeat; assumption. }
  assert (HPi : slots_default_from (0 + i) n (self hi)).
  { eapply (rounds_invariant (fun i _ h => slots_default_from i n (self h)));
      [| exact HP0 | exact Hr].
    intros. eapply iteration_slots; eauto. }
  simpl in HPi.
  assert (HP2 : slots_default_from i n (self h2)).
  { apply augment_Ok in Ha as (X_syn & Hs & _).
    pose proof (smote_step_frame _ _ _ _ Hs) as (_ & _ & Ew1 & Ee1 & _).
    pose proof (boost_frame _ _ _ _ _ Hb) as (_ & _ & Ew2 & Ee2).
    destruct HPi as (ws & es & Hws & Hes & Hrest).
    exists ws, es. split; [congruence |]. split; [congruence | exact Hrest]. }
  assert (Hfit : forall r hf,
             boost_step i l1 h1 = (Ok (Break r.1 r.2), hf) ->
             fit dt X0 y0 sw mt h = (Ok tt, hf)).
  { intros r hf Hbs. rewrite (fit_via_loop _ _ _ _ _ _ _ _ Hinit), Hn0.
    replace n with (i + S (n - i - 1)) by lia.
    rewrite (rounds_boost_loop _ _ _ _ _ _ (S (n - i - 1)) Hr).
    change (0 + i) with i.
    rewrite boost_loop_S, (iteration_eq _ _ _ _ _ Ha), Hbs. destruct r; reflexivity. }
  split.
  - intros w -> He.
    destruct HP2 as (ws & es & Hws & Hes & Hlw & Hle & Hdef).
    assert (Hrec : record i a e h2 = (Ok tt, with_self (recorded i a e) h2)).
    { apply (record_Ok _ _ _ _ ws es); congruence || lia. }
    assert (Hbs : boost_step i l1 h1 =
                  (Ok (Break (X l1) (y l1)), with_self (recorded i a e) h2)).
    { rewrite boost_step_unfold, Hb, Hrec. unfold after_boost.
      apply Qeq_bool_iff in He. rewrite He. reflexivity. }
    destruct (recorded_slots i a e n (self h2))
      as (ws' & es' & Hws' & Hes' & _ & _ & Hwi & Hei & Hrest).
    { exists ws, es. auto. }
    { exact Hi. }
    exists (with_self (recorded i a e) h2), ws', es'.
    split; [apply (Hfit (X l1, y l1)); exact Hbs |].
    simpl. repeat split; try assumption; apply Hrest; lia.
  - intros ->.
    assert (Hbs : boost_step i l1 h1 = (Ok (Break (X l1) (y l1)), h2)).
    { rewrite boost_step_unfold, Hb. reflexivity. }
    destruct HP2 as (ws & es & Hws & Hes & Hlw & Hle & Hdef).
    exists h2, ws, es.
    split; [apply (Hfit (X l1, y l1)); exact Hbs |].
    repeat split; try assumption; apply Hdef; assumption.
Qed.

End Slots.

(** ** The random stream of [SMOTE.sample] *)

Section Stream.
Context `{NumpyRandom} `{NeighborSearch}.

(** [stream_only m]: the result of [m] and the stream it leaves depend on
    the process only through the state of the stream. *)
Definition stream_only {A} (m : M Process A) : Prop :=
  forall p p', np_random p = np_random p' ->
    fst (m p) = fst (m p') /\ np_random (snd (m p)) = np_random (snd (m p')).

Lemma stream_only_bind {A B} (m : M Process A) (f : A -> M Process B) :
  stream_only m -> (forall a, stream_only (f a)) -> stream_only (bind m f).
Proof.
  intros Hm Hf p p' Hp. unfold bind.
  destruct (Hm p p' Hp) as [Ho Hs].
  destruct (m p) as [[a | e] p1], (m p') as [[a' | e'] p1']; simpl in *;
    try discriminate.
  - injection Ho as <-. apply Hf. exact Hs.
  - injection Ho as <-. auto.
Qed.

Lemma stream_only_pure {A} (m : M Process A) :
  (forall p, m p = (fst (m p), p)) -> (forall p p', fst (m p) = fst (m p')) ->
  stream_only m.
Proof.
  intros Hpure Hconst p p' Hp. rewrite (Hpure p), (Hpure p'). simpl.
  split; [apply Hconst | exact Hp].
Qed.

Lemma stream_only_ret {A} (a : A) : stream_only (ret a).
Proof. intros p p' Hp. simpl. auto. Qed.

Lemma stream_only_attr {A} name (a : option A) : stream_only (attr name a).
Proof. destruct a; intros p p' Hp; simpl; auto. Qed.

Lemma stream_only_pure_outcome {A} (o : outcome A) : stream_only (pure_outcome o).
Proof. intros p p' Hp. simpl. auto. Qed.

Lemma stream_only_np_index X0 j : stream_only (np_index X0 j).
Proof.
  unfold np_index. intros p p' Hp.
  destruct ((0 <=? _) && _)%Z; simpl; auto.
Qed.

Lemma stream_only_randint lo hi : stream_only (np_random_randint lo hi).
Proof.
  intros p p' Hp. unfold np_random_randint. rewrite Hp.
  destruct (lo <? hi)%Z; [| simpl; auto].
  destruct (randint lo hi (np_random p')); simpl. auto.
Qed.

Lemma stream_only_choice a : stream_only (np_random_choice a).
Proof.
  intros p p' Hp. unfold np_random_choice. rewrite Hp.
  destruct a; [simpl; auto |].
  destruct (choice _ (np_random p')); simpl. auto.
Qed.

Lemma stream_only_random : stream_only np_random_random.
Proof.
  intros p p' Hp. unfold np_random_random. rewrite Hp.
  destruct (random_sample (np_random p')); simpl. auto.
Qed.

Lemma stream_only_sample_row sm : stream_only (SMOTE.sample_row sm).
Proof.
  unfold SMOTE.sample_row.
  repeat first
    [ apply stream_only_bind; [| intros]
    | apply stream_only_ret | apply stream_only_attr
    | apply stream_only_pure_outcome | apply stream_only_np_index
    | apply stream_only_randint | apply stream_only_choice
    | apply stream_only_random ].
Qed.

Lemma stream_only_sample_rows sm n : stream_only (SMOTE.sample_rows sm n).
Proof.
  induction n as [| n IH]; simpl.
  - apply stream_only_ret.
  - apply stream_only_bind; [apply stream_only_sample_row | intros r].
    apply stream_only_bind; [exact IH | intros rest]. apply stream_only_ret.
Qed.

(** With an integer seed, [np.random.seed] puts the stream in a state that
    owes nothing to the state it was in. *)
Lemma np_random_seed_restarts s p p' :
  fst (np_random_seed (Some s) p) = fst (np_random_seed (Some s) p') /\
  (fst (np_random_seed (Some s) p) = Ok tt ->
   np_random (snd (np_random_seed (Some s) p)) = seed_int s /\
   np_random (snd (np_random_seed (Some s) p')) = seed_int s).
Proof.
  unfold np_random_seed.
  destruct ((0 <=? s) && (s <? 2 ^ 32))%Z; simpl; [auto |].
  split; [reflexivity | discriminate].
Qed.

(** The calls that a computation makes on the stream when it succeeds. *)
Definition draws {A} (d : list draw) (m : M Process A) : Prop :=
  forall p a p', m p = (Ok a, p') -> drawn p' = drawn p ++ d.

Lemma draws_bind {A B} d1 d2 (m : M Process A) (f : A -> M Process B) :
  draws d1 m -> (forall a, draws d2 (f a)) -> draws (d1 ++ d2) (bind m f).
Proof.
  intros Hm Hf p b p' Hb. apply bind_Ok in Hb as (a & p1 & Ha & Hb).
  rewrite (Hf _ _ _ _ Hb), (Hm _ _ _ Ha), app_assoc. reflexivity.
Qed.

Lemma draws_none {A} (m : M Process A) :
  (forall p a p', m p = (Ok a, p') -> p' = p) -> draws [] m.
Proof. intros Hm p a p' Ha. rewrite (Hm _ _ _ Ha), app_nil_r. reflexivity. Qed.

Lemma draws_ret {A} (a : A) : draws [] (ret a).
Proof. apply draws_none. intros p a' p' Heq. injection Heq as _ <-. reflexivity. Qed.

Lemma draws_attr {A} name (a : option A) : draws [] (attr name a).
Proof.
  apply draws_none. intros p a' p' Heq.
  destruct a; [injection Heq as _ <-; reflexivity | discriminate].
Qed.

Lemma draws_pure_outcome {A} (o : outcome A) : draws [] (pure_outcome o).
Proof. apply draws_none. intros p a' p' Heq. injection Heq as _ <-. reflexivity. Qed.

Lemma draws_np_index X0 j : draws [] (np_index X0 j).
Proof.
  apply draws_none. intros p a' p' Heq. unfold np_index in Heq.
  destruct ((0 <=? _) && _)%Z; [injection Heq as _ <-; reflexivity | discriminate].
Qed.

Lemma draws_seed seed : draws [DSeed] (np_random_seed seed).
Proof.
  intros p a p' Heq. unfold np_random_seed in Heq.
  destruct seed as [s |].
  - destruct ((0 <=? s) && (s <? 2 ^ 32))%Z; [| discriminate].
    injection Heq as _ <-. reflexivity.
  - destruct (seed_os (os_entropy p)). injection Heq as _ <-. reflexivity.
Qed.

Lemma draws_randint lo hi : draws [DRandint] (np_random_randint lo hi).
Proof.
  intros p a p' Heq. unfold np_random_randint in Heq.
  destruct (lo <? hi)%Z; [| discriminate].
  destruct (randint lo hi (np_random p)). injection Heq as _ <-. reflexivity.
Qed.

Lemma draws_choice a : draws [DChoice] (np_random_choice a).
Proof.
  intros p x p' Heq. unfold np_random_choice in Heq.
  destruct a; [discriminate |].
  destruct (choice _ (np_random p)). injection Heq as _ <-. reflexivity.
Qed.

Lemma draws_random : draws [DRandom] np_random_random.
Proof.
  intros p x p' Heq. unfold np_random_random in Heq.
  destruct (random_sample (np_random p)). injection Heq as _ <-. reflexivity.
Qed.

(** One round draws the base index, then (after the neighbour query, which
    draws nothing) the neighbour, then the gap. *)
Lemma draws_sample_row sm :
  draws [DRandint; DChoice; DRandom] (SMOTE.sample_row sm).
Proof.
  unfold SMOTE.sample_row.
  change [DRandint; DChoice; DRandom]
    with ([] ++ [] ++ [DRandint] ++ [] ++ [] ++ [] ++ [DChoice] ++ [] ++
          [DRandom] ++ []).
  repeat first
    [ apply draws_bind; [| intros]
    | apply draws_ret | apply draws_attr | apply draws_pure_outcome
    | apply draws_np_index | apply draws_randint | apply draws_choice
    | apply draws_random ].
Qed.

Lemma draws_sample_rows sm n :
  draws (concat (repeat [DRandint; DChoice; DRandom] n)) (SMOTE.sample_rows sm n).
Proof.
  induction n as [| n IH].
  - apply draws_ret.
  - change (concat (repeat [DRandint; DChoice; DRandom] (S n)))
      with ([DRandint; DChoice; DRandom] ++
            concat (repeat [DRandint; DChoice; DRandom] n)).
    simpl SMOTE.sample_rows.
    apply draws_bind; [apply draws_sample_row | intros r].
    rewrite <- (app_nil_r (concat _)).
    apply draws_bind; [exact IH | intros rest]. apply draws_ret.
Qed.

Lemma sample_unfold sm n p :
  SMOTE.sample sm n p =
  match np_random_seed (SMOTE.random_state sm) p with
  | (Ok _, p1) =>
      (attr "n_features" (SMOTE.n_features sm) ;; SMOTE.sample_rows sm n)%monad p1
  | (Raise e, p1) => (Raise e, p1)
  end.
Proof.
  unfold SMOTE.sample, bind at 1.
  destruct (np_random_seed (SMOTE.random_state sm) p) as [[[] | e] p1]; reflexivity.
Qed.

(** C1, as the code has it: every call of [sample] seeds the process-wide
    stream afresh from [random_state] before its first draw (the constructor
    does not touch the stream).  With an integer [random_state], the result
    of a call and the state in which it leaves the stream are the same
    whatever state the stream was in, so two calls in a row on the same
    fitted sampler return the same rows.  In a call that succeeds, the calls
    on the stream are the seeding, and then for each row in turn the draw of
    the base index, of the neighbour and of the gap. *)
Theorem sample_reseeds sm n :
  (forall s p p',
     SMOTE.random_state sm = Some s ->
     fst (SMOTE.sample sm n p) = fst (SMOTE.sample sm n p') /\
     (forall S, fst (SMOTE.sample sm n p) = Ok S ->
        np_random (snd (SMOTE.sample sm n p)) =
        np_random (snd (SMOTE.sample sm n p')))) /\
  (forall s p o1 p1 o2 p2,
     SMOTE.random_state sm = Some s ->
     SMOTE.sample sm n p = (o1, p1) -> SMOTE.sample sm n p1 = (o2, p2) ->
     o1 = o2) /\
  (forall p S p',
     SMOTE.sample sm n p = (Ok S, p') ->
     drawn p' =
       drawn p ++ DSeed :: concat (repeat [DRandint; DChoice; DRandom] n)).
Proof.
  assert (Hsame : forall s p p',
             SMOTE.random_state sm = Some s ->
             fst (SMOTE.sample sm n p) = fst (SMOTE.sample sm n p') /\
             (forall S, fst (SMOTE.sample sm n p) = Ok S ->
                np_random (snd (SMOTE.sample sm n p)) =
                np_random (snd (SMOTE.sample sm n p')))).
  { intros s p p' Hs. rewrite !sample_unfold, Hs.
    destruct (np_random_seed_restarts s p p') as [Ho Hg].
    destruct (np_random_seed (Some s) p) as [[[] | e] p1],
             (np_random_seed (Some s) p') as [[[] | e'] p1'];
      simpl in Ho, Hg; try discriminate.
    - destruct (Hg eq_refl) as [Hg1 Hg2].
      assert (Hp : np_random p1 = np_random p1') by congruence.
      destruct (stream_only_bind
                  (attr "n_features" (SMOTE.n_features sm))
                  (fun _ => SMOTE.sample_rows sm n)
                  (stream_only_attr _ _)
                  (fun _ => stream_only_sample_rows sm n) p1 p1' Hp) as [Ho' Hs'].
      split; [exact Ho' | intros _ _; exact Hs'].
    - simpl. injection Ho as <-. split; [reflexivity | discriminate]. }
  split; [exact Hsame | split].
  - intros s p o1 p1 o2 p2 Hs H1 H2.
    destruct (Hsame s p p1 Hs) as [Ho _]. rewrite H1, H2 in Ho. exact Ho.
  - intros p S p' Hs. unfold SMOTE.sample in Hs.
    change (DSeed :: concat (repeat [DRandint; DChoice; DRandom] n))
      with ([DSeed] ++ [] ++ concat (repeat [DRandint; DChoice; DRandom] n)).
    revert Hs. apply draws_bind; [apply draws_seed | intros _].
    apply draws_bind; [apply draws_attr | intros _]. apply draws_sample_rows.
Qed.

End Stream.

(** ** Fitting the sampler *)

(** The sampler after a successful [fit(X0)]. *)
Definition fitted (sm : SMOTE.t) (d : dtype) (X0 : matrix) : SMOTE.t :=
  {| SMOTE.k := SMOTE.k sm;
     SMOTE.random_state := SMOTE.random_state sm;
     SMOTE.X := Some X0;
     SMOTE.X_dtype := Some d;
     SMOTE.n_minority_samples := Some (length X0);
     SMOTE.n_features := Some (n_cols X0);
     SMOTE.neigh :=
       Some {| NearestNeighbors.n_neighbors := SMOTE.k sm + 1;
               NearestNeighbors._fit_X := Some X0 |} |}.

(** A seed that [np.random.seed] accepts. *)
Definition seed_ok (seed : option Z) : Prop :=
  match seed with
  | None => True
  | Some s => (0 <= s < 2 ^ 32)%Z
  end.

Lemma smote_fit_Ok sm d X0 :
  0 < length X0 -> 0 < n_cols X0 -> SMOTE.fit d X0 sm = (Ok tt, fitted sm d X0).
Proof.
  intros Hr Hc. unfold SMOTE.fit, NearestNeighbors.fit, fitted.
  destruct X0 as [| r X0]; simpl in *; [lia |].
  destruct (length r =? 0)%nat eqn:E; [apply Nat.eqb_eq in E; lia |].
  reflexivity.
Qed.

Lemma smote_fit_inv sm d X0 u sm' :
  SMOTE.fit d X0 sm = (Ok u, sm') ->
  0 < length X0 /\ 0 < n_cols X0 /\ sm' = fitted sm d X0.
Proof.
  intros Hfit.
  destruct X0 as [| r X0]; [discriminate |].
  unfold SMOTE.fit, NearestNeighbors.fit in Hfit. simpl in Hfit.
  destruct (length r =? 0)%nat eqn:E; [discriminate |].
  apply Nat.eqb_neq in E. injection Hfit as _ <-.
  simpl. repeat split; try lia.
Qed.

Section Neighbours.
Context `{NumpyRandom} `{NeighborSearch}.

Lemma np_random_seed_ok seed p :
  seed_ok seed -> exists p', np_random_seed seed p = (Ok tt, p').
Proof.
  unfold np_random_seed. destruct seed as [s |]; simpl; intros Hs.
  - assert (((0 <=? s) && (s <? 2 ^ 32))%Z = true) as ->.
    { apply andb_true_iff. split; [apply Z.leb_le | apply Z.ltb_lt]; lia. }
    eauto.
  - destruct (seed_os (os_entropy p)). eauto.
Qed.

(** The first round of [sample] on too small a set fails at the neighbour
    query. *)
Lemma sample_row_too_few sm d X0 p :
  0 < length X0 -> length X0 < SMOTE.k sm + 1 ->
  exists p',
    SMOTE.sample_row (fitted sm d X0) p =
    (Raise (ValueError "Expected n_neighbors <= n_samples"), p').
Proof.
  intros Hpos Hfew. unfold SMOTE.sample_row. simpl.
  unfold bind at 1. simpl.
  unfold bind at 1. simpl.
  unfold bind at 1. unfold np_random_randint.
  assert ((0 <? Z.of_nat (n_rows X0))%Z = true) as ->.
  { apply Z.ltb_lt. unfold n_rows. lia. }
  pose proof (randint_range 0 (Z.of_nat (n_rows X0)) (np_random p)) as Hj.
  destruct (randint 0 (Z.of_nat (n_rows X0)) (np_random p)) as [j g] eqn:Hr.
  simpl in Hj. unfold n_rows in Hj.
  assert (Hj' : (0 <= j < Z.of_nat (length X0))%Z) by (apply Hj; lia).
  unfold bind at 1, np_index.
  assert ((j <? 0)%Z = false) as -> by (apply Z.ltb_ge; lia).
  assert (((0 <=? j) && (j <? Z.of_nat (length X0)))%Z = true) as ->.
  { apply andb_true_iff. split; [apply Z.leb_le | apply Z.ltb_lt]; lia. }
  simpl. unfold bind at 1. simpl.
  unfold bind at 1, pure_outcome, NearestNeighbors.kneighbors. simpl.
  assert ((SMOTE.k sm + 1 <=? length X0)%nat = false) as ->.
  { apply Nat.leb_gt. lia. }
  eauto.
Qed.

End Neighbours.

Section TooFew.
Context `{NumpyRandom} `{NeighborSearch} `{!Booster} `{Int64Cast}.
Import SMOTEBoost.

Lemma sample_too_few sm d X0 n p :
  0 < length X0 -> length X0 < SMOTE.k sm + 1 ->
  seed_ok (SMOTE.random_state sm) ->
  exists p',
    SMOTE.sample (fitted sm d X0) (S n) p =
    (Raise (ValueError "Expected n_neighbors <= n_samples"), p').
Proof.
  intros Hpos Hfew Hseed. rewrite sample_unfold.
  destruct (np_random_seed_ok _ p Hseed) as (p1 & Hp1).
  change (SMOTE.random_state (fitted sm d X0)) with (SMOTE.random_state sm).
  rewrite Hp1.
  destruct (sample_row_too_few sm d X0 p1 Hpos Hfew) as (p2 & Hp2).
  exists p2. unfold bind at 1. simpl. unfold bind at 1. rewrite Hp2. reflexivity.
Qed.

Lemma smote_step_too_few l hi m :
  minority_target (self hi) = Some m ->
  0 < length (minority_rows (X l) (y l) m) ->
  0 < n_cols (minority_rows (X l) (y l) m) ->
  length (minority_rows (X l) (y l) m) < SMOTE.k (smote (self hi)) + 1 ->
  0 < n_samples (self hi) ->
  seed_ok (SMOTE.random_state (smote (self hi))) ->
  exists h1,
    smote_step l hi =
    (Raise (ValueError "Expected n_neighbors <= n_samples"), h1).
Proof.
  intros Hmt Hpos Hcols Hfew Hn Hseed.
  unfold smote_step, get_self, on_smote, on_process, zoom.
  unfold bind at 1. cbn beta iota. rewrite Hmt.
  unfold bind at 1. cbn beta iota. unfold attr, ret at 1.
  unfold bind at 1.
  rewrite (smote_fit_Ok _ _ _ Hpos Hcols).
  unfold bind at 1. cbn beta iota.
  destruct (n_samples (self hi)) as [| n] eqn:En; [lia |].
  destruct (sample_too_few (smote (self hi)) (X_dtype l) _ n (process hi) Hpos Hfew Hseed)
    as (p' & Hp').
  destruct hi as [s p r b]. destruct s. simpl in *. subst.
  rewrite Hp'. eauto.
Qed.

Lemma iteration_smote_Raise i l h e h1 :
  smote_step l h = (Raise e, h1) -> iteration i l h = (Raise e, h1).
Proof.
  intros Hs. unfold iteration, augment.
  apply bind_eq_Raise, bind_eq_Raise. exact Hs.
Qed.

(** C3, as the code has it: [SMOTE.fit] compares nothing with [k].  It
    succeeds on every set that has a row and a column, sets of 1 to [k]
    points among them, and raises for the empty set.  On a set of 1 to [k]
    points the exception comes from [sample], at the neighbour query of its
    first round, when at least one row is asked for; when none is asked for
    there is no exception.  Inside [SMOTEBoost.fit], an exception of the
    SMOTE step of a round ends the call with that exception, no learner
    having been added and no slot written in that round; and the SMOTE step
    does raise when the minority rows are 1 to [k] and [n_samples] is
    positive. *)
Theorem smote_fit_no_size_check sm d X0 :
  (0 < length X0 -> 0 < n_cols X0 ->
   SMOTE.fit d X0 sm = (Ok tt, fitted sm d X0)) /\
  (X0 = [] ->
   exists sm',
     SMOTE.fit d X0 sm = (Raise (ValueError "Found array with 0 sample(s)"), sm')) /\
  (forall n p,
     0 < length X0 -> length X0 < SMOTE.k sm + 1 ->
     seed_ok (SMOTE.random_state sm) ->
     exists p',
       SMOTE.sample (fitted sm d X0) (S n) p =
       (Raise (ValueError "Expected n_neighbors <= n_samples"), p')) /\
  (forall p,
     seed_ok (SMOTE.random_state sm) ->
     exists p', SMOTE.sample (fitted sm d X0) 0 p = (Ok [], p')) /\
  (forall l hi m,
     minority_target (self hi) = Some m ->
     0 < length (minority_rows (X l) (y l) m) ->
     0 < n_cols (minority_rows (X l) (y l) m) ->
     length (minority_rows (X l) (y l) m) < SMOTE.k (smote (self hi)) + 1 ->
     0 < n_samples (self hi) ->
     seed_ok (SMOTE.random_state (smote (self hi))) ->
     exists h1,
       smote_step l hi =
       (Raise (ValueError "Expected n_neighbors <= n_samples"), h1)) /\
  (forall dt X1 y1 sw mt h l0 h0 i l hi e h1,
     fit_init dt X1 y1 sw mt h = (Ok l0, h0) ->
     i < n_estimators (self h) ->
     rounds 0 i l0 h0 = Some (l, hi) ->
     smote_step l hi = (Raise e, h1) ->
     fit dt X1 y1 sw mt h = (Raise e, h1) /\
     estimators_ (self h1) = estimators_ (self hi) /\
     estimator_weights_ (self h1) = estimator_weights_ (self hi) /\
     estimator_errors_ (self h1) = estimator_errors_ (self hi)).
Proof.
  split; [apply smote_fit_Ok |].
  split; [intros ->; eexists; reflexivity |].
  split; [intros n p; apply sample_too_few |].
  split.
  { intros p Hseed. rewrite sample_unfold.
    change (SMOTE.random_state (fitted sm d X0)) with (SMOTE.random_state sm).
    destruct (np_random_seed_ok _ p Hseed) as (p1 & ->). eexists. reflexivity. }
  split; [apply smote_step_too_few |].
  intros dt X1 y1 sw mt h l0 h0 i l hi e h1 Hinit Hi Hr Hs.
  pose proof (fit_init_Ok _ _ _ _ _ _ _ _ Hinit) as (_ & _ & _ & _ & _ & Hcfg0 & _).
  assert (Hn0 : n_estimators (self h0) = n_estimators (self h))
    by (destruct Hcfg0 as (_ & E & _); exact E).
  split.
  - rewrite (fit_via_loop _ _ _ _ _ _ _ _ Hinit), Hn0.
    replace (n_estimators (self h)) with (i + S (n_estimators (self h) - i - 1)) by lia.
    rewrite (rounds_boost_loop _ _ _ _ _ _ _ Hr).
    change (0 + i) with i.
    rewrite boost_loop_S, (iteration_smote_Raise _ _ _ _ _ Hs). reflexivity.
  - pose proof (smote_step_frame _ _ _ _ Hs) as (_ & E1 & E2 & E3 & _). auto.
Qed.

End TooFew.

(** ** Distances and rows *)

Lemma veq_refl a : veq a a.
Proof. unfold veq. induction a; constructor; [reflexivity | assumption]. Qed.

Lemma veq_length a b : veq a b -> length a = length b.
Proof. apply Forall2_length. Qed.

Lemma sqdist_nil_l b : sqdist [] b = 0%Q.
Proof. reflexivity. Qed.

Lemma sqdist_cons x a z b :
  sqdist (x :: a) (z :: b) = ((x - z) * (x - z) + sqdist a b)%Q.
Proof. reflexivity. Qed.

Lemma Qsquare_nonneg (t : Q) : (0 <= t * t)%Q.
Proof.
  destruct (Qlt_le_dec t 0).
  - setoid_replace (t * t)%Q with ((- t) * (- t))%Q using relation Qeq by ring.
    apply Qmult_le_0_compat; lra.
  - apply Qmult_le_0_compat; lra.
Qed.

Lemma sqdist_nonneg a b : (0 <= sqdist a b)%Q.
Proof.
  revert b. induction a as [| x a IH]; intros [| z b];
    try (unfold sqdist, vsub; simpl; rewrite ?Qsum_nil; lra).
  rewrite sqdist_cons. specialize (IH b).
  pose proof (Qsquare_nonneg (x - z)). lra.
Qed.

Lemma sqdist_self a : (sqdist a a == 0)%Q.
Proof.
  induction a as [| x a IH]; [reflexivity |].
  rewrite sqdist_cons, IH. ring.
Qed.

Lemma sqdist_zero a b :
  length a = length b -> (sqdist a b <= 0)%Q -> veq b a.
Proof.
  revert b. induction a as [| x a IH]; intros [| z b] Hlen Hd;
    try discriminate; [constructor |].
  rewrite sqdist_cons in Hd. injection Hlen as Hlen.
  pose proof (sqdist_nonneg a b) as Hnn.
  pose proof (Qsquare_nonneg (x - z)) as Hsq.
  constructor.
  - assert (Hz : ((x - z) * (x - z) == 0)%Q) by lra.
    apply Qmult_integral in Hz. lra.
  - apply IH; [exact Hlen | lra].
Qed.

Lemma veq_sym a b : veq a b -> veq b a.
Proof.
  unfold veq. induction 1; constructor; [symmetry; assumption | assumption].
Qed.

Lemma veq_trans a b c : veq a b -> veq b c -> veq a c.
Proof.
  unfold veq. intros Hab. revert c.
  induction Hab as [| x z a b Hxz Hab IH]; intros c Hbc; inversion Hbc; subst;
    constructor; [etransitivity; eassumption | apply IH; assumption].
Qed.

Lemma vadd_veq a u v : veq u v -> veq (vadd a u) (vadd a v).
Proof.
  unfold veq, vadd. intros Huv. revert a.
  induction Huv as [| x z u v Hxz Huv IH]; intros [| t a]; simpl; constructor.
  - rewrite Hxz. reflexivity.
  - apply IH.
Qed.

Lemma vscale_veq c u v : veq u v -> veq (vscale c u) (vscale c v).
Proof.
  unfold veq, vscale.
  induction 1 as [| x z u v Hxz Huv IH]; simpl; constructor; [| exact IH].
  rewrite Hxz. reflexivity.
Qed.

(** Truncation towards zero does not depend on how the rational number is
    written. *)
Lemma Qtrunc_Qeq (a b : Q) : (a == b)%Q -> Qtrunc a = Qtrunc b.
Proof.
  unfold Qeq, Qtrunc. destruct a as [an ad], b as [bn bd]. simpl. intros Heq.
  rewrite <- (Z.quot_mul_cancel_r an (Z.pos ad) (Z.pos bd)) by lia.
  rewrite <- (Z.quot_mul_cancel_r bn (Z.pos bd) (Z.pos ad)) by lia.
  rewrite Heq. f_equal. lia.
Qed.

Lemma sub_Qeq d a a' b : (a == a')%Q -> (sub d a b == sub d a' b)%Q.
Proof.
  intros Heq. destruct d as [| w | w]; simpl.
  - rewrite Heq. reflexivity.
  - rewrite (Qtrunc_Qeq _ _ Heq). reflexivity.
  - rewrite (Qtrunc_Qeq _ _ Heq). reflexivity.
Qed.

Lemma vsub_in_veq d xn xn' xj : veq xn' xn -> veq (vsub_in d xn xj) (vsub_in d xn' xj).
Proof.
  intros Hv. revert xj. unfold veq, vsub_in in *.
  induction Hv as [| z' z xn' xn Hz Hv IH]; intros [| x xj];
    try (simpl; constructor).
  - apply sub_Qeq. symmetry. exact Hz.
  - apply IH.
Qed.

Lemma vinterp_veq d xj xn xn' gap :
  veq xn' xn ->
  veq (vadd xj (vscale gap (vsub_in d xn xj)))
      (vadd xj (vscale gap (vsub_in d xn' xj))).
Proof. intros Hv. apply vadd_veq, vscale_veq, vsub_in_veq. exact Hv. Qed.

(** On a floating array the difference of line 57 is the difference. *)
Lemma vsub_in_floating a b : vsub_in floating a b = vsub a b.
Proof. reflexivity. Qed.

(** ** The neighbours that [sample] picks from *)

(** The rows of a 2-D array have one length. *)
Definition rectangular (X0 : matrix) : Prop :=
  forall i i', i < length X0 -> i' < length X0 ->
    length (row X0 i) = length (row X0 i').

(** How many rows other than row [j] are strictly nearer to row [j] than
    row [nb] is. *)
Definition nearer_count (X0 : matrix) (j nb : nat) : nat :=
  length (filter
            (fun i => i <> j /\
               Qle_bool (sqdist (row X0 j) (row X0 nb))
                        (sqdist (row X0 j) (row X0 i)) = false)
            (seq 0 (length X0))).

(** Row [nb] is one of the [k] nearest neighbours of row [j], the row
    itself left out: it is another row, and fewer than [k] other rows are
    strictly nearer. *)
Definition among_k_nearest (X0 : matrix) (k j nb : nat) : Prop :=
  nb < length X0 /\ nb <> j /\ nearer_count X0 j nb < k.

(** A row made by interpolation: a base row, one of its [k] nearest
    neighbours, and one gap in [0, 1) for all the features. *)
Definition interpolated (X0 : matrix) (k : nat) (s : vec) : Prop :=
  exists j nb gap,
    j < length X0 /\ among_k_nearest X0 k j nb /\
    (0 <= gap)%Q /\ (gap < 1)%Q /\
    veq s (vadd (row X0 j) (vscale gap (vsub (row X0 nb) (row X0 j)))).

(** The row that lines 57 to 60 make of a base row, one of its [k] nearest
    neighbours and one gap, on an array of dtype [d]: the difference of the
    two rows is the one of line 57, taken in the dtype of the array. *)
Definition interpolated_in (d : dtype) (X0 : matrix) (k : nat) (s : vec) : Prop :=
  exists j nb gap,
    j < length X0 /\ among_k_nearest X0 k j nb /\
    (0 <= gap)%Q /\ (gap < 1)%Q /\
    veq s (vadd (row X0 j) (vscale gap (vsub_in d (row X0 nb) (row X0 j)))).

(** The differences between the rows of [X0] are exact in dtype [d]: no
    difference of two elements of one column wraps around.  This is so on
    every floating array, and on an integer array when the differences of
    its rows are in the range of its dtype. *)
Definition exact_differences (d : dtype) (X0 : matrix) : Prop :=
  forall i j, i < length X0 -> j < length X0 ->
    veq (vsub_in d (row X0 i) (row X0 j)) (vsub (row X0 i) (row X0 j)).


Lemma exact_differences_floating X0 : exact_differences floating X0.
Proof. intros i j _ _. rewrite vsub_in_floating. apply veq_refl. Qed.



Lemma interpolated_in_exact d X0 k s :
  exact_differences d X0 -> interpolated_in d X0 k s -> interpolated X0 k s.
Proof.
  intros Hex (j & nb & gap & Hj & Hnb & Hg0 & Hg1 & Hs).
  exists j, nb, gap. repeat split; try assumption; try apply Hnb.
  eapply veq_trans; [exact Hs |].
  apply vadd_veq, vscale_veq, Hex; [apply Hnb | exact Hj].
Qed.

Lemma filter_none {A} (P : A -> Prop) `{forall x, Decision (P x)} (l : list A) :
  (forall x, x ∈ l -> ~ P x) -> filter P l = [].
Proof.
  intros Hnone. destruct (filter P l) as [| x l'] eqn:E; [reflexivity |].
  assert (Hx : x ∈ filter P l) by (rewrite E; left).
  apply list_elem_of_filter in Hx as [HP Hin]. destruct (Hnone x Hin HP).
Qed.

Section Nearest.
Context `{NeighborSearch}.

Lemma nearer_in_prefix X0 j k p nb i :
  j < length X0 -> k + 1 <= length X0 -> i < length X0 ->
  nearest X0 (row X0 j) (k + 1) !! p = Some nb ->
  Qle_bool (sqdist (row X0 j) (row X0 nb)) (sqdist (row X0 j) (row X0 i)) = false ->
  i ∈ take p (nearest X0 (row X0 j) (k + 1)).
Proof.
  intros Hj Hk Hi Hp Hlt.
  assert (Hlt' : ~ (sqdist (row X0 j) (row X0 nb) <= sqdist (row X0 j) (row X0 i))%Q).
  { intros Hle. apply Qle_bool_iff in Hle. congruence. }
  assert (Hnb : nb ∈ nearest X0 (row X0 j) (k + 1))
    by (eapply list_elem_of_lookup_2; eauto).
  destruct (decide (i ∈ nearest X0 (row X0 j) (k + 1))) as [Hin | Hnin].
  - apply list_elem_of_lookup_1 in Hin as (a & Ha).
    apply elem_of_take. exists a. split; [exact Ha |].
    destruct (Nat.lt_ge_cases a p) as [Hlt2 | Hge]; [exact Hlt2 |].
    exfalso. apply Hlt'.
    exact (nearest_sorted X0 (row X0 j) (k + 1) p a nb i Hge Hp Ha).
  - exfalso. apply Hlt'.
    exact (nearest_closest X0 (row X0 j) (k + 1) i nb Hk Hi Hnin Hnb).
Qed.

Lemma tail_among_k_nearest X0 k j nb :
  rectangular X0 -> j < length X0 -> k + 1 <= length X0 ->
  nb ∈ tail (nearest X0 (row X0 j) (k + 1)) ->
  exists nb', among_k_nearest X0 k j nb' /\ veq (row X0 nb') (row X0 nb).
Proof.
  intros Hrect Hj Hk Hnb.
  set (R := nearest X0 (row X0 j) (k + 1)) in *.
  assert (HlenR : length R = k + 1) by (apply nearest_length; exact Hk).
  assert (Hpos : exists p, R !! S p = Some nb).
  { apply list_elem_of_lookup_1 in Hnb as (p & Hp).
    exists p. destruct R; [discriminate | exact Hp]. }
  destruct Hpos as (p & Hp).
  assert (Hpk : S p < k + 1) by (rewrite <- HlenR; eapply lookup_lt_Some; eauto).
  assert (HnbR : nb ∈ R) by (eapply list_elem_of_lookup_2; eauto).
  assert (Hnbm : nb < length X0) by (eapply nearest_bound; eauto).
  pose proof (sqdist_self (row X0 j)) as Hdj.
  destruct (decide (nb = j)) as [-> | Hne].
  - (* the row itself was picked: the first neighbour is a copy of it *)
    destruct (lookup_lt_is_Some_2 R 0) as (f & Hf); [lia |].
    assert (Hfj : f <> j).
    { intros ->. pose proof (NoDup_lookup R 0 (S p) j (nearest_NoDup _ _ _) Hf Hp).
      discriminate. }
    assert (HfR : f ∈ R) by (eapply list_elem_of_lookup_2; eauto).
    assert (Hfm : f < length X0) by (eapply nearest_bound; eauto).
    assert (Hdf : (sqdist (row X0 j) (row X0 f) <= 0)%Q).
    { rewrite <- Hdj. eapply (nearest_sorted X0 (row X0 j) (k + 1) 0 (S p));
        eauto; lia. }
    exists f. split.
    + split; [exact Hfm |]. split; [exact Hfj |].
      unfold nearer_count. rewrite filter_none; [simpl; lia |].
      intros i _ (_ & Hlt).
      pose proof (sqdist_nonneg (row X0 j) (row X0 i)) as Hnn.
      assert (Hle : (sqdist (row X0 j) (row X0 f) <= sqdist (row X0 j) (row X0 i))%Q)
        by lra.
      apply Qle_bool_iff in Hle. congruence.
    + apply sqdist_zero; [apply Hrect; assumption | exact Hdf].
  - exists nb. split; [| apply veq_refl].
    split; [exact Hnbm |]. split; [exact Hne |].
    unfold nearer_count.
    set (C := filter _ (seq 0 (length X0))).
    assert (HC : forall i, i ∈ C -> i <> j /\ i ∈ take (S p) R).
    { intros i Hi. apply list_elem_of_filter in Hi as ((Hij & Hlt) & Hseq).
      apply elem_of_seq in Hseq. split; [exact Hij |].
      eapply nearer_in_prefix; eauto; lia. }
    assert (HCnd : NoDup C) by (apply NoDup_filter, NoDup_seq).
    destruct (Qle_bool (sqdist (row X0 j) (row X0 nb)) (sqdist (row X0 j) (row X0 j)))
      eqn:Hd.
    + (* nb is at distance 0: nothing is strictly nearer *)
      assert (C = []) as ->; [| simpl; lia].
      apply filter_none. intros i _ (_ & Hlt).
      apply Qle_bool_iff in Hd.
      pose proof (sqdist_nonneg (row X0 j) (row X0 i)) as Hnn.
      assert (Hle : (sqdist (row X0 j) (row X0 nb) <= sqdist (row X0 j) (row X0 i))%Q)
        by lra.
      apply Qle_bool_iff in Hle. congruence.
    + (* the row itself is strictly nearer, and sits in the prefix too *)
      assert (Hjp : j ∈ take (S p) R)
        by (eapply nearer_in_prefix; eauto; lia).
      assert (Hall : j :: C ⊆+ take (S p) R).
      { apply NoDup_submseteq.
        - constructor; [| exact HCnd]. intros Hin. apply HC in Hin as [Hjj _].
          congruence.
        - intros x Hx. apply elem_of_cons in Hx as [-> | Hx]; [exact Hjp |].
          apply HC, Hx. }
      apply submseteq_length in Hall. simpl in Hall.
      rewrite length_take in Hall. lia.
Qed.

End Nearest.

(** ** The rows that [sample] returns *)

Lemma elem_of_tail_1 {A} (x : A) (l : list A) : x ∈ tail l -> x ∈ l.
Proof. destruct l; simpl; [auto | right; assumption]. Qed.

Section Interpolation.
Context `{NumpyRandom} `{NeighborSearch}.

Lemma np_random_randint_Ok lo hi p j p' :
  np_random_randint lo hi p = (Ok j, p') -> (lo <= j < hi)%Z.
Proof.
  unfold np_random_randint. destruct (lo <? hi)%Z eqn:E; [| discriminate].
  apply Z.ltb_lt in E. pose proof (randint_range lo hi (np_random p) E) as Hr.
  destruct (randint lo hi (np_random p)). intros Heq. injection Heq as <- _.
  exact Hr.
Qed.

Lemma np_random_choice_Ok a p x p' :
  np_random_choice a p = (Ok x, p') -> x ∈ a.
Proof.
  unfold np_random_choice. destruct a as [| a0 a]; [discriminate |].
  pose proof (choice_elem (a0 :: a) (np_random p)) as Hc.
  destruct (choice (a0 :: a) (np_random p)). intros Heq. injection Heq as <- _.
  apply Hc. discriminate.
Qed.

Lemma np_random_random_Ok p x p' :
  np_random_random p = (Ok x, p') -> (0 <= x)%Q /\ (x < 1)%Q.
Proof.
  unfold np_random_random. pose proof (random_sample_unit (np_random p)) as Hu.
  destruct (random_sample (np_random p)). intros Heq. injection Heq as <- _.
  exact Hu.
Qed.

Lemma np_index_Ok {S} X0 j (s : S) r s' :
  (0 <= j)%Z -> np_index X0 j s = (Ok r, s') ->
  Z.to_nat j < length X0 /\ r = row X0 (Z.to_nat j).
Proof.
  intros Hj. unfold np_index.
  assert ((j <? 0)%Z = false) as -> by (apply Z.ltb_ge; lia).
  destruct ((0 <=? j) && (j <? Z.of_nat (length X0)))%Z eqn:E; [| discriminate].
  apply andb_true_iff in E as [_ E]. apply Z.ltb_lt in E.
  intros Heq. injection Heq as <- _. split; [lia | reflexivity].
Qed.

(** One round of [sample], taken apart. *)
Lemma sample_row_Ok sm d X0 p s p' :
  SMOTE.sample_row (fitted sm d X0) p = (Ok s, p') ->
  exists j nb gap,
    j < length X0 /\ SMOTE.k sm + 1 <= length X0 /\
    nb ∈ tail (nearest X0 (row X0 j) (SMOTE.k sm + 1)) /\
    (0 <= gap)%Q /\ (gap < 1)%Q /\
    s = vadd (row X0 j) (vscale gap (vsub_in d (row X0 nb) (row X0 j))).
Proof.
  unfold SMOTE.sample_row. simpl. intros Hs.
  apply bind_Ok in Hs as (X1 & p1 & HX & Hs). injection HX as <- <-.
  apply bind_Ok in Hs as (d1 & p1 & Hd & Hs). injection Hd as <- <-.
  apply bind_Ok in Hs as (j & p1 & Hj & Hs).
  apply np_random_randint_Ok in Hj.
  apply bind_Ok in Hs as (xj & p2 & Hxj & Hs).
  apply np_index_Ok in Hxj as [Hjlt ->]; [| lia].
  apply bind_Ok in Hs as (nbm & p3 & Hnbm & Hs). injection Hnbm as <- <-.
  apply bind_Ok in Hs as (nn & p3 & Hnn & Hs).
  unfold pure_outcome, NearestNeighbors.kneighbors in Hnn. simpl in Hnn.
  destruct (SMOTE.k sm + 1 <=? length X0)%nat eqn:Hk; [| discriminate].
  apply Nat.leb_le in Hk. injection Hnn as <- <-.
  apply bind_Ok in Hs as (nn_index & p3 & Hc & Hs).
  apply np_random_choice_Ok in Hc.
  apply bind_Ok in Hs as (xn & p4 & Hxn & Hs).
  apply np_index_Ok in Hxn as [_ ->]; [| lia].
  rewrite Nat2Z.id in Hs.
  apply bind_Ok in Hs as (gap & p5 & Hg & Hs).
  apply np_random_random_Ok in Hg as [Hg0 Hg1].
  injection Hs as <- _.
  exists (Z.to_nat j), nn_index, gap. auto 10.
Qed.

Lemma sample_row_interpolated sm d X0 p s p' :
  rectangular X0 ->
  SMOTE.sample_row (fitted sm d X0) p = (Ok s, p') ->
  interpolated_in d X0 (SMOTE.k sm) s /\ length s = n_cols X0.
Proof.
  intros Hrect Hs.
  apply sample_row_Ok in Hs as (j & nb & gap & Hj & Hk & Hnb & Hg0 & Hg1 & ->).
  destruct (tail_among_k_nearest X0 (SMOTE.k sm) j nb Hrect Hj Hk Hnb)
    as (nb' & Hamong & Hveq).
  split.
  - exists j, nb', gap. repeat split; try assumption; try apply Hamong.
    apply vinterp_veq. exact Hveq.
  - assert (Hnbm : nb < length X0).
    { eapply nearest_bound. apply elem_of_tail_1. exact Hnb. }
    unfold vadd, vscale, vsub_in.
    rewrite length_zip_with, length_map, length_zip_with.
    rewrite (Hrect nb j Hnbm Hj).
    assert (length (row X0 j) = n_cols X0) as ->; [| lia].
    destruct X0 as [| r0 X0]; [simpl in Hj; lia |].
    apply (Hrect j 0); [exact Hj | simpl; lia].
Qed.

Lemma sample_rows_interpolated sm d X0 n : forall p S p',
  rectangular X0 ->
  SMOTE.sample_rows (fitted sm d X0) n p = (Ok S, p') ->
  Forall (fun s => interpolated_in d X0 (SMOTE.k sm) s /\ length s = n_cols X0) S.
Proof.
  induction n as [| n IH]; intros p S p' Hrect Hs; simpl in Hs.
  - injection Hs as <- _. constructor.
  - apply bind_Ok in Hs as (r & p1 & Hr & Hs).
    apply bind_Ok in Hs as (rest & p2 & Hrest & Hs).
    injection Hs as <- _. constructor.
    + eapply sample_row_interpolated; eauto.
    + eapply IH; eauto.
Qed.

(** With at least [k + 1] points and [k >= 1], no round fails. *)
Lemma sample_row_succeeds sm d X0 p :
  1 <= SMOTE.k sm -> SMOTE.k sm + 1 <= length X0 ->
  exists s p', SMOTE.sample_row (fitted sm d X0) p = (Ok s, p').
Proof.
  intros Hk1 Hk. unfold SMOTE.sample_row. simpl.
  unfold bind at 1. simpl.
  unfold bind at 1. simpl.
  unfold bind at 1. unfold np_random_randint.
  assert ((0 <? Z.of_nat (n_rows X0))%Z = true) as ->.
  { apply Z.ltb_lt. unfold n_rows. lia. }
  pose proof (randint_range 0 (Z.of_nat (n_rows X0)) (np_random p)) as Hj.
  destruct (randint 0 (Z.of_nat (n_rows X0)) (np_random p)) as [j g] eqn:Hr.
  simpl in Hj. unfold n_rows in Hj.
  assert (Hj' : (0 <= j < Z.of_nat (length X0))%Z) by (apply Hj; lia).
  unfold bind at 1, np_index.
  assert ((j <? 0)%Z = false) as -> by (apply Z.ltb_ge; lia).
  assert (((0 <=? j) && (j <? Z.of_nat (length X0)))%Z = true) as ->.
  { apply andb_true_iff. split; [apply Z.leb_le | apply Z.ltb_lt]; lia. }
  simpl. unfold bind at 1. simpl.
  unfold bind at 1, pure_outcome, NearestNeighbors.kneighbors. simpl.
  assert ((SMOTE.k sm + 1 <=? length X0)%nat = true) as ->.
  { apply Nat.leb_le. lia. }
  set (nn := nearest X0 (row X0 (Z.to_nat j)) (SMOTE.k sm + 1)).
  assert (Hlen : length nn = SMOTE.k sm + 1) by (apply nearest_length; exact Hk).
  unfold bind at 1. unfold np_random_choice.
  destruct (tail nn) as [| t0 ts] eqn:Htail.
  { destruct nn as [| n0 [| n1 nn']]; simpl in *; try discriminate; lia. }
  pose proof (choice_elem (t0 :: ts) (np_random
      {| np_random := g; os_entropy := os_entropy p; drawn := log DRandint p |}))
    as Hc.
  destruct (choice (t0 :: ts) _) as [x g'] eqn:Hch.
  simpl in Hc.
  assert (Hx : x ∈ nn).
  { apply elem_of_tail_1. rewrite Htail. apply Hc. discriminate. }
  apply nearest_bound in Hx.
  unfold bind at 1.
  assert ((Z.of_nat x <? 0)%Z = false) as -> by (apply Z.ltb_ge; lia).
  assert (((0 <=? Z.of_nat x) && (Z.of_nat x <? Z.of_nat (length X0)))%Z = true) as ->.
  { apply andb_true_iff. split; [apply Z.leb_le | apply Z.ltb_lt]; lia. }
  simpl. unfold bind at 1, np_random_random. simpl.
  destruct (random_sample g') as [gap g'']. eauto.
Qed.

Lemma sample_rows_succeeds sm d X0 n : forall p,
  1 <= SMOTE.k sm -> SMOTE.k sm + 1 <= length X0 ->
  exists S p', SMOTE.sample_rows (fitted sm d X0) n p = (Ok S, p').
Proof.
  induction n as [| n IH]; intros p Hk1 Hk; simpl.
  - eexists _, _. reflexivity.
  - destruct (sample_row_succeeds sm d X0 p Hk1 Hk) as (s & p1 & Hs).
    destruct (IH p1 Hk1 Hk) as (S & p2 & HS).
    exists (s :: S), p2.
    rewrite (bind_eq_Ok _ _ _ _ _ Hs), (bind_eq_Ok _ _ _ _ _ HS). reflexivity.
Qed.

End Interpolation.

Section SyntheticSamples.
Context `{NumpyRandom} `{NeighborSearch} `{!Booster} `{Int64Cast}.
Import SMOTEBoost.

(** The SMOTE step of a round is [sample] on the sampler fitted to the
    minority rows of the round's training set. *)
Lemma smote_step_Ok l h X_syn h1 :
  smote_step l h = (Ok X_syn, h1) ->
  exists m p',
    minority_target (self h) = Some m /\
    SMOTE.sample (fitted (smote (self h)) (X_dtype l) (minority_rows (X l) (y l) m))
      (n_samples (self h)) (process h) = (Ok X_syn, p').
Proof.
  unfold smote_step, get_self, on_smote, on_process, zoom. intros Hs.
  apply bind_Ok in Hs as (s & h2 & Hs0 & Hs). injection Hs0 as <- <-.
  apply bind_Ok in Hs as (m & h2 & Hm & Hs).
  destruct (minority_target (self h)) as [m' |] eqn:Hmt; [| discriminate].
  injection Hm as <- <-.
  apply bind_Ok in Hs as (u & h3 & Hfit & Hs).
  apply bind_Ok in Hs as (s & h4 & Hs0' & Hs). injection Hs0' as <- <-.
  destruct (SMOTE.fit _ _) as [o sm] eqn:E. injection Hfit as -> <-.
  apply smote_fit_inv in E as (_ & _ & ->).
  destruct (SMOTE.sample _ _ _) as [o' p'] eqn:E'.
  injection Hs as -> _. simpl in E'.
  exists m', p'. split; [reflexivity | exact E'].
Qed.


End SyntheticSamples.

(** ** Supplied weights *)

Lemma fsum_finite (l : list Q) (f : Q -> Q) :
  fsum (map (fun x => Fin (f x)) l) = Fin (Qsum (map f l)).
Proof.
  induction l as [| x l IH]; [reflexivity |].
  change (fsum (map (fun x => Fin (f x)) (x :: l)))
    with (fadd (Fin (f x)) (fsum (map (fun x => Fin (f x)) l))).
  rewrite IH. reflexivity.
Qed.

Lemma fsum_not_finite (l : list npfloat) :
  l <> [] -> Forall (fun v => forall q, v <> Fin q) l ->
  (forall q, fsum l <> Fin q) /\ (fsum l = NInf -> Forall (fun v => v = NInf) l).
Proof.
  induction l as [| v l IH]; [congruence |]. intros _ Hall.
  apply Forall_cons in Hall as [Hv Hall].
  change (fsum (v :: l)) with (fadd v (fsum l)).
  destruct l as [| v' l'].
  - change (fsum []) with (Fin 0). destruct v as [q | | |];
      [destruct (Hv q eq_refl) | | |]; simpl;
      (split; [discriminate | intros Heq; try discriminate; repeat constructor]).
  - destruct (IH ltac:(discriminate) Hall) as [Hnf Hninf].
    destruct v as [q | | |]; [destruct (Hv q eq_refl) | | |];
      destruct (fsum (v' :: l')) as [q' | | |] eqn:E;
      try (destruct (Hnf q' eq_refl)); simpl;
      (split; [discriminate | intros Heq; try discriminate]).
    constructor; [reflexivity | apply Hninf; reflexivity].
Qed.

Lemma Qsum_negative (w : list Q) :
  w <> [] -> Forall (fun x => x < 0)%Q w -> (Qsum w < 0)%Q.
Proof.
  induction w as [| x w IH]; [congruence |]. intros _ Hall.
  apply Forall_cons in Hall as [Hx Hall]. rewrite Qsum_cons.
  destruct w as [| x' w'].
  - rewrite Qsum_nil. lra.
  - specialize (IH ltac:(discriminate) Hall). lra.
Qed.

(** The test of line 180 never fires: it looks at the weights after the
    division, whose sum is 1 when the supplied sum is not zero and [nan]
    when it is. *)
Lemma normalize_existing_weights_accepts (w : list Q) :
  w <> [] -> exists ws, normalize_existing_weights w = Ok ws.
Proof.
  intros Hne. unfold normalize_existing_weights.
  destruct (fle0 _) eqn:Hle; [exfalso | eauto].
  destruct (Qeq_bool (Qsum w) 0) eqn:Hs.
  - (* zero sum: every quotient is inf or nan *)
    set (ws := map (fun x => fdiv x (Qsum w)) w) in *.
    assert (Hall : Forall (fun v => forall q, v <> Fin q) ws).
    { apply Forall_map, Forall_forall. intros x _ q. simpl. unfold fdiv.
      rewrite Hs. repeat case_match; discriminate. }
    assert (Hws : ws <> []) by (destruct w; [congruence | discriminate]).
    destruct (fsum_not_finite ws Hws Hall) as [Hnf Hninf].
    destruct (fsum ws) as [q | | |] eqn:E; try discriminate.
    { destruct (Hnf q eq_refl). }
    specialize (Hninf eq_refl).
    assert (Hneg : Forall (fun x => x < 0)%Q w).
    { apply Forall_forall. intros x Hx.
      assert (Hfx : fdiv x (Qsum w) = NInf).
      { rewrite Forall_forall in Hninf. apply Hninf.
        apply list_elem_of_fmap. exists x. split; [reflexivity | exact Hx]. }
      unfold fdiv in Hfx. rewrite Hs in Hfx.
      destruct (Qeq_bool x 0); [discriminate |].
      destruct (Qle_bool 0 x) eqn:E0; [discriminate |].
      destruct (Qlt_le_dec x 0) as [Hlt | Hge]; [exact Hlt |].
      apply Qle_bool_iff in Hge. congruence. }
    apply Qsum_negative in Hneg; [| exact Hne].
    apply Qeq_bool_iff in Hs. lra.
  - (* non-zero sum: the quotients sum to 1 *)
    assert (Hmap : map (fun x => fdiv x (Qsum w)) w =
                   map (fun x => Fin (x / Qsum w)) w).
    { apply map_ext. intros x. unfold fdiv. rewrite Hs. reflexivity. }
    rewrite Hmap, (fsum_finite w (fun x => x / Qsum w)%Q) in Hle.
    simpl in Hle. apply Qle_bool_iff in Hle.
    rewrite Qsum_map_div in Hle.
    assert (Hnz : ~ (Qsum w == 0)%Q).
    { intros Heq. apply Qeq_bool_iff in Heq. congruence. }
    assert (Hone : (Qsum w / Qsum w == 1)%Q) by (field; exact Hnz).
    lra.
Qed.

Section SuppliedWeights.
Context `{NumpyRandom} `{NeighborSearch} `{!Booster} `{Int64Cast}.
Import SMOTEBoost.

(** Whatever weights are supplied, [fit] stops at line 175. *)
Lemma fit_supplied_weights dt X0 y0 w mt (h : Heap) :
  (0 < learning_rate (self h))%Q ->
  check_X_y X0 y0 h = (Ok (X0, y0), h) ->
  fit dt X0 y0 (Some w) mt h = (Raise (NameError "check_array"), h).
Proof.
  intros Hlr Hc.
  assert (Hnot : Qle_bool (learning_rate (self h)) 0 = false).
  { destruct (Qle_bool (learning_rate (self h)) 0) eqn:E; [| reflexivity].
    apply Qle_bool_iff in E. lra. }
  unfold fit, fit_locals. apply bind_eq_Raise, bind_eq_Raise.
  unfold fit_init, bind at 1, get_self. rewrite Hnot.
  rewrite (bind_eq_Ok _ _ _ _ _ Hc). apply bind_eq_Raise.
  apply initial_weights_supplied.
Qed.

End SuppliedWeights.

(** * Further properties *)

(** ** The sampler at the edges of its use *)

(** [v] lies between [a] and [b], whichever of the two is the larger. *)
Definition between (a b v : Q) : Prop :=
  (a <= v /\ v <= b)%Q \/ (b <= v /\ v <= a)%Q.

(** Every feature of [s] lies between that feature of [a] and of [b]. *)
Definition within (a b s : vec) : Prop :=
  forall c v, s !! c = Some v ->
    exists x z, a !! c = Some x /\ b !! c = Some z /\ between x z v.

Lemma between_interpolated (x z gap : Q) :
  (0 <= gap)%Q -> (gap < 1)%Q -> between x z (x + gap * (z - x))%Q.
Proof.
  intros H0 H1. unfold between.
  destruct (Qlt_le_dec z x) as [Hlt | Hle].
  - right. split; nra.
  - left. split; nra.
Qed.

Lemma within_interpolated (a b : vec) (gap : Q) :
  (0 <= gap)%Q -> (gap < 1)%Q ->
  within a b (vadd a (vscale gap (vsub b a))).
Proof.
  intros H0 H1 c v Hv. unfold vadd, vscale, vsub in Hv.
  apply lookup_zip_with_Some in Hv as (x & d & -> & Hx & Hd).
  rewrite list_lookup_fmap in Hd.
  destruct (zip_with Qminus b a !! c) as [d' |] eqn:Hd'; [| discriminate].
  simpl in Hd. injection Hd as <-.
  apply lookup_zip_with_Some in Hd' as (z & x' & -> & Hz & Hx').
  assert (x' = x) by congruence. subst x'.
  exists x, z. repeat split; try assumption.
  apply between_interpolated; assumption.
Qed.

(** The same for the difference as line 57 takes it, where it is exact. *)
Lemma within_interpolated_in d (a b : vec) (gap : Q) :
  veq (vsub_in d b a) (vsub b a) ->
  (0 <= gap)%Q -> (gap < 1)%Q ->
  within a b (vadd a (vscale gap (vsub_in d b a))).
Proof.
  intros Hex H0 H1 c v Hv. unfold vadd, vscale in Hv.
  apply lookup_zip_with_Some in Hv as (x & t & -> & Hx & Ht).
  rewrite list_lookup_fmap in Ht.
  apply fmap_Some in Ht as (t' & Ht' & ->).
  destruct (Forall2_lookup_l _ _ _ _ _ Hex Ht') as (e & He & Hte).
  unfold vsub in He.
  apply lookup_zip_with_Some in He as (z & x' & -> & Hz & Hx').
  assert (x' = x) by congruence. subst x'.
  exists x, z. repeat split; try assumption.
  pose proof (between_interpolated x z gap H0 H1) as Hb.
  unfold between in *. rewrite Hte. exact Hb.
Qed.

Section SamplerEdges.
Context `{NumpyRandom} `{NeighborSearch}.

(** A successful [sample] is a successful run of its loop. *)
Lemma sample_Ok_rows sm n p S p' :
  SMOTE.sample sm n p = (Ok S, p') ->
  exists p1, SMOTE.sample_rows sm n p1 = (Ok S, p').
Proof.
  unfold SMOTE.sample. intros Hs.
  apply bind_Ok in Hs as (u & p1 & _ & Hs).
  apply bind_Ok in Hs as (d & p2 & Hattr & Hs).
  exists p2. exact Hs.
Qed.

Lemma sample_rows_Forall (P : vec -> Prop) sm n :
  (forall p s p', SMOTE.sample_row sm p = (Ok s, p') -> P s) ->
  forall p S p', SMOTE.sample_rows sm n p = (Ok S, p') -> Forall P S.
Proof.
  intros Hrow. induction n as [| n IH]; intros p S p' Hs; simpl in Hs.
  - injection Hs as <- _. constructor.
  - apply bind_Ok in Hs as (r & p1 & Hr & Hs).
    apply bind_Ok in Hs as (rest & p2 & Hrest & Hs).
    injection Hs as <- _. constructor; eauto.
Qed.

(** X1: [sample] called on a sampler that was never fitted (and whose seed
    [np.random.seed] accepts) raises [AttributeError] for [n_features], at
    line 47, and only after line 45 has re-seeded the process-wide stream:
    the failed call has made one call on the stream, the seeding, and with
    an integer seed it leaves the stream in the state that seed gives. *)
Theorem sample_before_fit k_neighbors (random_state : option Z) n p :
  seed_ok random_state ->
  exists p',
    SMOTE.sample (SMOTE.init k_neighbors random_state) n p =
      (Raise (AttributeError "n_features"), p') /\
    drawn p' = drawn p ++ [DSeed] /\
    (forall s, random_state = Some s -> np_random p' = seed_int s).
Proof.
  intros Hseed.
  destruct (np_random_seed_ok random_state p Hseed) as (p' & Hp').
  exists p'. split; [| split].
  - rewrite sample_unfold. simpl. rewrite Hp'. reflexivity.
  - exact (draws_seed random_state p tt p' Hp').
  - intros s ->. simpl in Hseed. unfold np_random_seed in Hp'.
    destruct ((0 <=? s)%Z && (s <? 2 ^ 32)%Z); [| discriminate].
    injection Hp' as <-. reflexivity.
Qed.

(** X2: on an array whose differences of rows are exact in its dtype (every
    floating array, and an integer array whose differences are in the range
    of its dtype), [sample] never extrapolates.  Every row it returns lies,
    feature by feature, between two rows of the set the sampler was fitted
    to (the base row and the chosen neighbour, the same two for all the
    features of the row). *)
Theorem sample_within_minority sm d X0 n p S p' :
  exact_differences d X0 ->
  SMOTE.sample (fitted sm d X0) n p = (Ok S, p') ->
  Forall (fun s => exists j nb,
            j < length X0 /\ nb < length X0 /\
            within (row X0 j) (row X0 nb) s) S.
Proof.
  intros Hex Hs. apply sample_Ok_rows in Hs as (p1 & Hs).
  eapply sample_rows_Forall; [| exact Hs].
  intros q s q' Hrow.
  apply sample_row_Ok in Hrow as (j & nb & gap & Hj & Hk & Hnb & H0g & Hg1 & ->).
  assert (Hnbm : nb < length X0).
  { eapply nearest_bound. apply elem_of_tail_1. exact Hnb. }
  exists j, nb. split; [exact Hj |]. split; [exact Hnbm |].
  apply within_interpolated_in; try assumption. apply Hex; assumption.
Qed.

Lemma sample_row_no_neighbours sm d X0 p :
  SMOTE.k sm = 0 -> 0 < length X0 ->
  exists p',
    SMOTE.sample_row (fitted sm d X0) p =
    (Raise (ValueError "a must be non-empty"), p').
Proof.
  intros Hk Hpos. unfold SMOTE.sample_row. simpl.
  unfold bind at 1. simpl.
  unfold bind at 1. simpl.
  unfold bind at 1. unfold np_random_randint.
  assert ((0 <? Z.of_nat (n_rows X0))%Z = true) as ->.
  { apply Z.ltb_lt. unfold n_rows. lia. }
  pose proof (randint_range 0 (Z.of_nat (n_rows X0)) (np_random p)) as Hj.
  destruct (randint 0 (Z.of_nat (n_rows X0)) (np_random p)) as [j g] eqn:Hr.
  simpl in Hj. unfold n_rows in Hj.
  assert (Hj' : (0 <= j < Z.of_nat (length X0))%Z) by (apply Hj; lia).
  unfold bind at 1, np_index.
  assert ((j <? 0)%Z = false) as -> by (apply Z.ltb_ge; lia).
  assert (((0 <=? j) && (j <? Z.of_nat (length X0)))%Z = true) as ->.
  { apply andb_true_iff. split; [apply Z.leb_le | apply Z.ltb_lt]; lia. }
  simpl. unfold bind at 1. simpl.
  unfold bind at 1, pure_outcome, NearestNeighbors.kneighbors. simpl.
  rewrite Hk. change (0 + 1) with 1.
  assert ((1 <=? length X0)%nat = true) as -> by (apply Nat.leb_le; lia).
  pose proof (nearest_length X0 (row X0 (Z.to_nat j)) 1 ltac:(lia)) as Hlen.
  unfold bind at 1. unfold np_random_choice.
  destruct (nearest X0 (row X0 (Z.to_nat j)) 1) as [| n0 [| n1 nn']];
    simpl in Hlen; try lia.
  simpl. eauto.
Qed.

(** X3: with [k_neighbors = 0] the neighbour query returns the base row
    alone, the slice [[:, 1:]] of line 54 leaves nothing to choose from, and
    every call of [sample] for at least one row on a fitted sampler raises
    the [ValueError] of [np.random.choice] on an empty array. *)
Theorem sample_without_neighbours sm d X0 n p :
  SMOTE.k sm = 0 -> 0 < length X0 -> seed_ok (SMOTE.random_state sm) ->
  exists p',
    SMOTE.sample (fitted sm d X0) (S n) p =
    (Raise (ValueError "a must be non-empty"), p').
Proof.
  intros Hk Hpos Hseed. rewrite sample_unfold.
  destruct (np_random_seed_ok _ p Hseed) as (p1 & Hp1).
  change (SMOTE.random_state (fitted sm d X0)) with (SMOTE.random_state sm).
  rewrite Hp1.
  destruct (sample_row_no_neighbours sm d X0 p1 Hk Hpos) as (p2 & Hp2).
  exists p2. unfold bind at 1. simpl. unfold bind at 1. rewrite Hp2. reflexivity.
Qed.

(** X4: a sampler with [k_neighbors = 1] fitted to exactly two points of
    one length, in an array whose differences of rows are exact in its dtype
    (every floating array), returns only points of the segment between the
    two: each returned row is one of the two points moved toward the other
    by a gap in [0, 1). *)
Theorem sample_two_points sm d a b n p S p' :
  SMOTE.k sm = 1 -> length a = length b ->
  exact_differences d [a; b] ->
  SMOTE.sample (fitted sm d [a; b]) n p = (Ok S, p') ->
  Forall (fun s => exists gap,
            (0 <= gap)%Q /\ (gap < 1)%Q /\
            (veq s (vadd a (vscale gap (vsub b a))) \/
             veq s (vadd b (vscale gap (vsub a b))))) S.
Proof.
  intros Hk Hab Hex Hs. apply sample_Ok_rows in Hs as (p1 & Hs).
  assert (Hrect : rectangular [a; b]).
  { intros i i' Hi Hi'. simpl in Hi, Hi'.
    destruct i as [| [| i]]; destruct i' as [| [| i']]; try lia;
      unfold row; simpl; congruence. }
  eapply sample_rows_Forall; [| exact Hs].
  intros q s q' Hrow.
  apply (sample_row_interpolated _ _ _ _ _ _ Hrect) in Hrow as [Hrow _].
  apply (interpolated_in_exact _ _ _ _ Hex) in Hrow
    as (j & nb & gap & Hj & (Hnb & Hne & _) & H0g & Hg1 & Hveq).
  exists gap. split; [exact H0g |]. split; [exact Hg1 |].
  simpl in Hj, Hnb.
  destruct j as [| [| j]]; destruct nb as [| [| nb]]; try lia;
    unfold row in Hveq; simpl in Hveq; auto.
Qed.

End SamplerEdges.
(** ** The minority label (lines 185-192) *)

(** How often the label [v] occurs in [y]. *)
Fixpoint count_of (v : Q) (y : list Q) : nat :=
  match y with
  | [] => 0
  | u :: y' => (if Qeq_bool u v then 1 else 0) + count_of v y'
  end.

(** The index at which the label [v] first occurs in [y]; the length of [y]
    if it does not occur. *)
Fixpoint first_pos (v : Q) (y : list Q) : nat :=
  match y with
  | [] => 0
  | u :: y' => if Qeq_bool u v then 0 else S (first_pos v y')
  end.

Lemma Qeq_bool_congr_r u v v' :
  Qeq_bool v v' = true -> Qeq_bool u v = Qeq_bool u v'.
Proof.
  intros Hv. apply Qeq_bool_iff in Hv.
  destruct (Qeq_bool u v) eqn:E1; destruct (Qeq_bool u v') eqn:E2; try reflexivity.
  - apply Qeq_bool_iff in E1. apply Qeq_bool_neq in E2. exfalso. apply E2.
    rewrite E1. exact Hv.
  - apply Qeq_bool_iff in E2. apply Qeq_bool_neq in E1. exfalso. apply E1.
    rewrite E2. symmetry. exact Hv.
Qed.

Lemma count_of_app v a b : count_of v (a ++ b) = count_of v a + count_of v b.
Proof. induction a as [| u a IH]; simpl; [reflexivity | rewrite IH; lia]. Qed.

Lemma count_of_Qeq v v' y :
  Qeq_bool v v' = true -> count_of v y = count_of v' y.
Proof.
  intros Hv. induction y as [| u y IH]; simpl; [reflexivity |].
  rewrite IH, (Qeq_bool_congr_r u v v' Hv). reflexivity.
Qed.

Lemma count_of_pos v y : v ∈ y -> 0 < count_of v y.
Proof.
  induction 1 as [v y | v u y _ IH]; simpl.
  - rewrite Qeq_bool_refl. lia.
  - lia.
Qed.

Lemma count_of_zero v y :
  count_of v y = 0 -> Forall (fun u => Qeq_bool u v = false) y.
Proof.
  induction y as [| u y IH]; simpl; intros Hc; [constructor |].
  destruct (Qeq_bool u v) eqn:E; [lia |]. constructor; [exact E | apply IH; lia].
Qed.

Lemma first_pos_Qeq v v' y :
  Qeq_bool v v' = true -> first_pos v y = first_pos v' y.
Proof.
  intros Hv. induction y as [| u y IH]; simpl; [reflexivity |].
  rewrite IH, (Qeq_bool_congr_r u v v' Hv). reflexivity.
Qed.

Lemma first_pos_elem v y : v ∈ y -> first_pos v y < length y.
Proof.
  induction 1 as [v y | v u y _ IH]; simpl.
  - rewrite Qeq_bool_refl. lia.
  - destruct (Qeq_bool u v); lia.
Qed.

Lemma first_pos_absent v y :
  Forall (fun u => Qeq_bool u v = false) y -> first_pos v y = length y.
Proof.
  induction 1 as [| u y Hu _ IH]; simpl; [reflexivity |]. rewrite Hu, IH. reflexivity.
Qed.

Lemma first_pos_app_l v a b :
  first_pos v a < length a -> first_pos v (a ++ b) = first_pos v a.
Proof.
  induction a as [| u a IH]; simpl; [lia |].
  destruct (Qeq_bool u v); [reflexivity |]. intros Hlt. rewrite IH; [reflexivity | lia].
Qed.

Lemma first_pos_app_r v a b :
  Forall (fun u => Qeq_bool u v = false) a ->
  first_pos v (a ++ b) = length a + first_pos v b.
Proof.
  induction 1 as [| u a Hu _ IH]; simpl; [reflexivity |]. rewrite Hu, IH. reflexivity.
Qed.

(** The first occurrence of a label is an occurrence of it. *)
Lemma lookup_first_pos v y :
  first_pos v y < length y ->
  exists u, y !! first_pos v y = Some u /\ Qeq_bool u v = true.
Proof.
  induction y as [| u y IH]; simpl; [lia |].
  destruct (Qeq_bool u v) eqn:E; [eauto |]. intros Hlt. apply IH. lia.
Qed.

(** What [count_label] does to the table: the count of the first key equal
    to the label goes up by one, or, no key being equal to it, the label is
    appended with count 1. *)
Lemma count_label_spec c v :
  (exists c1 u n c2,
     c = c1 ++ (u, n) :: c2 /\ Qeq_bool u v = true /\
     Forall (fun p => Qeq_bool p.1 v = false) c1 /\
     count_label c v = c1 ++ (u, S n) :: c2) \/
  (Forall (fun p => Qeq_bool p.1 v = false) c /\ count_label c v = c ++ [(v, 1)]).
Proof.
  induction c as [| [u n] c IH]; simpl.
  - right. split; [constructor | reflexivity].
  - destruct (Qeq_bool u v) eqn:E.
    + left. exists [], u, n, c. repeat split; [exact E | constructor].
    + destruct IH as [(c1 & u' & n' & c2 & -> & Hu' & Hc1 & ->) | [Hall ->]].
      * left. exists ((u, n) :: c1), u', n', c2.
        repeat split; [exact Hu' | constructor; assumption].
      * right. split; [constructor; assumption | reflexivity].
Qed.

Lemma Counter_snoc y v : Counter (y ++ [v]) = count_label (Counter y) v.
Proof. unfold Counter. rewrite fold_left_app. reflexivity. Qed.

(** The table [c] counts the labels of [y]: each key occurs in [y] and
    comes with the number of its occurrences, each label of [y] has a key
    equal to it, and the keys are in the order of their first
    occurrences. *)
Definition counted (y : list Q) (c : list (Q * nat)) : Prop :=
  Forall (fun p => p.2 = count_of p.1 y /\ p.1 ∈ y) c /\
  (forall v, v ∈ y -> Exists (fun p => Qeq_bool p.1 v = true) c) /\
  StronglySorted (fun u u' => first_pos u y < first_pos u' y) (map fst c).

Lemma StronglySorted_on {A} (R R' : relation A) (l : list A) :
  (forall a b, a ∈ l -> b ∈ l -> R a b -> R' a b) ->
  StronglySorted R l -> StronglySorted R' l.
Proof.
  intros Himp Hs. induction Hs as [| a l Hs IH Hall].
  - constructor.
  - constructor.
    + apply IH. intros x z Hx Hz. apply Himp; right; assumption.
    + rewrite Forall_forall in *. intros x Hx.
      apply Himp; [left | right; exact Hx | apply Hall; exact Hx].
Qed.

Lemma count_of_snoc_other u v y :
  Qeq_bool v u = false -> count_of u (y ++ [v]) = count_of u y.
Proof. intros Hv. rewrite count_of_app. simpl. rewrite Hv. lia. Qed.

Lemma count_of_snoc_same u v y :
  Qeq_bool v u = true -> count_of u (y ++ [v]) = S (count_of u y).
Proof. intros Hv. rewrite count_of_app. simpl. rewrite Hv. lia. Qed.

Lemma counted_snoc y c v : counted y c -> counted (y ++ [v]) (count_label c v).
Proof.
  intros (Hcnt & Hall & Hsort).
  assert (Hkeep : forall a b, a ∈ map fst c -> b ∈ map fst c ->
            first_pos a y < first_pos b y ->
            first_pos a (y ++ [v]) < first_pos b (y ++ [v])).
  { intros a b Ha Hb Hlt.
    assert (Hin : forall x, x ∈ map fst c -> x ∈ y).
    { intros x Hx. apply list_elem_of_fmap in Hx as (p & -> & Hp).
      rewrite Forall_forall in Hcnt. apply (Hcnt p Hp). }
    rewrite !first_pos_app_l; [exact Hlt | |]; apply first_pos_elem; auto. }
  destruct (count_label_spec c v)
    as [(c1 & u & n & c2 & -> & Hu & Hc1 & ->) | [Hnone ->]].
  - (* the label has a key *)
    assert (Hc2 : Forall (fun p => Qeq_bool p.1 v = false) c2).
    { rewrite map_app in Hsort. simpl in Hsort.
      apply StronglySorted_app_1_r in Hsort.
      apply StronglySorted_inv in Hsort as [_ Hlater].
      rewrite Forall_forall in Hlater. apply Forall_forall. intros p Hp.
      destruct (Qeq_bool p.1 v) eqn:E; [| reflexivity]. exfalso.
      assert (Hup : Qeq_bool u p.1 = true).
      { eapply Qeq_bool_trans; [exact Hu | apply Qeq_bool_sym; exact E]. }
      specialize (Hlater p.1 ltac:(apply list_elem_of_fmap; eauto)).
      rewrite (first_pos_Qeq _ _ y Hup) in Hlater. lia. }
    apply Forall_app in Hcnt as [Hcnt1 Hcnt2].
    apply Forall_cons in Hcnt2 as [[Hn Huy] Hcnt2]. simpl in Hn, Huy.
    assert (Hother : forall cs,
              Forall (fun p => Qeq_bool p.1 v = false) cs ->
              Forall (fun p => p.2 = count_of p.1 y /\ p.1 ∈ y) cs ->
              Forall (fun p => p.2 = count_of p.1 (y ++ [v]) /\ p.1 ∈ y ++ [v]) cs).
    { intros cs Hne Hc. rewrite Forall_forall in *. intros p Hp.
      destruct (Hc p Hp) as [E Hin]. split.
      - rewrite count_of_snoc_other; [exact E |].
        rewrite Qeq_bool_comm. apply Hne. exact Hp.
      - apply elem_of_app. left. exact Hin. }
    split; [| split].
    + apply Forall_app. split; [auto |]. apply Forall_cons. split; [| auto].
      simpl. split.
      * rewrite count_of_snoc_same; [congruence | apply Qeq_bool_sym; exact Hu].
      * apply elem_of_app. left. exact Huy.
    + intros v0 Hv0. apply elem_of_app in Hv0 as [Hv0 | Hv0].
      * specialize (Hall v0 Hv0). apply Exists_app in Hall as [Hall | Hall].
        -- apply Exists_app. left. exact Hall.
        -- apply Exists_app. right. apply Exists_cons in Hall as [Hall | Hall].
           ++ apply Exists_cons. left. exact Hall.
           ++ apply Exists_cons. right. exact Hall.
      * apply list_elem_of_singleton in Hv0 as ->.
        apply Exists_app. right. apply Exists_cons. left. exact Hu.
    + replace (map fst (c1 ++ (u, S n) :: c2)) with (map fst (c1 ++ (u, n) :: c2))
        by (rewrite !map_app; reflexivity).
      eapply StronglySorted_on; [| exact Hsort]. exact Hkeep.
  - (* the label is new *)
    assert (Hnew : Forall (fun u => Qeq_bool u v = false) y).
    { apply Forall_forall. intros u Hu.
      destruct (Qeq_bool u v) eqn:E; [| reflexivity]. exfalso.
      specialize (Hall u Hu). apply Exists_exists in Hall as (p & Hp & Hpu).
      rewrite Forall_forall in Hnone. specialize (Hnone p Hp).
      rewrite (Qeq_bool_trans _ _ _ Hpu E) in Hnone. discriminate. }
    split; [| split].
    + apply Forall_app. split.
      * rewrite Forall_forall in *. intros p Hp. destruct (Hcnt p Hp) as [E Hin].
        split; [| apply elem_of_app; left; exact Hin].
        rewrite count_of_snoc_other; [exact E |].
        rewrite Qeq_bool_comm. apply Hnone. exact Hp.
      * apply Forall_cons. split; [| constructor]. simpl. split.
        -- rewrite count_of_snoc_same by apply Qeq_bool_refl.
           assert (count_of v y = 0) as ->; [| reflexivity].
           clear -Hnew. induction Hnew as [| u y Hu _ IH]; simpl; [reflexivity |].
           rewrite Hu, IH. reflexivity.
        -- apply elem_of_app. right. constructor.
    + intros v0 Hv0. apply elem_of_app in Hv0 as [Hv0 | Hv0].
      * apply Exists_app. left. apply Hall. exact Hv0.
      * apply list_elem_of_singleton in Hv0 as ->.
        apply Exists_app. right. apply Exists_cons. left. apply Qeq_bool_refl.
    + rewrite map_app. simpl. apply StronglySorted_app_2;
        [| eapply StronglySorted_on; [| exact Hsort]; exact Hkeep
         | repeat constructor].
      * intros a b Ha Hb. apply list_elem_of_singleton in Hb as ->.
        apply list_elem_of_fmap in Ha as (p & -> & Hp).
        rewrite Forall_forall in Hcnt. destruct (Hcnt p Hp) as [_ Hin].
        rewrite first_pos_app_l by (apply first_pos_elem; exact Hin).
        rewrite (first_pos_app_r v y [v] Hnew). simpl. rewrite Qeq_bool_refl.
        pose proof (first_pos_elem _ _ Hin). lia.
Qed.

Lemma Counter_counted y : counted y (Counter y).
Proof.
  induction y as [| v y IH] using rev_ind.
  - split; [constructor |]. split; [| constructor].
    intros v Hv. inversion Hv.
  - rewrite Counter_snoc. apply counted_snoc. exact IH.
Qed.

(** [min]: the first entry of the table with the least count. *)
Lemma min_by_count_spec c m n :
  min_by_count c = Some (m, n) ->
  exists c1 c2, c = c1 ++ (m, n) :: c2 /\
    Forall (fun p => n < p.2) c1 /\ Forall (fun p => n <= p.2) c2.
Proof.
  revert m n. induction c as [| [u k] c IH]; simpl; intros m n Hm; [discriminate |].
  destruct (min_by_count c) as [[u' n'] |] eqn:E.
  - destruct (IH u' n' eq_refl) as (c1 & c2 & -> & H1 & H2).
    destruct (n' <? k)%nat eqn:Hlt; injection Hm as <- <-.
    + apply Nat.ltb_lt in Hlt. exists ((u, k) :: c1), c2.
      repeat split; [constructor; [exact Hlt | exact H1] | exact H2].
    + apply Nat.ltb_ge in Hlt. exists [], (c1 ++ (u', n') :: c2).
      repeat split; [constructor |].
      apply Forall_app. split; [| apply Forall_cons; split].
      * eapply Forall_impl; [exact H1 |]. simpl. intros; lia.
      * simpl. exact Hlt.
      * eapply Forall_impl; [exact H2 |]. simpl. intros; lia.
  - injection Hm as <- <-. destruct c as [| [u' n'] c].
    + exists [], []. repeat split; constructor.
    + simpl in E. destruct (min_by_count c) as [[? ?] |];
        [destruct (_ <? _)%nat |]; discriminate.
Qed.

Lemma min_by_count_nonempty c : c <> [] -> is_Some (min_by_count c).
Proof.
  destruct c as [| [u k] c]; [congruence |]. intros _. simpl.
  destruct (min_by_count c) as [[u' n'] |]; [destruct (_ <? _)%nat |]; eauto.
Qed.

(** The label that [min] picks from the counts of [y]. *)
Lemma minority_of_labels y m n :
  min_by_count (Counter y) = Some (m, n) ->
  m ∈ y /\ n = count_of m y /\
  (forall v, v ∈ y -> count_of m y <= count_of v y) /\
  (forall v, v ∈ y -> count_of v y = count_of m y ->
             first_pos m y <= first_pos v y).
Proof.
  intros Hmin. destruct (Counter_counted y) as (Hcnt & Hall & Hsort).
  apply min_by_count_spec in Hmin as (c1 & c2 & Hc & H1 & H2).
  rewrite Hc in Hcnt, Hall, Hsort.
  pose proof Hcnt as Hcnt'.
  apply Forall_app in Hcnt' as [Hcnt1 Hcnt2].
  apply Forall_cons in Hcnt2 as [[Hn Hm] Hcnt2]. simpl in Hn, Hm.
  assert (Hkey : forall v, v ∈ y ->
            (exists p, p ∈ c1 /\ Qeq_bool p.1 v = true /\ n < count_of v y) \/
            Qeq_bool m v = true \/
            (exists p, p ∈ c2 /\ Qeq_bool p.1 v = true /\ n <= count_of v y)).
  { intros v Hv. specialize (Hall v Hv).
    apply Exists_app in Hall as [Hall | Hall].
    - left. apply Exists_exists in Hall as (p & Hp & Hpv). exists p.
      repeat split; try assumption.
      rewrite Forall_forall in H1, Hcnt1. specialize (H1 p Hp).
      destruct (Hcnt1 p Hp) as [E _]. rewrite <- (count_of_Qeq _ _ y Hpv). lia.
    - apply Exists_cons in Hall as [Hall | Hall]; [right; left; exact Hall |].
      right. right. apply Exists_exists in Hall as (p & Hp & Hpv). exists p.
      repeat split; try assumption.
      rewrite Forall_forall in H2, Hcnt2. specialize (H2 p Hp).
      destruct (Hcnt2 p Hp) as [E _]. rewrite <- (count_of_Qeq _ _ y Hpv). lia. }
  split; [exact Hm |]. split; [exact Hn |]. split.
  - intros v Hv. rewrite <- Hn.
    destruct (Hkey v Hv) as [(p & _ & _ & Hlt) | [Hmv | (p & _ & _ & Hle)]];
      [lia | | lia].
    rewrite <- (count_of_Qeq _ _ y Hmv). lia.
  - intros v Hv Hsame. rewrite <- Hn in Hsame.
    destruct (Hkey v Hv) as [(p & _ & _ & Hlt) | [Hmv | (p & Hp & Hpv & _)]];
      [lia | |].
    + rewrite (first_pos_Qeq _ _ y Hmv). lia.
    + rewrite map_app in Hsort. simpl in Hsort.
      apply StronglySorted_app_1_r in Hsort.
      apply StronglySorted_inv in Hsort as [_ Hlater].
      rewrite Forall_forall in Hlater.
      specialize (Hlater p.1 ltac:(apply list_elem_of_fmap; eauto)).
      rewrite <- (first_pos_Qeq _ _ y Hpv). lia.
Qed.

Section MinorityLabel.
Context `{NumpyRandom} `{NeighborSearch} `{!Booster} `{Int64Cast}.
Import SMOTEBoost.

(** X5: when the caller names no minority label and [fit] reaches its loop,
    [self.minority_target] is a label of [y] that no other label of [y]
    occurs less often than. *)
Theorem fit_minority_least_frequent dt X0 y0 sw h l0 h0 :
  fit_init dt X0 y0 sw None h = (Ok l0, h0) ->
  exists m,
    minority_target (self h0) = Some m /\ m ∈ y0 /\
    forall v, v ∈ y0 -> count_of m y0 <= count_of v y0.
Proof.
  intros Hinit. apply fit_init_Ok in Hinit
    as (_ & _ & _ & _ & _ & _ & (m & Hm & c & Hmin) & _).
  exists m. split; [exact Hm |].
  apply minority_of_labels in Hmin as (Hin & _ & Hleast & _). auto.
Qed.

(** X6: among several least frequent labels, [min] over the counts (a
    dictionary in insertion order) settles on the one that occurs first in
    [y]: every label as rare as [self.minority_target] first occurs at or
    after the first occurrence of [self.minority_target]. *)
Theorem fit_minority_first_of_ties dt X0 y0 sw h l0 h0 :
  fit_init dt X0 y0 sw None h = (Ok l0, h0) ->
  exists m,
    minority_target (self h0) = Some m /\
    forall v, v ∈ y0 -> count_of v y0 = count_of m y0 ->
              first_pos m y0 <= first_pos v y0.
Proof.
  intros Hinit. apply fit_init_Ok in Hinit
    as (_ & _ & _ & _ & _ & _ & (m & Hm & c & Hmin) & _).
  exists m. split; [exact Hm |].
  apply minority_of_labels in Hmin as (_ & _ & _ & Hfirst). exact Hfirst.
Qed.

End MinorityLabel.
(** ** More on the rounds of [fit] *)

Section MoreRounds.
Context `{NumpyRandom} `{NeighborSearch} `{!Booster} `{Int64Cast}.
Import SMOTEBoost.

Lemma rounds_app k1 : forall i k2 l h,
  rounds i (k1 + k2) l h =
  match rounds i k1 l h with
  | Some (l', h') => rounds (i + k1) k2 l' h'
  | None => None
  end.
Proof.
  induction k1 as [| k1 IH]; intros i k2 l h; simpl.
  - rewrite Nat.add_0_r. reflexivity.
  - destruct (iteration i l h) as [[[X1 y1 | l'] | e] h']; try reflexivity.
    rewrite IH. replace (S i + k1) with (i + S k1) by lia. reflexivity.
Qed.

(** The slots from [i] on are at their defaults at the head of round [i]. *)
Lemma rounds_slots dt X0 y0 sw mt h l0 h0 i l hi :
  fit_init dt X0 y0 sw mt h = (Ok l0, h0) ->
  rounds 0 i l0 h0 = Some (l, hi) ->
  n_estimators (self h0) = n_estimators (self h) /\
  slots_default_from i (n_estimators (self h)) (self hi).
Proof.
  intros Hinit Hr.
  pose proof (fit_init_Ok _ _ _ _ _ _ _ _ Hinit)
    as (_ & _ & _ & _ & _ & Hcfg0 & _ & _ & Hws0 & Hes0).
  set (n := n_estimators (self h)) in *.
  split; [destruct Hcfg0 as (_ & E & _); exact E |].
  assert (HP0 : slots_default_from 0 n (self h0)).
  { exists (repeat 0%Q n), (repeat 1%Q n). rewrite !repeat_length.
    repeat split; try assumption; apply lookup_repeat; assumption. }
  change i with (0 + i).
  eapply (rounds_invariant (fun i _ h => slots_default_from i n (self h)));
    [| exact HP0 | exact Hr].
  intros. eapply iteration_slots; eauto.
Qed.

(** A round whose boosting step returns weights and whose tests say
    [break]: [fit] returns, with the round's slot written and the later
    slots at their defaults. *)
Lemma fit_breaks_after_record dt X0 y0 sw mt h l0 h0 i l hi l1 h1 w a e h2 :
  fit_init dt X0 y0 sw mt h = (Ok l0, h0) ->
  i < n_estimators (self h) ->
  rounds 0 i l0 h0 = Some (l, hi) ->
  augment l hi = (Ok l1, h1) ->
  boost i l1 h1 = (Ok (Some w, a, e), h2) ->
  after_boost i l1 (n_estimators (self h)) w e = Break (X l1) (y l1) ->
  exists hf ws es,
    fit dt X0 y0 sw mt h = (Ok tt, hf) /\
    estimators_ (self hf) = estimators_ (self h2) /\
    estimator_weights_ (self hf) = Some ws /\
    estimator_errors_ (self hf) = Some es /\
    ws !! i = Some a /\ es !! i = Some e /\
    forall j, i < j -> j < n_estimators (self h) ->
              ws !! j = Some 0%Q /\ es !! j = Some 1%Q.
Proof.
  intros Hinit Hi Hr Ha Hb Hab.
  destruct (rounds_slots _ _ _ _ _ _ _ _ _ _ _ Hinit Hr) as (Hn0 & HPi).
  set (n := n_estimators (self h)) in *.
  pose proof (rounds_config _ _ _ _ _ _ Hr) as (_ & Eni & _).
  assert (HP2 : slots_default_from i n (self h2) /\ n_estimators (self h2) = n).
  { pose proof Ha as Ha'.
    apply augment_Ok in Ha' as (X_syn & Hs & _).
    pose proof (smote_step_frame _ _ _ _ Hs) as ((_ & En1 & _) & _ & Ew1 & Ee1 & _).
    pose proof (boost_frame _ _ _ _ _ Hb) as ((_ & En2 & _) & _ & Ew2 & Ee2).
    split; [| congruence].
    destruct HPi as (ws & es & Hws & Hes & Hrest).
    exists ws, es. split; [congruence |]. split; [congruence | exact Hrest]. }
  destruct HP2 as ((ws & es & Hws & Hes & Hlw & Hle & Hdef) & En2).
  assert (Hrec : record i a e h2 = (Ok tt, with_self (recorded i a e) h2)).
  { apply (record_Ok _ _ _ _ ws es); congruence || lia. }
  assert (Hbs : boost_step i l1 h1 =
                (Ok (Break (X l1) (y l1)), with_self (recorded i a e) h2)).
  { rewrite boost_step_unfold, Hb, Hrec.
    replace (n_estimators (self (with_self (recorded i a e) h2))) with n;
      [rewrite Hab; reflexivity |].
    pose proof (record_frame i a e _ _ _ Hrec) as ((_ & E & _) & _). congruence. }
  destruct (recorded_slots i a e n (self h2))
    as (ws' & es' & Hws' & Hes' & _ & _ & Hwi & Hei & Hrest).
  { exists ws, es. auto. }
  { exact Hi. }
  exists (with_self (recorded i a e) h2), ws', es'.
  split.
  { rewrite (fit_via_loop _ _ _ _ _ _ _ _ Hinit), Hn0.
    replace n with (i + S (n - i - 1)) by lia.
    rewrite (rounds_boost_loop _ _ _ _ _ _ (S (n - i - 1)) Hr).
    change (0 + i) with i.
    rewrite boost_loop_S, (iteration_eq _ _ _ _ _ Ha), Hbs. reflexivity. }
  split.
  { pose proof (record_frame i a e _ _ _ Hrec) as (_ & _ & E). exact E. }
  simpl. repeat split; try assumption; apply Hrest; lia.
Qed.

(** X7: the third way out of the loop (lines 247-251).  When the weights
    that the boosting step of round [i] returns have a sum that is zero or
    negative, [fit] returns normally after that round: the round's learner
    weight and error are in slot [i], the later slots keep their defaults
    (weight 0, error 1), the learners are as the boosting step left them and
    no further round runs. *)
Theorem fit_stops_on_weight_sum dt X0 y0 sw mt h l0 h0 i l hi l1 h1 w a e h2 :
  fit_init dt X0 y0 sw mt h = (Ok l0, h0) ->
  i < n_estimators (self h) ->
  rounds 0 i l0 h0 = Some (l, hi) ->
  augment l hi = (Ok l1, h1) ->
  boost i l1 h1 = (Ok (Some w, a, e), h2) ->
  (Qsum w <= 0)%Q ->
  exists hf ws es,
    fit dt X0 y0 sw mt h = (Ok tt, hf) /\
    estimators_ (self hf) = estimators_ (self h2) /\
    estimator_weights_ (self hf) = Some ws /\
    estimator_errors_ (self hf) = Some es /\
    ws !! i = Some a /\ es !! i = Some e /\
    forall j, i < j -> j < n_estimators (self h) ->
              ws !! j = Some 0%Q /\ es !! j = Some 1%Q.
Proof.
  intros Hinit Hi Hr Ha Hb Hsum.
  eapply fit_breaks_after_record; eauto.
  unfold after_boost. apply Qle_bool_iff in Hsum. rewrite Hsum.
  destruct (Qeq_bool e 0); reflexivity.
Qed.

(** A slot written in round [i] is left alone by the later rounds. *)
Lemma rounds_keep_slot i a e k : forall j l h l' h' ws es,
  i < j ->
  estimator_weights_ (self h) = Some ws -> estimator_errors_ (self h) = Some es ->
  ws !! i = Some a -> es !! i = Some e ->
  rounds j k l h = Some (l', h') ->
  exists ws' es',
    estimator_weights_ (self h') = Some ws' /\
    estimator_errors_ (self h') = Some es' /\
    length ws' = length ws /\ length es' = length es /\
    ws' !! i = Some a /\ es' !! i = Some e.
Proof.
  induction k as [| k IH]; intros j l h l' h' ws es Hij Hws Hes Hwi Hei Hr;
    simpl in Hr.
  - injection Hr as <- <-. exists ws, es. repeat split; assumption || reflexivity.
  - destruct (iteration j l h) as [[[X1 y1 | l2] | e'] h2] eqn:Hit; try discriminate.
    apply iteration_Continue in Hit
      as (X_syn & h1 & l1 & w & a' & e'' & hb & Hs & Hm & Hb & Hrec & _).
    pose proof (smote_step_frame _ _ _ _ Hs) as (_ & _ & Ew1 & Ee1 & _).
    pose proof (boost_frame _ _ _ _ _ Hb) as (_ & _ & Ew2 & Ee2).
    apply record_inv in Hrec as (wsb & esb & Hwsb & Hesb & Hjw & Hje & ->).
    assert (wsb = ws) by congruence. assert (esb = es) by congruence. subst wsb esb.
    destruct (IH (S j) l2 (with_self (recorded j a' e'') hb) l' h'
                (<[j := a']> ws) (<[j := e'']> es))
      as (ws' & es' & K1 & K2 & K3 & K4 & K5 & K6);
      try assumption.
    + lia.
    + simpl. unfold recorded. rewrite Hwsb, Hesb. reflexivity.
    + simpl. unfold recorded. rewrite Hwsb, Hesb. reflexivity.
    + rewrite list_lookup_insert_ne by lia. exact Hwi.
    + rewrite list_lookup_insert_ne by lia. exact Hei.
    + exists ws', es'. rewrite !length_insert in *. repeat split; assumption.
Qed.

(** X8: a run in which no round stops early.  When all [n_estimators]
    rounds go on, [fit] returns normally after the last one, both arrays
    have [n_estimators] slots, and slot [i] of each holds what the boosting
    step answered in round [i]: no later round overwrites it. *)
Theorem fit_records_every_round dt X0 y0 sw mt h l0 h0 lf hf :
  fit_init dt X0 y0 sw mt h = (Ok l0, h0) ->
  rounds 0 (n_estimators (self h)) l0 h0 = Some (lf, hf) ->
  fit dt X0 y0 sw mt h = (Ok tt, hf) /\
  exists ws es,
    estimator_weights_ (self hf) = Some ws /\
    estimator_errors_ (self hf) = Some es /\
    length ws = n_estimators (self h) /\ length es = n_estimators (self h) /\
    forall i l hi l1 h1 ow a e h2,
      i < n_estimators (self h) ->
      rounds 0 i l0 h0 = Some (l, hi) ->
      augment l hi = (Ok l1, h1) ->
      boost i l1 h1 = (Ok (ow, a, e), h2) ->
      ws !! i = Some a /\ es !! i = Some e.
Proof.
  intros Hinit Hr.
  destruct (rounds_slots _ _ _ _ _ _ _ _ _ _ _ Hinit Hr) as (Hn0 & HPn).
  set (n := n_estimators (self h)) in *.
  split.
  { rewrite (fit_via_loop _ _ _ _ _ _ _ _ Hinit), Hn0.
    replace n with (n + 0) by lia.
    rewrite (rounds_boost_loop _ _ _ _ _ _ 0 Hr). reflexivity. }
  destruct HPn as (ws & es & Hws & Hes & Hlw & Hle & _).
  exists ws, es.
  split; [exact Hws |]. split; [exact Hes |].
  split; [exact Hlw |]. split; [exact Hle |].
  intros i l hi l1 h1 ow a e h2 Hi Hri Ha Hb.
  assert (Hsplit : n = i + S (n - i - 1)) by lia.
  rewrite Hsplit, rounds_app, Hri in Hr. simpl in Hr.
  rewrite (iteration_eq _ _ _ _ _ Ha), boost_step_unfold, Hb in Hr.
  destruct ow as [w |]; [| discriminate].
  destruct (record i a e h2) as [[[] | e'] h3] eqn:Hrec; [| discriminate].
  destruct (after_boost i l1 (n_estimators (self h3)) w e) as [X1 y1 | l2];
    [discriminate |].
  apply record_inv in Hrec as (ws2 & es2 & Hws2 & Hes2 & Hiw & Hie & ->).
  destruct (rounds_keep_slot i a e (n - i - 1) (S (0 + i)) l2
              (with_self (recorded i a e) h2) lf hf
              (<[i := a]> ws2) (<[i := e]> es2))
    as (ws' & es' & Hws' & Hes' & _ & _ & Hwi & Hei);
    [lia
    | simpl; unfold recorded; rewrite Hws2, Hes2; reflexivity
    | simpl; unfold recorded; rewrite Hws2, Hes2; reflexivity
    | apply list_lookup_insert_eq; exact Hiw
    | apply list_lookup_insert_eq; exact Hie
    | exact Hr |].
  split; congruence.
Qed.

End MoreRounds.
(** ** The first round, and the minority rows over the rounds *)

Lemma Forall_repeat {A} (P : A -> Prop) (x : A) n : P x -> Forall P (repeat x n).
Proof. intros Hx. induction n as [| n IH]; simpl; constructor; assumption. Qed.

Lemma inject_nat_plus a b :
  (inject_Z (Z.of_nat (a + b)) == inject_Z (Z.of_nat a) + inject_Z (Z.of_nat b))%Q.
Proof. rewrite Nat2Z.inj_add, inject_Z_plus. reflexivity. Qed.

Lemma length_concat_uniform {A} (bs : list (list A)) n :
  Forall (fun b => length b = n) bs -> length (concat bs) = length bs * n.
Proof.
  induction 1 as [| b bs Hb _ IH]; simpl; [reflexivity |].
  rewrite length_app, IH, Hb. reflexivity.
Qed.

Lemma minority_rows_none X0 y0 m :
  Forall (fun v => Qeq_bool v m = false) y0 -> minority_rows X0 y0 m = [].
Proof.
  intros Hall. unfold minority_rows.
  rewrite filter_none; [reflexivity |].
  intros [r v] Hp. simpl. rewrite Forall_forall in Hall.
  apply elem_of_zip_r in Hp. simpl in Hp. rewrite (Hall v Hp). discriminate.
Qed.

Section FirstRound.
Context `{NumpyRandom} `{NeighborSearch} `{!Booster} `{Int64Cast}.
Import SMOTEBoost.

(** X9: when no weights are supplied, the weights that go to the boosting
    step of round 0 are uniform over the augmented training set: there are
    [N + n_samples] of them, [N] being the number of rows of [X], and each
    is [1 / (N + n_samples)], the synthetic rows weighing as much as the
    original ones. *)
Theorem first_round_weights_uniform dt X0 y0 sw mt h l0 h0 l1 h1 :
  fit_init dt X0 y0 sw mt h = (Ok l0, h0) ->
  augment l0 h0 = (Ok l1, h1) ->
  length (sample_weight l1) = length X0 + n_samples (self h) /\
  Forall (fun x =>
            (x == 1 / inject_Z (Z.of_nat (length X0 + n_samples (self h))))%Q)
         (sample_weight l1).
Proof.
  intros Hinit Ha.
  pose proof (fit_init_Ok _ _ _ _ _ _ _ _ Hinit)
    as (_ & HN & _ & Hl0 & _ & Hcfg0 & _).
  apply augment_Ok in Ha as (X_syn & Hs & Hm).
  pose proof (smote_step_length _ _ _ _ Hs) as Hlen.
  assert (Hn : length X_syn = n_samples (self h)).
  { destruct Hcfg0 as (E0 & _). congruence. }
  set (N := length X0) in *. set (n := n_samples (self h)) in *.
  set (u := (1 / inject_Z (Z.of_nat N))%Q).
  assert (Hok : weights_ok l0).
  { rewrite Hl0. split; simpl.
    - apply Forall_repeat, inv_count_nonneg.
    - rewrite Qsum_repeat_uniform by exact HN. lra. }
  destruct (merge_weights_sum _ _ _ _ _ Hok Hm) as (Hw & _ & _).
  destruct (merged_weights_ok l0 (length X_syn) Hok) as (Hnn & _).
  pose proof (l1_norm_nonneg _ Hnn) as Hnorm.
  assert (Hmw : merged_weights l0 (length X_syn) = repeat u (N + n)).
  { unfold merged_weights. rewrite Hl0, Hn. simpl. fold N. fold u.
    rewrite repeat_app. reflexivity. }
  rewrite Hmw in Hw, Hnorm. rewrite Qsum_repeat in Hnorm.
  rewrite Hw. split.
  - rewrite length_map, repeat_length. reflexivity.
  - apply Forall_forall. intros x Hx.
    apply list_elem_of_fmap in Hx as (x0 & -> & Hx0).
    apply list_elem_of_In, repeat_spec in Hx0. subst x0.
    rewrite Hnorm. unfold u. rewrite inject_nat_plus.
    pose proof (inject_nat_pos N HN) as HNpos.
    assert (0 <= inject_Z (Z.of_nat n))%Q.
    { change 0%Q with (inject_Z 0). rewrite <- Zle_Qle. lia. }
    field. split; lra.
Qed.

(** A round that went on has converted the minority label to a 64-bit
    integer: the conversion of line 209 has raised nothing. *)
Lemma round_label_converted m k i l h l' h' :
  minority_target (self h) = Some m ->
  rounds i (S k) l h = Some (l', h') ->
  to_int64 m = Some (int64_of m).
Proof.
  intros Hmt Hr. simpl in Hr.
  destruct (iteration i l h) as [[[X1 y1 | l1] | e] h1] eqn:Hit; try discriminate.
  apply iteration_Continue in Hit
    as (X_syn & h2 & l2 & w & a & e & h3 & Hs & Hm & _).
  apply merge_Ok in Hm as (_ & m' & Hmt' & Hz & _).
  pose proof (smote_step_frame _ _ _ _ Hs) as [(_ & _ & _ & _ & E) _].
  assert (m' = m) as -> by congruence. exact Hz.
Qed.

(** X10: the minority rows over the rounds.  The minority label is settled
    before the loop and is the same at the head of every round, however
    many rows of that label the rounds have added.  When it is an integer of
    the 64-bit range, the rows that the sampler of round [i] is fitted to
    are the minority rows of the data passed to [fit] followed by every
    synthetic row of the rounds before, [i * n_samples] of them: synthetic
    rows are bases and neighbours of later synthetic rows.  When it is not
    such an integer, the synthetic rows carry another label, whatever the
    conversion of line 209 makes of the minority label, and the sampler of
    every round is fitted to the minority rows of the data passed to [fit]
    alone. *)
Theorem minority_rows_over_rounds dt X0 y0 sw mt h l0 h0 m i l hi :
  fit_init dt X0 y0 sw mt h = (Ok l0, h0) ->
  minority_target (self h0) = Some m ->
  rounds 0 i l0 h0 = Some (l, hi) ->
  minority_target (self hi) = Some m /\
  (int64_label m ->
     minority_rows (X l) (y l) m =
       minority_rows X0 y0 m ++ concat (batches 0 i l0 h0) /\
     length (minority_rows (X l) (y l) m) =
       length (minority_rows X0 y0 m) + i * n_samples (self h)) /\
  (~ int64_label m ->
     minority_rows (X l) (y l) m = minority_rows X0 y0 m).
Proof.
  intros Hinit Hmt Hr.
  split.
  { pose proof (rounds_config _ _ _ _ _ _ Hr) as (_ & _ & _ & _ & Em). congruence. }
  pose proof (fit_init_Ok _ _ _ _ _ _ _ _ Hinit)
    as (_ & _ & Hlen0 & Hl0 & _ & Hcfg0 & _).
  destruct (rounds_batches m i 0 l0 h0 l hi Hmt Hr) as (Hk & Hall & HX & Hy).
  assert (HX0 : X l0 = X0) by (rewrite Hl0; reflexivity).
  assert (Hy0 : y l0 = y0) by (rewrite Hl0; reflexivity).
  rewrite HX0 in HX. rewrite Hy0 in Hy.
  rewrite HX, Hy, minority_rows_app by congruence.
  split.
  - intros Hint. apply to_int64_label in Hint as [Hz Heq].
    rewrite (int64_of_Some _ _ Hz).
    apply Qeq_bool_iff in Heq.
    rewrite (minority_rows_same _ _ _ Heq).
    split; [reflexivity |]. rewrite length_app. f_equal.
    destruct Hcfg0 as (E0 & _).
    rewrite (length_concat_uniform _ _ Hall). f_equal; [exact Hk | exact E0].
  - intros Hnot.
    destruct i as [| i]; [simpl; apply app_nil_r |].
    pose proof (round_label_converted _ _ _ _ _ _ _ Hmt Hr) as Hz.
    pose proof (to_int64_other _ _ Hnot Hz) as Hne.
    destruct (Qeq_bool (inject_Z (int64_of m)) m) eqn:Heq.
    + exfalso. apply Hne. apply Qeq_bool_iff. exact Heq.
    + rewrite (minority_rows_other _ _ _ _ Heq). apply app_nil_r.
Qed.

(** X11: a minority label given by the caller is taken as it is.  When it
    is the label of no row, the first round has no minority rows to fit the
    sampler to: [fit] raises the [ValueError] of the neighbour index on an
    empty array, the ensemble being empty (no learner, every slot at its
    default). *)
Theorem fit_override_absent dt X0 y0 sw m h l0 h0 :
  fit_init dt X0 y0 sw (Some m) h = (Ok l0, h0) ->
  Forall (fun v => Qeq_bool v m = false) y0 ->
  0 < n_estimators (self h) ->
  exists hf,
    fit dt X0 y0 sw (Some m) h =
      (Raise (ValueError "Found array with 0 sample(s)"), hf) /\
    minority_target (self hf) = Some m /\
    estimators_ (self hf) = Some [] /\
    estimator_weights_ (self hf) = Some (repeat 0%Q (n_estimators (self h))) /\
    estimator_errors_ (self hf) = Some (repeat 1%Q (n_estimators (self h))).
Proof.
  intros Hinit Hnone Hn.
  pose proof (fit_init_Ok _ _ _ _ _ _ _ _ Hinit)
    as (_ & _ & _ & Hl0 & _ & Hcfg0 & (m' & Hmt & ->) & Hest & Hws & Hes).
  assert (Hmin : minority_rows (X l0) (y l0) m = []).
  { rewrite Hl0. simpl. apply minority_rows_none. exact Hnone. }
  destruct (smote_step l0 h0) as [o hf] eqn:Hs.
  assert (Ho : o = Raise (ValueError "Found array with 0 sample(s)")).
  { revert Hs. unfold smote_step, get_self.
    unfold bind at 1. unfold bind at 1. rewrite Hmt. simpl.
    rewrite Hmin. unfold bind at 1. unfold on_smote, zoom. simpl.
    intros Hs. injection Hs as <- _. reflexivity. }
  subst o. exists hf.
  pose proof (smote_step_frame _ _ _ _ Hs)
    as ((_ & _ & _ & _ & Emt) & Ee & Ew & Er & _).
  split.
  - rewrite (fit_via_loop _ _ _ _ _ _ _ _ Hinit).
    destruct Hcfg0 as (_ & En & _). rewrite En.
    destruct (n_estimators (self h)) as [| n]; [lia |].
    rewrite boost_loop_S, (iteration_smote_Raise _ _ _ _ _ Hs). reflexivity.
  - repeat split; congruence.
Qed.

End FirstRound.
(** ** The exceptions of [fit] *)

(** The exceptions of code that reads an attribute before it is assigned,
    indexes an array out of its bounds, queries a neighbour index that was
    not fitted, or lets a non-finite number through. *)
Definition internal_error (e : exn) : bool :=
  match e with
  | AttributeError _ | IndexError _ | NotFittedError _ | NonFinite _ => true
  | ValueError _ | NameError _ | OverflowError _ | RaisedBy _ _ => false
  end.

(** [raises_only P m]: every exception that a run of [m] ends with
    satisfies [P]. *)
Definition raises_only {S A} (P : exn -> Prop) (m : M S A) : Prop :=
  forall s e s', m s = (Raise e, s') -> P e.

Lemma raises_only_bind {S A B} P (m : M S A) (f : A -> M S B) :
  raises_only P m -> (forall a, raises_only P (f a)) -> raises_only P (bind m f).
Proof.
  intros Hm Hf s e s' Hr.
  apply bind_Raise in Hr as [Hr | (a & s1 & _ & Hr)]; [eapply Hm | eapply Hf]; eauto.
Qed.

Lemma raises_only_ret {S A} P (a : A) : raises_only P (@ret S A a).
Proof. intros s e s' Hr. discriminate. Qed.

Lemma raises_only_modify {S} P (f : S -> S) : raises_only P (modify f).
Proof. intros s e s' Hr. discriminate. Qed.

Lemma raises_only_raise {S A} (P : exn -> Prop) e : P e -> raises_only P (@raise S A e).
Proof. intros He s e' s' Hr. injection Hr as <- _. exact He. Qed.

Lemma np_index_in_range {S} X0 j (s : S) :
  (0 <= j < Z.of_nat (length X0))%Z ->
  np_index X0 j s = (Ok (row X0 (Z.to_nat j)), s).
Proof.
  intros Hj. unfold np_index.
  assert ((j <? 0)%Z = false) as -> by (apply Z.ltb_ge; lia).
  assert (((0 <=? j) && (j <? Z.of_nat (length X0)))%Z = true) as ->.
  { apply andb_true_iff. split; [apply Z.leb_le | apply Z.ltb_lt]; lia. }
  reflexivity.
Qed.

Section SamplerExceptions.
Context `{NumpyRandom} `{NeighborSearch}.

(** On a fitted sampler every exception of [sample] is a [ValueError]:
    the indices drawn are in range. *)
Lemma sample_row_fitted_raises sm d X0 :
  raises_only (fun e => internal_error e = false) (SMOTE.sample_row (fitted sm d X0)).
Proof.
  intros p e p' Hr. unfold SMOTE.sample_row in Hr. simpl in Hr.
  apply bind_Raise in Hr as [Hr | (X1 & p1 & HX & Hr)]; [discriminate |].
  injection HX as <- <-.
  apply bind_Raise in Hr as [Hr | (d1 & p1 & Hd & Hr)]; [discriminate |].
  injection Hd as <- <-.
  apply bind_Raise in Hr as [Hr | (j & p2 & Hj & Hr)].
  { unfold np_random_randint in Hr. destruct (_ <? _)%Z.
    - destruct (randint _ _ _). discriminate.
    - injection Hr as <- _. reflexivity. }
  apply np_random_randint_Ok in Hj. unfold n_rows in Hj.
  rewrite (bind_eq_Ok _ _ _ _ _ (np_index_in_range X0 j p2 Hj)) in Hr.
  apply bind_Raise in Hr as [Hr | (nb & p3 & Hnb & Hr)]; [discriminate |].
  injection Hnb as <- <-.
  apply bind_Raise in Hr as [Hr | (nn & p3 & Hnn & Hr)].
  { unfold pure_outcome, NearestNeighbors.kneighbors in Hr. simpl in Hr.
    destruct (_ <=? _)%nat; [discriminate |]. injection Hr as <- _. reflexivity. }
  unfold pure_outcome, NearestNeighbors.kneighbors in Hnn. simpl in Hnn.
  destruct (_ <=? _)%nat; [| discriminate]. injection Hnn as <- <-.
  apply bind_Raise in Hr as [Hr | (x & p3 & Hx & Hr)].
  { unfold np_random_choice in Hr. destruct (tail _).
    - injection Hr as <- _. reflexivity.
    - destruct (choice _ _). discriminate. }
  apply np_random_choice_Ok, elem_of_tail_1, nearest_bound in Hx.
  rewrite (bind_eq_Ok _ _ _ _ _ (np_index_in_range X0 (Z.of_nat x) p3 ltac:(lia))) in Hr.
  apply bind_Raise in Hr as [Hr | (gap & p4 & _ & Hr)]; [| discriminate].
  unfold np_random_random in Hr. destruct (random_sample _). discriminate.
Qed.

Lemma sample_rows_fitted_raises sm d X0 n :
  raises_only (fun e => internal_error e = false) (SMOTE.sample_rows (fitted sm d X0) n).
Proof.
  induction n as [| n IH]; simpl; [apply raises_only_ret |].
  apply raises_only_bind; [apply sample_row_fitted_raises |]. intros r.
  apply raises_only_bind; [exact IH |]. intros rest. apply raises_only_ret.
Qed.

Lemma sample_fitted_raises sm d X0 n :
  raises_only (fun e => internal_error e = false) (SMOTE.sample (fitted sm d X0) n).
Proof.
  unfold SMOTE.sample. apply raises_only_bind.
  { intros p e p' Hr. unfold np_random_seed in Hr.
    destruct (SMOTE.random_state _) as [s |].
    - destruct (_ && _); [discriminate |]. injection Hr as <- _. reflexivity.
    - destruct (seed_os _). discriminate. }
  intros _. simpl. apply raises_only_bind; [apply raises_only_ret |].
  intros _. apply sample_rows_fitted_raises.
Qed.

End SamplerExceptions.

Section FitExceptions.
Context `{NumpyRandom} `{NeighborSearch} `{!Booster} `{Int64Cast}.
Import SMOTEBoost.

(** What the loop relies on, and [fit] has set up when the loop is
    entered: the minority label, the list of learners, and the two arrays
    with a slot for every round. *)
Definition ready (h : Heap) : Prop :=
  is_Some (minority_target (self h)) /\ is_Some (estimators_ (self h)) /\
  exists ws es,
    estimator_weights_ (self h) = Some ws /\ estimator_errors_ (self h) = Some es /\
    n_estimators (self h) <= length ws /\ n_estimators (self h) <= length es.

Lemma smote_step_raises l h :
  is_Some (minority_target (self h)) ->
  forall e h1, smote_step l h = (Raise e, h1) -> internal_error e = false.
Proof.
  intros [m Hm] e h1 Hs. unfold smote_step, get_self in Hs.
  unfold bind at 1 in Hs. rewrite Hm in Hs. unfold bind at 1 in Hs. simpl in Hs.
  apply bind_Raise in Hs as [Hs | (u & h2 & Hfit & Hs)].
  - unfold on_smote, zoom in Hs.
    destruct (SMOTE.fit _ _) as [o sm] eqn:E. injection Hs as Ho _. subst o.
    unfold SMOTE.fit in E.
    destruct (NearestNeighbors.fit _ _) as [o' nn] eqn:E'.
    injection E as Ho' _. subst o'.
    unfold NearestNeighbors.fit in E'.
    destruct (minority_rows _ _ _) as [| r ?]; [injection E' as <- _; reflexivity |].
    destruct (length r =? 0)%nat; [injection E' as <- _; reflexivity | discriminate].
  - unfold on_smote, zoom in Hfit.
    destruct (SMOTE.fit _ _) as [o sm] eqn:E. injection Hfit as Ho <-. subst o.
    apply smote_fit_inv in E as (_ & _ & ->).
    unfold bind at 1 in Hs. simpl in Hs. unfold on_process, zoom in Hs. simpl in Hs.
    destruct (SMOTE.sample _ _ _) as [o' p'] eqn:E'. injection Hs as Ho _. subst o'.
    eapply sample_fitted_raises. exact E'.
Qed.

Lemma merge_raises l X_syn h :
  is_Some (minority_target (self h)) ->
  forall e h1, merge l X_syn h = (Raise e, h1) -> internal_error e = false.
Proof.
  intros [m Hm] e h1 Hs. unfold merge, get_self in Hs.
  unfold bind at 1 in Hs. rewrite Hm in Hs. unfold bind at 1 in Hs. simpl in Hs.
  apply bind_Raise in Hs as [Hs | (ys & h2 & _ & Hs)].
  - unfold np_full_int64 in Hs. destruct (to_int64 _); [discriminate |].
    injection Hs as <- _. reflexivity.
  - apply bind_Raise in Hs as [Hs | (w & h3 & _ & Hs)]; [| discriminate].
    unfold normalize_l1 in Hs. destruct (_ ++ _); [| discriminate].
    injection Hs as <- _. reflexivity.
Qed.

Lemma boost_raises i l h e h1 :
  is_Some (estimators_ (self h)) ->
  boost i l h = (Raise e, h1) -> internal_error e = false.
Proof.
  intros [ests Hests]. unfold boost. rewrite Hests.
  destruct (_boost _ _ _ _ _) as [[msg | v] env']; [| discriminate].
  intros Hb. injection Hb as <- _. reflexivity.
Qed.

Lemma boost_keeps_learners i l h o h1 :
  boost i l h = (o, h1) -> is_Some (estimators_ (self h)) ->
  is_Some (estimators_ (self h1)).
Proof.
  intros Hb [ests Hests]. unfold boost in Hb. rewrite Hests in Hb.
  destruct (_boost _ _ _ _ _) as [[msg | v] env'];
    injection Hb as _ <-; simpl; eauto.
Qed.

Lemma ready_after_augment l h X_syn h1 :
  ready h -> smote_step l h = (Ok X_syn, h1) -> ready h1.
Proof.
  intros (Hm & He & ws & es & Hws & Hes & Hlw & Hle) Hs.
  pose proof (smote_step_frame _ _ _ _ Hs)
    as ((_ & En & _ & _ & Em) & Ee & Ew & Er & _).
  split; [rewrite Em; exact Hm |]. split; [rewrite Ee; exact He |].
  exists ws, es. rewrite En. repeat split; congruence || assumption.
Qed.

Lemma ready_after_boost i l h o h1 :
  ready h -> boost i l h = (o, h1) -> ready h1.
Proof.
  intros (Hm & He & ws & es & Hws & Hes & Hlw & Hle) Hb.
  pose proof (boost_frame _ _ _ _ _ Hb) as ((_ & En & _ & _ & Em) & _ & Ew & Er).
  split; [rewrite Em; exact Hm |].
  split; [eapply boost_keeps_learners; eauto |].
  exists ws, es. rewrite En. repeat split; congruence || assumption.
Qed.

Lemma ready_after_record i a e h :
  ready h -> i < n_estimators (self h) ->
  record i a e h = (Ok tt, with_self (recorded i a e) h) /\
  ready (with_self (recorded i a e) h).
Proof.
  intros (Hm & He & ws & es & Hws & Hes & Hlw & Hle) Hi.
  assert (Hrec : record i a e h = (Ok tt, with_self (recorded i a e) h)).
  { apply (record_Ok _ _ _ _ ws es); assumption || lia. }
  split; [exact Hrec |].
  pose proof (record_frame i a e _ _ _ Hrec) as ((_ & En & _ & _ & Em) & _ & Ee).
  split; [rewrite Em; exact Hm |]. split; [rewrite Ee; exact He |].
  exists (<[i := a]> ws), (<[i := e]> es). rewrite En, !length_insert.
  simpl. unfold recorded. rewrite Hws, Hes. simpl. repeat split; assumption.
Qed.

(** One round from a heap that is ready: it raises no internal error, and
    the heap is ready for the next round. *)
Lemma iteration_ready i l h o h' :
  ready h -> i < n_estimators (self h) ->
  iteration i l h = (o, h') ->
  match o with
  | Raise e => internal_error e = false
  | Ok _ => ready h' /\ n_estimators (self h') = n_estimators (self h)
  end.
Proof.
  intros Hready Hi Hit.
  pose proof (iteration_config _ _ _ _ _ Hit) as (_ & En & _).
  unfold iteration, augment in Hit.
  destruct (smote_step l h) as [[X_syn | e1] h1] eqn:Hs.
  2:{ rewrite (bind_eq_Raise _ _ _ _ _ (bind_eq_Raise _ _ _ _ _ Hs)) in Hit.
      injection Hit as <- _. eapply smote_step_raises; [apply Hready | exact Hs]. }
  pose proof (ready_after_augment _ _ _ _ Hready Hs) as Hready1.
  pose proof (smote_step_frame _ _ _ _ Hs) as ((_ & En1 & _) & _).
  destruct (merge l X_syn h1) as [[l1 | e1] hm] eqn:Hm.
  2:{ rewrite (bind_eq_Raise _ _ _ _ _
                 (eq_trans (bind_eq_Ok _ _ _ _ _ Hs) Hm)) in Hit.
      injection Hit as <- _. eapply merge_raises; [apply Hready1 | exact Hm]. }
  pose proof (merge_Ok _ _ _ _ _ Hm) as (-> & _).
  rewrite (bind_eq_Ok _ _ _ _ _ (eq_trans (bind_eq_Ok _ _ _ _ _ Hs) Hm)) in Hit.
  rewrite boost_step_unfold in Hit.
  destruct (boost i l1 h1) as [[[[ow a] e] | e1] h2] eqn:Hb.
  2:{ injection Hit as <- _. eapply boost_raises; [apply Hready1 | exact Hb]. }
  pose proof (ready_after_boost _ _ _ _ _ Hready1 Hb) as Hready2.
  pose proof (boost_frame _ _ _ _ _ Hb) as ((_ & En2 & _) & _).
  destruct ow as [w |].
  - assert (Hi2 : i < n_estimators (self h2)) by lia.
    destruct (ready_after_record i a e h2 Hready2 Hi2) as (Hrec & Hready3).
    rewrite Hrec in Hit. injection Hit as <- <-. split; [exact Hready3 | exact En].
  - injection Hit as <- <-. split; [exact Hready2 | exact En].
Qed.

Lemma boost_loop_raises todo : forall i l h e h',
  ready h -> i + todo <= n_estimators (self h) ->
  boost_loop i todo l h = (Raise e, h') -> internal_error e = false.
Proof.
  induction todo as [| todo IH]; intros i l h e h' Hready Hi Hloop.
  - discriminate.
  - rewrite boost_loop_S in Hloop.
    assert (Hlt : i < n_estimators (self h)) by lia.
    destruct (iteration i l h) as [[[X1 y1 | l1] | e1] h1] eqn:Hit.
    + discriminate.
    + pose proof (iteration_ready _ _ _ _ _ Hready Hlt Hit) as (Hready1 & En).
      eapply (IH (S i)); [exact Hready1 | lia | exact Hloop].
    + injection Hloop as <- _.
      apply (iteration_ready _ _ _ _ _ Hready Hlt Hit).
Qed.

Lemma fit_init_raises dt X0 y0 sw mt :
  raises_only (fun e => internal_error e = false) (fit_init dt X0 y0 sw mt).
Proof.
  unfold fit_init, get_self. intros h e h' Hr.
  unfold bind at 1 in Hr.
  destruct (Qle_bool _ 0); [injection Hr as <- _; reflexivity |].
  cbv zeta in Hr. revert Hr. generalize (checked_dtype (self h) dt).
  intros d1 Hr. revert h e h' Hr.
  change (raises_only (fun e => internal_error e = false)
    (Xy <- check_X_y X0 y0 ;;
     let '(X0, y0) := Xy in
     sample_weight <- initial_weights X0 sw ;;
     (match mt with
      | None =>
          match min_by_count (Counter y0) with
          | Some (min_c_, _) => modify (with_self (set_minority_target min_c_))
          | None => raise (ValueError "min() arg is an empty sequence")
          end
      | Some m => modify (with_self (set_minority_target m))
      end) ;;
     validate_estimator ;;
     modify (with_self (set_estimators_ [])) ;;
     s <- (fun h => (Ok (self h), h)) ;;
     modify (with_self (set_estimator_weights_ (repeat 0%Q (n_estimators s)))) ;;
     modify (with_self (set_estimator_errors_ (repeat 1%Q (n_estimators s)))) ;;
     check_random_state (random_state s) ;;
     ret {| X := X0; X_dtype := d1; y := y0; sample_weight := sample_weight |})).
  apply raises_only_bind.
  { intros h e h' Hr. unfold check_X_y in Hr.
    destruct X0 as [| r X0]; [injection Hr as <- _; reflexivity |].
    destruct (negb _); [injection Hr as <- _; reflexivity |].
    destruct (length r =? 0)%nat; [injection Hr as <- _; reflexivity |].
    destruct (negb _); [injection Hr as <- _; reflexivity | discriminate]. }
  intros [X1 y1]. apply raises_only_bind.
  { intros h e h' Hr. destruct sw as [w |]; [| discriminate].
    rewrite initial_weights_supplied in Hr. injection Hr as <- _. reflexivity. }
  intros w. apply raises_only_bind.
  { destruct mt as [m |]; [apply raises_only_modify |].
    destruct (min_by_count _) as [[m c] |];
      [apply raises_only_modify | apply raises_only_raise; reflexivity]. }
  intros _. apply raises_only_bind.
  { intros h e h' Hr. unfold validate_estimator in Hr.
    destruct (_validate_estimator _ _) as [[msg | u] b]; [| discriminate].
    injection Hr as <- _. reflexivity. }
  intros _. apply raises_only_bind; [apply raises_only_modify |].
  intros _. apply raises_only_bind; [intros h e h' Hr; discriminate |].
  intros s. apply raises_only_bind; [apply raises_only_modify |].
  intros _. apply raises_only_bind; [apply raises_only_modify |].
  intros _. apply raises_only_bind; [| intros _; apply raises_only_ret].
  unfold check_random_state. destruct (random_state s) as [sd |];
    [| apply raises_only_modify].
  destruct (_ && _); [apply raises_only_modify | apply raises_only_raise; reflexivity].
Qed.

(** X12: on arguments of the kinds the classifier is made for (numeric
    arrays; [random_state] [None] or an integer; [n_samples],
    [n_estimators] and [k_neighbors] natural numbers; [learning_rate] a
    number), whatever their values and the state of the classifier it is
    called on, [fit] never fails for a reason internal to it: it never
    raises [AttributeError] (every attribute it reads, of the classifier and
    of its sampler, has been assigned by then), never [IndexError] (the row
    indices drawn in [sample] and the slot index [iboost] are in range) and
    never the error of a neighbour index queried before it is fitted.  Every
    exception of [fit] on such arguments is a [ValueError], the [NameError]
    of line 175, the [OverflowError] of the label conversion, or comes out
    of the inherited boosting code.  Arguments of other kinds (a
    [RandomState] instance as [random_state], a [float] as [n_samples]) are
    not covered. *)
Theorem fit_no_internal_error dt X0 y0 sw mt h e h' :
  fit dt X0 y0 sw mt h = (Raise e, h') -> internal_error e = false.
Proof.
  intros Hfit.
  destruct (fit_init dt X0 y0 sw mt h) as [[l0 | e0] h0] eqn:Hinit.
  - rewrite (fit_via_loop _ _ _ _ _ _ _ _ Hinit) in Hfit.
    destruct (boost_loop 0 (n_estimators (self h0)) l0 h0) as [[r | e1] hf] eqn:Hloop;
      [discriminate |].
    injection Hfit as <- _.
    apply fit_init_Ok in Hinit
      as (_ & _ & _ & _ & _ & (_ & En & _) & (m & Hm & _) & Hest & Hws & Hes).
    eapply boost_loop_raises; [| | exact Hloop]; [| lia].
    split; [eauto |]. split; [eauto |].
    exists (repeat 0%Q (n_estimators (self h))), (repeat 1%Q (n_estimators (self h))).
    rewrite !repeat_length, En. repeat split; assumption || lia.
  - unfold fit, fit_locals in Hfit.
    rewrite (bind_eq_Raise _ _ _ _ _ (bind_eq_Raise _ _ _ _ _ Hinit)) in Hfit.
    injection Hfit as <- _. eapply fit_init_raises. exact Hinit.
Qed.

End FitExceptions.
(** ** The width of the training set *)

(** Every row of [X0] has [d] features. *)
Definition width (d : nat) (X0 : matrix) : Prop :=
  Forall (fun r => length r = d) X0.

Lemma check_X_y_width {S} X0 y0 (s : S) Xy s' :
  check_X_y X0 y0 s = (Ok Xy, s') -> 0 < n_cols X0 /\ width (n_cols X0) X0.
Proof.
  unfold check_X_y. destruct X0 as [| r X0]; [discriminate |].
  destruct (forallb _ _) eqn:Hall; simpl; [| discriminate].
  destruct (length r =? 0)%nat eqn:Hr; [discriminate |].
  intros _. apply Nat.eqb_neq in Hr. split; [lia |].
  apply Forall_forall. intros r' Hr'.
  rewrite forallb_forall in Hall. apply Nat.eqb_eq. apply Hall.
  apply list_elem_of_In. exact Hr'.
Qed.

Lemma minority_rows_subset X0 y0 m r :
  r ∈ minority_rows X0 y0 m -> r ∈ X0.
Proof.
  unfold minority_rows. intros Hr.
  apply list_elem_of_fmap in Hr as ([r' v] & -> & Hp).
  apply list_elem_of_filter in Hp as [_ Hp]. apply elem_of_zip_l in Hp. exact Hp.
Qed.

Lemma width_row d X0 j : width d X0 -> j < length X0 -> length (row X0 j) = d.
Proof.
  intros Hw Hj. unfold row.
  destruct (X0 !! j) as [r |] eqn:Hr; simpl.
  - unfold width in Hw. rewrite Forall_forall in Hw. apply Hw.
    eapply list_elem_of_lookup_2. exact Hr.
  - apply lookup_ge_None in Hr. exfalso. apply (Nat.lt_irrefl j).
    eapply Nat.lt_le_trans; [exact Hj | exact Hr].
Qed.

Section Width.
Context `{NumpyRandom} `{NeighborSearch} `{!Booster} `{Int64Cast}.
Import SMOTEBoost.

Lemma fit_init_checked dt X0 y0 sw mt h l0 h0 :
  fit_init dt X0 y0 sw mt h = (Ok l0, h0) ->
  0 < n_cols X0 /\ width (n_cols X0) X0.
Proof.
  intros Hf. unfold fit_init in Hf.
  apply bind_Ok in Hf as (s & h1 & Hs & Hf).
  unfold get_self in Hs. injection Hs as <- <-.
  destruct (Qle_bool (learning_rate (self h)) 0); [discriminate |].
  apply bind_Ok in Hf as (Xy & h1 & Hc & _).
  eapply check_X_y_width. exact Hc.
Qed.

(** The rows that [sample] makes from rows of width [d] have width [d]. *)
Lemma sample_width d sm dt X0 n p S p' :
  width d X0 ->
  SMOTE.sample (fitted sm dt X0) n p = (Ok S, p') -> width d S.
Proof.
  intros Hw Hs. apply sample_Ok_rows in Hs as (p1 & Hs).
  eapply sample_rows_Forall; [| exact Hs].
  intros q s q' Hrow.
  apply sample_row_Ok in Hrow as (j & nb & gap & Hj & _ & Hnb & _ & _ & ->).
  apply elem_of_tail_1, nearest_bound in Hnb.
  unfold vadd, vscale, vsub_in.
  rewrite length_zip_with, length_map, length_zip_with.
  rewrite !(width_row d X0) by assumption. lia.
Qed.

Lemma smote_step_width d l h X_syn h1 :
  width d (X l) -> smote_step l h = (Ok X_syn, h1) -> width d X_syn.
Proof.
  intros Hw Hs. apply smote_step_Ok in Hs as (m & p' & _ & Hs).
  eapply sample_width; [| exact Hs].
  apply Forall_forall. intros r Hr. apply minority_rows_subset in Hr.
  unfold width in Hw. rewrite Forall_forall in Hw. auto.
Qed.

Lemma fit_keeps_width_rows dt X0 y0 sw mt h l0 h0 i l hi :
  fit_init dt X0 y0 sw mt h = (Ok l0, h0) ->
  rounds 0 i l0 h0 = Some (l, hi) ->
  width (n_cols X0) (X l).
Proof.
  intros Hinit Hr.
  destruct (fit_init_checked _ _ _ _ _ _ _ _ Hinit) as (Hpos & Hw0).
  pose proof (fit_init_Ok _ _ _ _ _ _ _ _ Hinit) as (_ & _ & _ & Hl0 & _).
  assert (Hstep : forall j lj hj l' h',
            width (n_cols X0) (X lj) ->
            iteration j lj hj = (Ok (Continue l'), h') ->
            width (n_cols X0) (X l')).
  { intros j lj hj l' h' Hwj Hit.
    apply iteration_Ok in Hit as (X_syn & h1 & l1 & Hs & Hm & HX & _).
    simpl in HX. rewrite HX.
    apply merge_Ok in Hm as (_ & _ & _ & _ & -> & _).
    apply Forall_app. split; [exact Hwj |]. eapply smote_step_width; eauto. }
  apply (rounds_invariant (fun _ l _ => width (n_cols X0) (X l))
           Hstep i 0 l0 h0 l hi); [| exact Hr].
  rewrite Hl0. exact Hw0.
Qed.

(** X13: the training set stays a 2-D array of the width of [X].  At the
    head of every round each row of the training set, original or
    synthetic, has as many features as the rows of the [X] passed to [fit]
    (at least one), and so has every synthetic row that the round's SMOTE
    step returns: the stacking of line 214 never meets rows of another
    width. *)
Theorem fit_keeps_width dt X0 y0 sw mt h l0 h0 i l hi :
  fit_init dt X0 y0 sw mt h = (Ok l0, h0) ->
  rounds 0 i l0 h0 = Some (l, hi) ->
  0 < n_cols X0 /\
  width (n_cols X0) (X l) /\
  forall X_syn h1,
    smote_step l hi = (Ok X_syn, h1) -> width (n_cols X0) X_syn.
Proof.
  intros Hinit Hr.
  destruct (fit_init_checked _ _ _ _ _ _ _ _ Hinit) as (Hpos & Hw0).
  pose proof (fit_init_Ok _ _ _ _ _ _ _ _ Hinit) as (_ & _ & _ & Hl0 & _).
  split; [exact Hpos |].
  assert (Hw : width (n_cols X0) (X l)).
  { assert (Hstep : forall j lj hj l' h',
              width (n_cols X0) (X lj) ->
              iteration j lj hj = (Ok (Continue l'), h') ->
              width (n_cols X0) (X l')).
    { intros j lj hj l' h' Hwj Hit.
      apply iteration_Ok in Hit as (X_syn & h1 & l1 & Hs & Hm & HX & _).
      simpl in HX. rewrite HX.
      apply merge_Ok in Hm as (_ & _ & _ & _ & -> & _).
      apply Forall_app. split; [exact Hwj |]. eapply smote_step_width; eauto. }
    apply (rounds_invariant (fun _ l _ => width (n_cols X0) (X l))
             Hstep i 0 l0 h0 l hi); [| exact Hr].
    rewrite Hl0. exact Hw0. }
  split; [exact Hw |].
  intros X_syn h1 Hs. eapply smote_step_width; eauto.
Qed.

End Width.
(** ** The batches of a seeded run *)

Section SeededBatches.
Context `{NumpyRandom} `{NeighborSearch} `{!Booster} `{Int64Cast}.
Import SMOTEBoost.

(** With an integer seed, what [sample] returns does not depend on the
    state of the process. *)
Lemma sample_result_seeded sm n s p p' :
  SMOTE.random_state sm = Some s ->
  fst (SMOTE.sample sm n p) = fst (SMOTE.sample sm n p').
Proof.
  intros Hs. rewrite !sample_unfold, Hs.
  destruct (np_random_seed_restarts s p p') as [Ho Hg].
  destruct (np_random_seed (Some s) p) as [[[] | e] p1],
           (np_random_seed (Some s) p') as [[[] | e'] p1'];
    simpl in Ho, Hg; try discriminate.
  - destruct (Hg eq_refl) as [Hg1 Hg2].
    assert (Hp : np_random p1 = np_random p1') by congruence.
    apply (stream_only_bind
             (attr "n_features" (SMOTE.n_features sm))
             (fun _ => SMOTE.sample_rows sm n)
             (stream_only_attr _ _)
             (fun _ => stream_only_sample_rows sm n) p1 p1' Hp).
  - simpl. injection Ho as <-. reflexivity.
Qed.

(** The sampler is fitted anew in every round: of the sampler of the round
    before, only [k] and [random_state] are used. *)
Lemma fitted_params sm sm' d X0 :
  SMOTE.k sm' = SMOTE.k sm -> SMOTE.random_state sm' = SMOTE.random_state sm ->
  fitted sm' d X0 = fitted sm d X0.
Proof. unfold fitted. intros -> ->. reflexivity. Qed.

Lemma smote_fit_result d X0 sm sm' :
  fst (SMOTE.fit d X0 sm') = fst (SMOTE.fit d X0 sm).
Proof.
  unfold SMOTE.fit, NearestNeighbors.fit. simpl.
  destruct X0 as [| r X0]; [reflexivity |].
  destruct (length r =? 0)%nat; reflexivity.
Qed.

(** What the SMOTE step of a round returns. *)
Lemma smote_step_result l h :
  fst (smote_step l h) =
  match minority_target (self h) with
  | None => Raise (AttributeError "minority_target")
  | Some m =>
      match fst (SMOTE.fit (X_dtype l) (minority_rows (X l) (y l) m)
                   (smote (self h))) with
      | Raise e => Raise e
      | Ok _ =>
          fst (SMOTE.sample (fitted (smote (self h)) (X_dtype l) (minority_rows (X l) (y l) m))
                 (n_samples (self h)) (process h))
      end
  end.
Proof.
  unfold smote_step, get_self. unfold bind at 1.
  destruct (minority_target (self h)) as [m |]; [| reflexivity].
  unfold bind at 1. simpl. unfold bind at 1. unfold on_smote, zoom.
  destruct (SMOTE.fit _ _) as [[[] | e] sm] eqn:E; [| reflexivity].
  apply smote_fit_inv in E as (_ & _ & ->). simpl.
  unfold bind at 1. simpl. unfold on_process, zoom. simpl.
  destruct (SMOTE.sample _ _ _). reflexivity.
Qed.

Lemma smote_step_sampler l h X_syn h1 :
  smote_step l h = (Ok X_syn, h1) ->
  SMOTE.k (smote (self h1)) = SMOTE.k (smote (self h)) /\
  SMOTE.random_state (smote (self h1)) = SMOTE.random_state (smote (self h)).
Proof.
  unfold smote_step, get_self, on_smote, on_process, zoom. intros Hs.
  apply bind_Ok in Hs as (s & h2 & Hs0 & Hs). injection Hs0 as <- <-.
  apply bind_Ok in Hs as (m & h2 & Hm & Hs).
  destruct (minority_target (self h)) as [m' |] eqn:Hmt; [| discriminate].
  injection Hm as <- <-.
  apply bind_Ok in Hs as (u & h3 & Hfit & Hs).
  apply bind_Ok in Hs as (s & h4 & Hs0' & Hs). injection Hs0' as <- <-.
  destruct (SMOTE.fit _ _) as [o sm] eqn:E. injection Hfit as Ho <-. subst o.
  apply smote_fit_inv in E as (_ & _ & ->).
  destruct (SMOTE.sample _ _ _) as [o' p'] eqn:E'.
  injection Hs as _ <-. simpl. split; reflexivity.
Qed.

Lemma rounds_sampler_params k : forall i l h l' h',
  rounds i k l h = Some (l', h') ->
  SMOTE.k (smote (self h')) = SMOTE.k (smote (self h)) /\
  SMOTE.random_state (smote (self h')) = SMOTE.random_state (smote (self h)).
Proof.
  induction k as [| k IH]; intros i l h l' h' Hr; simpl in Hr.
  - injection Hr as <- <-. split; reflexivity.
  - destruct (iteration i l h) as [[[X1 y1 | l2] | e'] h2] eqn:Hit; try discriminate.
    apply iteration_Continue in Hit
      as (X_syn & h1 & l1 & w & a & e & hb & Hs & Hm & Hb & Hrec & _).
    destruct (smote_step_sampler _ _ _ _ Hs) as (Ek1 & Er1).
    pose proof (boost_frame _ _ _ _ _ Hb) as (_ & Es2 & _).
    pose proof (record_frame _ _ _ _ _ _ Hrec) as (_ & Es3 & _).
    destruct (IH _ _ _ _ _ Hr) as (Ek & Er).
    rewrite Ek, Er, Es3, Es2. split; assumption.
Qed.

(** From the second round on the training set is a floating array: line
    216 stacks it with the synthetic rows, which are floating. *)
Lemma rounds_dtype k i l h l' h' :
  rounds i (S k) l h = Some (l', h') -> X_dtype l' = floating.
Proof.
  intros Hr. simpl in Hr.
  destruct (iteration i l h) as [[[X1 y1 | l1] | e] h1] eqn:Hit; try discriminate.
  assert (Hstep : forall j lj hj lj' hj',
            iteration j lj hj = (Ok (Continue lj'), hj') -> X_dtype lj' = floating).
  { intros j lj hj lj' hj' Hj.
    apply iteration_Continue in Hj
      as (X_syn & h2 & l2 & w & a & e & h3 & _ & Hm & _ & _ & Hab).
    apply merge_dtype in Hm. unfold after_boost in Hab.
    destruct (Qeq_bool e 0); [discriminate |].
    destruct (Qle_bool (Qsum w) 0); [discriminate |].
    destruct (_ <? _)%nat; injection Hab as <-; exact Hm. }
  apply (rounds_invariant (fun _ l _ => X_dtype l = floating)
           ltac:(intros; eapply Hstep; eauto) _ _ _ _ _ _
           (Hstep _ _ _ _ _ Hit) Hr).
Qed.

(** With a minority label that is not a 64-bit integer, the sampler of a
    round is fitted to the minority rows of the data passed to [fit]. *)
Lemma minority_rows_other_label dt X0 y0 sw mt h l0 h0 m i l hi :
  fit_init dt X0 y0 sw mt h = (Ok l0, h0) ->
  minority_target (self h0) = Some m ->
  ~ int64_label m ->
  rounds 0 i l0 h0 = Some (l, hi) ->
  minority_rows (X l) (y l) m = minority_rows (X l0) (y l0) m.
Proof.
  intros Hinit Hmt Hnot Hr.
  pose proof (fit_init_Ok _ _ _ _ _ _ _ _ Hinit) as (_ & _ & Hlen0 & Hl0 & _).
  destruct (rounds_batches m i 0 l0 h0 l hi Hmt Hr) as (_ & _ & HX & Hy).
  rewrite HX, Hy, minority_rows_app by (rewrite Hl0; simpl; congruence).
  destruct i as [| i]; [simpl; apply app_nil_r |].
  pose proof (round_label_converted _ _ _ _ _ _ _ Hmt Hr) as Hz.
  pose proof (to_int64_other _ _ Hnot Hz) as Hne.
  destruct (Qeq_bool (inject_Z (int64_of m)) m) eqn:Heq.
  - exfalso. apply Hne. apply Qeq_bool_iff. exact Heq.
  - rewrite (minority_rows_other _ _ _ _ Heq). apply app_nil_r.
Qed.

(** X14: with an integer [random_state] and a minority label that is not
    an integer of the 64-bit range, the rounds of a run generate the same
    synthetic rows again and again: the SMOTE steps of any two rounds after
    round 0 return the same, and so does the SMOTE step of round 0 when the
    training set is a floating array from the start (as [check_X_y] makes
    it when the base estimator is the default one, a decision tree or a
    forest).  The stream is re-seeded in every call of [sample], and the
    sampler is fitted to the same rows in every round, the synthetic rows
    of the rounds before carrying another label, whatever the conversion of
    line 209 makes of the minority label. *)
Theorem same_batch_every_round dt X0 y0 sw mt h l0 h0 m s i l hi j l' hj :
  fit_init dt X0 y0 sw mt h = (Ok l0, h0) ->
  minority_target (self h0) = Some m ->
  ~ int64_label m ->
  SMOTE.random_state (smote (self h)) = Some s ->
  rounds 0 i l0 h0 = Some (l, hi) ->
  rounds 0 j l0 h0 = Some (l', hj) ->
  (1 <= i /\ 1 <= j) \/ checked_dtype (self h) dt = floating ->
  fst (smote_step l hi) = fst (smote_step l' hj).
Proof.
  intros Hinit Hmt Hnot Hseed Hr Hr' Hd.
  pose proof (fit_init_Ok _ _ _ _ _ _ _ _ Hinit)
    as (_ & _ & Hlen0 & Hl0 & _ & (_ & _ & _ & _ & Esm) & _).
  pose proof (rounds_config _ _ _ _ _ _ Hr) as (En & _ & _ & _ & Em).
  pose proof (rounds_config _ _ _ _ _ _ Hr') as (En' & _ & _ & _ & Em').
  destruct (rounds_sampler_params _ _ _ _ _ _ Hr) as (Ek & Ers).
  destruct (rounds_sampler_params _ _ _ _ _ _ Hr') as (Ek' & Ers').
  pose proof (minority_rows_other_label _ _ _ _ _ _ _ _ _ _ _ _
                Hinit Hmt Hnot Hr) as Hrows.
  pose proof (minority_rows_other_label _ _ _ _ _ _ _ _ _ _ _ _
                Hinit Hmt Hnot Hr') as Hrows'.
  assert (Hdt : forall i1 l1 h1,
            rounds 0 i1 l0 h0 = Some (l1, h1) ->
            1 <= i1 \/ checked_dtype (self h) dt = floating ->
            X_dtype l1 = floating).
  { intros [| i1] l1 h1 Hr1 Hc.
    - simpl in Hr1. injection Hr1 as <- _.
      destruct Hc as [Hc | Hc]; [lia |]. rewrite Hl0. exact Hc.
    - eapply rounds_dtype. exact Hr1. }
  assert (Edt : X_dtype l = X_dtype l').
  { rewrite (Hdt i l hi Hr), (Hdt j l' hj Hr'); [reflexivity | |];
      destruct Hd as [[Hi Hj] | Hc]; auto. }
  rewrite !smote_step_result, Em, Em', Hmt, Hrows, Hrows', En, En', Edt.
  rewrite (smote_fit_result _ _ (smote (self hj)) (smote (self hi))).
  destruct (fst (SMOTE.fit _ _ _)); [| reflexivity].
  rewrite (fitted_params (smote (self hj)) (smote (self hi))) by congruence.
  apply (sample_result_seeded _ _ s). simpl. rewrite Ers', Esm. exact Hseed.
Qed.

End SeededBatches.
(** ** Rounds that cannot fail for want of minority rows *)

Section Progress.
Context `{NumpyRandom} `{NeighborSearch} `{!Booster} `{Int64Cast}.
Import SMOTEBoost.

Lemma sample_succeeds sm d X0 n p :
  1 <= SMOTE.k sm -> SMOTE.k sm + 1 <= length X0 ->
  seed_ok (SMOTE.random_state sm) ->
  exists S p', SMOTE.sample (fitted sm d X0) n p = (Ok S, p').
Proof.
  intros Hk1 Hk Hseed. rewrite sample_unfold.
  change (SMOTE.random_state (fitted sm d X0)) with (SMOTE.random_state sm).
  destruct (np_random_seed_ok _ p Hseed) as (p1 & ->).
  destruct (sample_rows_succeeds sm d X0 n p1 Hk1 Hk) as (S & p2 & HS).
  exists S, p2. unfold bind, attr. simpl. exact HS.
Qed.

Lemma smote_step_succeeds l hi m :
  minority_target (self hi) = Some m ->
  0 < n_cols (minority_rows (X l) (y l) m) ->
  1 <= SMOTE.k (smote (self hi)) ->
  SMOTE.k (smote (self hi)) + 1 <= length (minority_rows (X l) (y l) m) ->
  seed_ok (SMOTE.random_state (smote (self hi))) ->
  exists X_syn h1, smote_step l hi = (Ok X_syn, h1).
Proof.
  intros Hmt Hcols Hk1 Hk Hseed.
  assert (Hpos : 0 < length (minority_rows (X l) (y l) m)) by lia.
  unfold smote_step, get_self, on_smote, on_process, zoom.
  unfold bind at 1. cbn beta iota. rewrite Hmt.
  unfold bind at 1. cbn beta iota. unfold attr, ret at 1.
  unfold bind at 1.
  rewrite (smote_fit_Ok _ _ _ Hpos Hcols).
  unfold bind at 1. cbn beta iota.
  destruct (sample_succeeds (smote (self hi)) (X_dtype l) _ (n_samples (self hi)) (process hi)
              Hk1 Hk Hseed) as (S & p' & Hp').
  destruct hi as [s p r b]. destruct s. simpl in *. subst.
  rewrite Hp'. eauto.
Qed.

(** X15: when the minority rows of the data passed to [fit] are at least
    [k_neighbors + 1], with [k_neighbors >= 1] and a seed that
    [np.random.seed] accepts, the SMOTE step fails in no round of the run:
    at the head of every round reached, refitting the sampler and drawing
    the [n_samples] synthetic rows succeeds.  The minority rows of a later
    round begin with those of the data passed to [fit]. *)
Theorem smote_step_never_fails dt X0 y0 sw mt h l0 h0 m i l hi :
  fit_init dt X0 y0 sw mt h = (Ok l0, h0) ->
  minority_target (self h0) = Some m ->
  1 <= SMOTE.k (smote (self h)) ->
  SMOTE.k (smote (self h)) + 1 <= length (minority_rows X0 y0 m) ->
  seed_ok (SMOTE.random_state (smote (self h))) ->
  rounds 0 i l0 h0 = Some (l, hi) ->
  exists X_syn h1, smote_step l hi = (Ok X_syn, h1).
Proof.
  intros Hinit Hmt Hk1 Hk Hseed Hr.
  destruct (fit_init_checked _ _ _ _ _ _ _ _ Hinit) as (Hpos & Hw0).
  pose proof (fit_init_Ok _ _ _ _ _ _ _ _ Hinit)
    as (_ & _ & Hlen0 & Hl0 & _ & (_ & _ & _ & _ & Esm) & _).
  pose proof (rounds_config _ _ _ _ _ _ Hr) as (_ & _ & _ & _ & Em).
  destruct (rounds_sampler_params _ _ _ _ _ _ Hr) as (Ek & Ers).
  destruct (rounds_batches m i 0 l0 h0 l hi Hmt Hr) as (_ & _ & HX & Hy).
  assert (Hrows : exists rest,
            minority_rows (X l) (y l) m = minority_rows X0 y0 m ++ rest).
  { rewrite HX, Hy, minority_rows_app by (rewrite Hl0; simpl; congruence).
    rewrite Hl0. simpl. eauto. }
  destruct Hrows as (rest & Hrows).
  apply (smote_step_succeeds l hi m).
  - congruence.
  - rewrite Hrows.
    destruct (minority_rows X0 y0 m) as [| r rs] eqn:Hmin; [simpl in Hk; lia |].
    simpl.
    assert (Hr0 : r ∈ X0).
    { apply (minority_rows_subset X0 y0 m). rewrite Hmin. left. }
    unfold width in Hw0. rewrite Forall_forall in Hw0.
    rewrite (Hw0 r Hr0). exact Hpos.
  - rewrite Ek, Esm. exact Hk1.
  - rewrite Ek, Esm, Hrows, length_app. lia.
  - rewrite Ers, Esm. exact Hseed.
Qed.

(** X16: input that [check_X_y] turns down.  With a positive learning rate,
    [fit] on an [X] without rows, with rows of different lengths or with
    rows of no features, or on a [y] that has not one label per row, raises
    [ValueError] and leaves the classifier and the process as they were: an
    ensemble fitted before is still there. *)
Theorem fit_rejects_input dt X0 y0 sw mt (h : Heap) :
  (0 < learning_rate (self h))%Q ->
  X0 = [] \/ ~ width (n_cols X0) X0 \/ n_cols X0 = 0 \/ length y0 <> length X0 ->
  exists msg, fit dt X0 y0 sw mt h = (Raise (ValueError msg), h).
Proof.
  intros Hlr Hbad.
  assert (Hnot : Qle_bool (learning_rate (self h)) 0 = false).
  { destruct (Qle_bool (learning_rate (self h)) 0) eqn:E; [| reflexivity].
    apply Qle_bool_iff in E. lra. }
  assert (Hc : exists msg, check_X_y X0 y0 h = (Raise (ValueError msg), h)).
  { unfold check_X_y. destruct X0 as [| r X0]; [eexists; reflexivity |].
    destruct (forallb _ _) eqn:Hall; cbn [negb]; [| eexists; reflexivity].
    destruct (length r =? 0)%nat eqn:Hr0; [eexists; reflexivity |].
    destruct (length y0 =? length (r :: X0))%nat eqn:Hy; cbn [negb];
      [| eexists; reflexivity].
    exfalso. apply Nat.eqb_neq in Hr0. apply Nat.eqb_eq in Hy.
    destruct Hbad as [Hbad | [Hbad | [Hbad | Hbad]]];
      [discriminate | | simpl in Hbad; lia | contradiction].
    apply Hbad. apply Forall_forall. intros r' Hr'.
    rewrite forallb_forall in Hall. apply Nat.eqb_eq. apply Hall.
    apply list_elem_of_In. exact Hr'. }
  destruct Hc as (msg & Hc). exists msg.
  unfold fit, fit_locals. apply bind_eq_Raise, bind_eq_Raise.
  unfold fit_init, bind at 1, get_self. rewrite Hnot.
  apply bind_eq_Raise. exact Hc.
Qed.

End Progress.
(** ** The weights of the synthetic rows *)

Lemma Forall2_map_l {A B} (R : B -> A -> Prop) (g : A -> B) (l : list A) :
  (forall x, R (g x) x) -> Forall2 R (map g l) l.
Proof. intros Hg. induction l as [| x l IH]; simpl; constructor; auto. Qed.

Section SyntheticWeights.
Context `{NumpyRandom} `{NeighborSearch} `{!Booster} `{Int64Cast}.
Import SMOTEBoost.

(** The weights at the head of a round that runs: none negative, and of
    sum 1. *)
Lemma head_weights_normalized dt X0 y0 sw mt h l0 h0 i l hi :
  booster_keeps_nonnegative ->
  fit_init dt X0 y0 sw mt h = (Ok l0, h0) ->
  rounds 0 i l0 h0 = Some (l, hi) ->
  i < n_estimators (self h) ->
  weights_ok l /\ (Qsum (sample_weight l) == 1)%Q.
Proof.
  intros Hkeep Hinit Hr Hi.
  pose proof (fit_init_Ok _ _ _ _ _ _ _ _ Hinit)
    as (_ & HN & _ & Hl0 & _ & (_ & En0 & _) & _).
  set (n := n_estimators (self h)) in *.
  set (P := fun (i : nat) (l : Locals) (hi : Heap) =>
              n_estimators (self hi) = n /\ weights_ok l /\
              (i < n -> (Qsum (sample_weight l) == 1)%Q)).
  assert (Hstep : forall i l hi l' h',
             P i l hi -> iteration i l hi = (Ok (Continue l'), h') -> P (S i) l' h').
  { intros j lj hj l' h' (En & HP & _) Hit.
    pose proof (iteration_config _ _ _ _ _ Hit) as (_ & En' & _).
    apply iteration_Continue in Hit
      as (X_syn & h1 & l1 & w & a & e & h2 & Hs & Hm & Hb & Hrec & Hab).
    destruct (merge_weights_sum _ _ _ _ _ HP Hm) as (_ & Hnn1 & _).
    apply boost_Ok in Hb as (ests & env' & _ & Hb).
    apply (Hkeep _ _ _ _ _ _ _ _ _ Hnn1) in Hb.
    destruct (after_boost_Continue_weights _ _ _ _ _ _ Hb Hab) as (Hok & Hsum).
    split; [congruence |]. split; [exact Hok |].
    intros Hlt. apply Hsum. rewrite En', En. lia. }
  assert (HP0 : P 0 l0 h0).
  { split; [exact En0 |]. rewrite Hl0. split; [split |]; simpl.
    - apply Forall_repeat, inv_count_nonneg.
    - rewrite Qsum_repeat_uniform by exact HN. lra.
    - intros _. apply Qsum_repeat_uniform. exact HN. }
  destruct (rounds_invariant P Hstep i 0 l0 h0 l hi HP0 Hr) as (_ & Hok & Hsum).
  split; [exact Hok | apply Hsum; exact Hi].
Qed.

(** X17: what the merge of a round does to the weights.  With a boosting
    step that returns no negative weight when given none, in every round
    that runs, [N] being the number of rows at the head of the round: each
    of the [n_samples] synthetic rows enters the boosting step with the
    weight [1 / (N + n_samples)], the weight of a row of a uniformly
    weighted set of that size, and the rows already there keep their weights
    scaled by [N / (N + n_samples)]. *)
Theorem synthetic_weight_share dt X0 y0 sw mt h l0 h0 i l hi l1 h1 :
  booster_keeps_nonnegative ->
  fit_init dt X0 y0 sw mt h = (Ok l0, h0) ->
  rounds 0 i l0 h0 = Some (l, hi) ->
  i < n_estimators (self h) ->
  augment l hi = (Ok l1, h1) ->
  exists w_old w_syn,
    sample_weight l1 = w_old ++ w_syn /\
    Forall2 (fun x' x =>
               (x' == x * (inject_Z (Z.of_nat (length (X l))) /
                           inject_Z (Z.of_nat (length (X l) + n_samples (self h)))))%Q)
            w_old (sample_weight l) /\
    length w_syn = n_samples (self h) /\
    Forall (fun x =>
              (x == 1 / inject_Z (Z.of_nat (length (X l) + n_samples (self h))))%Q)
           w_syn.
Proof.
  intros Hkeep Hinit Hr Hi Ha.
  destruct (head_weights_normalized _ _ _ _ _ _ _ _ _ _ _ Hkeep Hinit Hr Hi)
    as (Hok & Hsum).
  pose proof (fit_init_Ok _ _ _ _ _ _ _ _ Hinit)
    as (_ & HN0 & _ & Hl0 & _ & (En0 & _) & (m & Hmt & _) & _).
  pose proof (rounds_config _ _ _ _ _ _ Hr) as (Eni & _).
  destruct (rounds_batches m i 0 l0 h0 l hi Hmt Hr) as (_ & _ & HX & _).
  assert (HN : 0 < length (X l)).
  { rewrite HX, length_app, Hl0. simpl. lia. }
  apply augment_Ok in Ha as (X_syn & Hs & Hm).
  pose proof (smote_step_length _ _ _ _ Hs) as Hlen.
  assert (Hn : length X_syn = n_samples (self h)) by congruence.
  destruct (merge_weights_sum _ _ _ _ _ Hok Hm) as (Hw & _ & _).
  destruct (merged_weights_ok l (length X_syn) Hok) as (Hnn & _).
  pose proof (l1_norm_nonneg _ Hnn) as Hnorm.
  unfold merged_weights in Hw, Hnorm. rewrite Hn in Hw, Hnorm.
  rewrite Qsum_app, Qsum_repeat, Hsum in Hnorm.
  set (N := length (X l)) in *. set (n := n_samples (self h)) in *.
  pose proof (inject_nat_pos N HN) as HNpos.
  assert (Hnpos : (0 <= inject_Z (Z.of_nat n))%Q).
  { change 0%Q with (inject_Z 0). rewrite <- Zle_Qle. lia. }
  rewrite map_app in Hw.
  eexists _, _. split; [exact Hw |]. split; [| split].
  - apply Forall2_map_l. intros x. cbv beta.
    rewrite Hnorm, inject_nat_plus. field. split; lra.
  - rewrite length_map, repeat_length. reflexivity.
  - apply Forall_forall. intros x Hx.
    apply list_elem_of_fmap in Hx as (x0 & -> & Hx0).
    apply list_elem_of_In, repeat_spec in Hx0. subst x0.
    rewrite Hnorm, inject_nat_plus. field. split; lra.
Qed.

End SyntheticWeights.
(** ** A seed out of range *)

Lemma Counter_nonempty y : y <> [] -> Counter y <> [].
Proof.
  intros Hy Hc. destruct (Counter_counted y) as (_ & Hall & _).
  destruct y as [| v y]; [congruence |].
  specialize (Hall v ltac:(left)). rewrite Hc in Hall. inversion Hall.
Qed.

Section SeedOutOfRange.
Context `{NumpyRandom} `{NeighborSearch} `{!Booster} `{Int64Cast}.
Import SMOTEBoost.

(** X18: a [random_state] outside [0, 2**32 - 1] is found out at line 202,
    after the ensemble has been reset at lines 198-200.  On input that
    passes the checks before (positive learning rate, well-shaped [X] and
    [y], no weights supplied, base estimator accepted), [fit] raises the
    [ValueError] of the seed, no round runs and no random number is drawn,
    and the classifier is left with an empty ensemble: the learners of an
    earlier fit are gone. *)
Theorem fit_rejects_seed dt X0 y0 mt (h : Heap) s b :
  (0 < learning_rate (self h))%Q ->
  check_X_y X0 y0 h = (Ok (X0, y0), h) ->
  _validate_estimator (n_estimators (self h)) (private h) = (inr tt, b) ->
  random_state (self h) = Some s ->
  ~ (0 <= s < 2 ^ 32)%Z ->
  exists hf,
    fit dt X0 y0 None mt h =
      (Raise (ValueError "Seed must be between 0 and 2**32 - 1"), hf) /\
    estimators_ (self hf) = Some [] /\
    estimator_weights_ (self hf) = Some (repeat 0%Q (n_estimators (self h))) /\
    estimator_errors_ (self hf) = Some (repeat 1%Q (n_estimators (self h))) /\
    process hf = process h.
Proof.
  intros Hlr Hc Hv Hrs Hbad.
  assert (Hnot : Qle_bool (learning_rate (self h)) 0 = false).
  { destruct (Qle_bool (learning_rate (self h)) 0) eqn:E; [| reflexivity].
    apply Qle_bool_iff in E. lra. }
  assert (Hrange : ((0 <=? s) && (s <? 2 ^ 32))%Z = false).
  { destruct ((0 <=? s) && (s <? 2 ^ 32))%Z eqn:E; [| reflexivity].
    exfalso. apply Hbad. apply andb_true_iff in E as [E1 E2].
    apply Z.leb_le in E1. apply Z.ltb_lt in E2. lia. }
  assert (Hmt : exists m,
            (match mt with
             | None =>
                 match min_by_count (Counter y0) with
                 | Some (min_c_, _) => modify (with_self (set_minority_target min_c_))
                 | None => raise (ValueError "min() arg is an empty sequence")
                 end
             | Some m => modify (with_self (set_minority_target m))
             end) h = (Ok tt, with_self (set_minority_target m) h)).
  { destruct mt as [m |]; [exists m; reflexivity |].
    apply check_X_y_Ok in Hc as (_ & _ & Hlen & Hy).
    destruct (min_by_count_nonempty (Counter y0)) as [[m c] Hm].
    { apply Counter_nonempty. destruct y0; [simpl in Hy; lia | discriminate]. }
    exists m. rewrite Hm. reflexivity. }
  destruct Hmt as (m & Hmt).
  eexists. split.
  - unfold fit, fit_locals. apply bind_eq_Raise, bind_eq_Raise.
    unfold fit_init, bind at 1, get_self. rewrite Hnot.
    rewrite (bind_eq_Ok _ _ _ _ _ Hc).
    unfold initial_weights. unfold bind at 1, ret at 1.
    rewrite (bind_eq_Ok _ _ _ _ _ Hmt).
    unfold bind at 1. unfold validate_estimator. simpl. rewrite Hv.
    unfold bind at 1, modify at 1.
    unfold bind at 1. unfold bind at 1, modify at 1.
    unfold bind at 1, modify at 1. simpl.
    apply bind_eq_Raise. rewrite Hrs. unfold check_random_state.
    rewrite Hrange. reflexivity.
  - simpl. repeat split.
Qed.

End SeedOutOfRange.

(** ** The element type of the training set *)

(** [X0] is an array of element type [d]: for an integer type, its elements
    are integers of the range of the type. *)
Definition of_dtype (d : dtype) (X0 : matrix) : Prop :=
  match d with
  | floating => True
  | _ => forall r a, r ∈ X0 -> a ∈ r ->
           (inject_Z (Qtrunc a) == a)%Q /\ wrap d (Qtrunc a) = Qtrunc a
  end.

Lemma row_elem_of X0 j : j < length X0 -> row X0 j ∈ X0.
Proof.
  intros Hj. destruct (lookup_lt_is_Some_2 X0 j Hj) as (r & Hr).
  assert (E : row X0 j = r) by (exact (f_equal (default []) Hr)).
  rewrite E. eapply list_elem_of_lookup_2. exact Hr.
Qed.

(** The difference of two elements of an unsigned array, as line 57 takes
    it: the difference when the first is the larger, and [2^bits] more than
    the difference, which is negative, when it is the smaller. *)
Lemma sub_unsigned w z x :
  (inject_Z (Qtrunc z) == z)%Q -> (inject_Z (Qtrunc x) == x)%Q ->
  (0 <= Qtrunc z < 2 ^ Z.pos w)%Z -> (0 <= Qtrunc x < 2 ^ Z.pos w)%Z ->
  ((x <= z)%Q -> (sub (unsigned w) z x == z - x)%Q) /\
  ((z < x)%Q -> (sub (unsigned w) z x == inject_Z (2 ^ Z.pos w) + z - x)%Q).
Proof.
  intros Hz Hx Hrz Hrx.
  assert (Hd : (inject_Z (Qtrunc z - Qtrunc x) == z - x)%Q).
  { unfold Z.sub. rewrite inject_Z_plus, inject_Z_opp, Hz, Hx. reflexivity. }
  split; intros Hle; simpl.
  - rewrite <- Hz, <- Hx in Hle. rewrite <- Zle_Qle in Hle.
    rewrite Z.mod_small by lia. exact Hd.
  - rewrite <- Hz, <- Hx in Hle. rewrite <- Zlt_Qlt in Hle.
    rewrite <- (Z.mod_add _ 1) by lia. rewrite Z.mod_small by lia.
    rewrite inject_Z_plus, Hd. rewrite Z.mul_1_l. ring.
Qed.

Section ElementType.
Context `{NumpyRandom} `{NeighborSearch} `{!Booster} `{Int64Cast}.
Import SMOTEBoost.

(** X19: on an array of an unsigned integer type the difference of line 57
    wraps around, and [sample] extrapolates.  Each feature of a row that
    [sample] returns is made of that feature [x] of a base row and [z] of a
    neighbour and the gap of the row: it is [x + gap * (z - x)] where the
    neighbour's feature is not the smaller one, and
    [x + gap * (2^bits + z - x)] where it is, which is [x] or more, on the
    far side of the base from the neighbour. *)
Theorem sample_unsigned_wraps sm w X0 n p S p' :
  of_dtype (unsigned w) X0 ->
  SMOTE.sample (fitted sm (unsigned w) X0) n p = (Ok S, p') ->
  Forall (fun s => exists j nb gap,
            j < length X0 /\ nb < length X0 /\ (0 <= gap)%Q /\ (gap < 1)%Q /\
            forall c v, s !! c = Some v ->
              exists x z,
                row X0 j !! c = Some x /\ row X0 nb !! c = Some z /\
                ((x <= z)%Q -> (v == x + gap * (z - x))%Q) /\
                ((z < x)%Q ->
                 (v == x + gap * (inject_Z (2 ^ Z.pos w) + z - x))%Q /\
                 (x <= v)%Q)) S.
Proof.
  intros Hof Hs. apply sample_Ok_rows in Hs as (p1 & Hs).
  eapply sample_rows_Forall; [| exact Hs].
  intros q s q' Hrow.
  apply sample_row_Ok in Hrow as (j & nb & gap & Hj & Hk & Hnb & H0g & Hg1 & ->).
  assert (Hnbm : nb < length X0).
  { eapply nearest_bound. apply elem_of_tail_1. exact Hnb. }
  exists j, nb, gap. repeat (split; [assumption |]).
  intros c v Hv. unfold vadd, vscale in Hv.
  apply lookup_zip_with_Some in Hv as (x & t & -> & Hx & Ht).
  rewrite list_lookup_fmap in Ht.
  apply fmap_Some in Ht as (t' & Ht' & ->).
  unfold vsub_in in Ht'.
  apply lookup_zip_with_Some in Ht' as (z & x' & -> & Hz & Hx').
  assert (x' = x) by congruence. subst x'.
  exists x, z. split; [exact Hx |]. split; [exact Hz |].
  destruct (Hof _ x (row_elem_of X0 j Hj)) as (Hxi & Hxr);
    [eapply list_elem_of_lookup_2; exact Hx |].
  destruct (Hof _ z (row_elem_of X0 nb Hnbm)) as (Hzi & Hzr);
    [eapply list_elem_of_lookup_2; exact Hz |].
  simpl in Hxr, Hzr.
  assert (Hpow : (0 < 2 ^ Z.pos w)%Z) by (apply Z.pow_pos_nonneg; lia).
  pose proof (Z.mod_pos_bound (Qtrunc x) _ Hpow) as Hbx.
  pose proof (Z.mod_pos_bound (Qtrunc z) _ Hpow) as Hbz.
  rewrite Hxr in Hbx. rewrite Hzr in Hbz.
  destruct (sub_unsigned w z x Hzi Hxi Hbz Hbx) as (Hle & Hlt).
  split.
  - intros Hxz. rewrite (Hle Hxz). reflexivity.
  - intros Hzx. rewrite (Hlt Hzx). split; [reflexivity |].
    assert (Hz0 : (0 <= z)%Q).
    { rewrite <- Hzi. change 0%Q with (inject_Z 0). rewrite <- Zle_Qle. lia. }
    assert (Hxw : (x < inject_Z (2 ^ Z.pos w))%Q).
    { rewrite <- Hxi. rewrite <- Zlt_Qlt. lia. }
    nra.
Qed.

(** The training set at the head of a round is a floating array when
    [check_X_y] was asked for one (the base estimator being the default one,
    a decision tree or a forest), when the [X] passed to [fit] is one, and
    in every round after round 0. *)
Lemma head_dtype dt X0 y0 sw mt h l0 h0 i l hi :
  fit_init dt X0 y0 sw mt h = (Ok l0, h0) ->
  rounds 0 i l0 h0 = Some (l, hi) ->
  wanted_dtype (self h) = Some float64 \/ dt = floating \/ 1 <= i ->
  X_dtype l = floating.
Proof.
  intros Hinit Hr Hd.
  pose proof (fit_init_Ok _ _ _ _ _ _ _ _ Hinit) as (_ & _ & _ & Hl0 & _).
  destruct i as [| i].
  - simpl in Hr. injection Hr as <- _. rewrite Hl0. simpl.
    unfold checked_dtype.
    destruct Hd as [-> | [-> | Hi]]; [reflexivity | | lia].
    destruct (wanted_dtype (self h)) as [d |] eqn:E; [| reflexivity].
    unfold wanted_dtype in E.
    destruct (base_estimator (self h)); injection E as <- || discriminate;
      reflexivity.
  - eapply rounds_dtype. exact Hr.
Qed.

Lemma width_rectangular d X0 : width d X0 -> rectangular X0.
Proof.
  intros Hw i i' Hi Hi'. rewrite !(width_row d X0) by assumption. reflexivity.
Qed.

(** X20: inside [fit] the synthetic rows of a round are interpolations in
    the full sense, [base + gap * (neighbour - base)] with base and
    neighbour among the minority rows of the round's training set, in every
    round after round 0, whatever array is passed to [fit]: line 216 stacks
    the training set with the floating synthetic rows, which makes it a
    floating array.  In round 0 they are when the training set is a floating
    array from the start: when the base estimator is the default one, a
    decision tree or a forest (lines 157-168), or when the [X] passed to
    [fit] is a floating array. *)
Theorem fit_rounds_interpolate dt X0 y0 sw mt h l0 h0 m i l hi X_syn h1 :
  fit_init dt X0 y0 sw mt h = (Ok l0, h0) ->
  minority_target (self h0) = Some m ->
  rounds 0 i l0 h0 = Some (l, hi) ->
  wanted_dtype (self h) = Some float64 \/ dt = floating \/ 1 <= i ->
  smote_step l hi = (Ok X_syn, h1) ->
  X_dtype l = floating /\
  Forall (interpolated (minority_rows (X l) (y l) m)
            (SMOTE.k (smote (self hi)))) X_syn.
Proof.
  intros Hinit Hmt Hr Hd Hs.
  pose proof (head_dtype _ _ _ _ _ _ _ _ _ _ _ Hinit Hr Hd) as Hfl.
  split; [exact Hfl |].
  pose proof (fit_keeps_width_rows _ _ _ _ _ _ _ _ _ _ _ Hinit Hr) as Hw.
  pose proof (rounds_config _ _ _ _ _ _ Hr) as (_ & _ & _ & _ & Em).
  apply smote_step_Ok in Hs as (m' & p' & Hmt' & Hsam).
  assert (m' = m) as -> by congruence.
  rewrite Hfl in Hsam.
  assert (Hrect : rectangular (minority_rows (X l) (y l) m)).
  { apply (width_rectangular (n_cols X0)).
    apply Forall_forall. intros r Hr'. apply minority_rows_subset in Hr'.
    unfold width in Hw. rewrite Forall_forall in Hw. auto. }
  apply sample_Ok_rows in Hsam as (p1 & Hsam).
  pose proof (sample_rows_interpolated _ _ _ _ _ _ _ Hrect Hsam) as Hall.
  eapply Forall_impl; [exact Hall |]. intros s [Hi _].
  eapply interpolated_in_exact; [apply exact_differences_floating | exact Hi].
Qed.

End ElementType.

(** * Test doubles

    Concrete collaborators on which the embedding runs: a linear
    congruential stream in place of NumPy's Mersenne Twister, a brute-force
    neighbour search, and boosting steps with scripted answers. *)

Module Doubles.

(** ** A linear congruential stream *)

Definition lcg_next (g : Z) : Z := ((1103515245 * g + 12345) mod 2 ^ 31)%Z.

Definition lcg_randint (lo hi g : Z) : Z * Z :=
  ((lo + g mod (hi - lo))%Z, lcg_next g).
Definition lcg_choice (a : list nat) (g : Z) : nat * Z :=
  (default 0 (a !! Z.to_nat (g mod Z.of_nat (length a))), lcg_next g).
Definition lcg_random (g : Z) : Q * Z :=
  (Qmake (g mod 1000) 1000, lcg_next g).

Lemma lcg_randint_range lo hi g :
  (lo < hi)%Z -> (lo <= fst (lcg_randint lo hi g) < hi)%Z.
Proof.
  intros Hlt. simpl.
  pose proof (Z.mod_pos_bound g (hi - lo)) as Hb. lia.
Qed.

Lemma lcg_choice_elem (a : list nat) g : a <> [] -> fst (lcg_choice a g) ∈ a.
Proof.
  intros Ha. simpl.
  assert (Hlen : 0 < length a) by (destruct a; [congruence | simpl; lia]).
  pose proof (Z.mod_pos_bound g (Z.of_nat (length a))) as Hb.
  destruct (lookup_lt_is_Some_2 a (Z.to_nat (g mod Z.of_nat (length a)))) as [x Hx];
    [lia |].
  rewrite Hx. simpl. eapply list_elem_of_lookup_2; eauto.
Qed.

Lemma lcg_random_unit g :
  (0 <= fst (lcg_random g))%Q /\ (fst (lcg_random g) < 1)%Q.
Proof.
  simpl. pose proof (Z.mod_pos_bound g 1000) as Hb.
  unfold Qle, Qlt. simpl. lia.
Qed.

Definition lcg : NumpyRandom :=
  {| Generator := Z;
     Entropy := Z;
     seed_int := fun s => s;
     seed_os := fun e => (e, lcg_next e);
     randint := lcg_randint;
     choice := lcg_choice;
     random_sample := lcg_random;
     randint_range := lcg_randint_range;
     choice_elem := lcg_choice_elem;
     random_sample_unit := lcg_random_unit |}.


(** ** Brute-force neighbour search *)

(** Row [i] is at most as far from [q] as row [j]. *)
Definition closer (X0 : matrix) (q : vec) (i j : nat) : Prop :=
  Qle_bool (sqdist q (row X0 i)) (sqdist q (row X0 j)) = true.

#[local] Instance closer_dec X0 q i j : Decision (closer X0 q i j).
Proof. unfold closer. apply _. Defined.

Lemma closer_le X0 q i j :
  closer X0 q i j <-> (sqdist q (row X0 i) <= sqdist q (row X0 j))%Q.
Proof. unfold closer. apply Qle_bool_iff. Qed.

#[local] Instance closer_total X0 q : Total (closer X0 q).
Proof.
  intros i j. rewrite !closer_le.
  destruct (Qlt_le_dec (sqdist q (row X0 j)) (sqdist q (row X0 i))); [right | left]; lra.
Qed.

#[local] Instance closer_trans X0 q : Transitive (closer X0 q).
Proof. intros i j k'. rewrite !closer_le. lra. Qed.

(** All row indices sorted by distance to [q], cut after the first [n]. *)
Definition brute_nearest (X0 : matrix) (q : vec) (n : nat) : list nat :=
  take n (merge_sort (closer X0 q) (seq 0 (length X0))).

Lemma sorted_indices_perm X0 q :
  merge_sort (closer X0 q) (seq 0 (length X0)) ≡ₚ seq 0 (length X0).
Proof. apply merge_sort_Permutation. Qed.

Lemma brute_length X0 q n : n <= length X0 -> length (brute_nearest X0 q n) = n.
Proof.
  intros Hn. unfold brute_nearest. rewrite length_take.
  rewrite (Permutation_length (sorted_indices_perm X0 q)), length_seq. lia.
Qed.

Lemma brute_NoDup X0 q n : NoDup (brute_nearest X0 q n).
Proof.
  unfold brute_nearest. eapply sublist_NoDup; [| apply sublist_take].
  rewrite (sorted_indices_perm X0 q). apply NoDup_seq.
Qed.

Lemma brute_bound X0 q n i : i ∈ brute_nearest X0 q n -> i < length X0.
Proof.
  unfold brute_nearest. intros Hi. apply elem_of_take in Hi as (k' & Hi & _).
  apply list_elem_of_lookup_2 in Hi. rewrite (sorted_indices_perm X0 q) in Hi.
  apply elem_of_seq in Hi. lia.
Qed.

Lemma StronglySorted_lookup {A} (R : relation A) l a b x z :
  StronglySorted R l -> a < b -> l !! a = Some x -> l !! b = Some z -> R x z.
Proof.
  intros Hs. revert a b. induction Hs as [| h l Hs IH Hall]; intros a b Hab Ha Hb.
  - discriminate.
  - destruct a as [| a]; destruct b as [| b]; try lia; simpl in *.
    + injection Ha as <-. rewrite Forall_forall in Hall. apply Hall.
      eapply list_elem_of_lookup_2; eauto.
    + eapply IH; [| exact Ha | exact Hb]. lia.
Qed.

Lemma brute_sorted X0 q n a b ra rb :
  a <= b -> brute_nearest X0 q n !! a = Some ra ->
  brute_nearest X0 q n !! b = Some rb ->
  (sqdist q (row X0 ra) <= sqdist q (row X0 rb))%Q.
Proof.
  unfold brute_nearest. intros Hab Ha Hb.
  apply lookup_take_Some in Ha as [Ha _]. apply lookup_take_Some in Hb as [Hb _].
  destruct (decide (a = b)) as [-> | Hne].
  - assert (ra = rb) by congruence. subst. lra.
  - apply closer_le.
    eapply (StronglySorted_lookup (closer X0 q)); [| | exact Ha | exact Hb]; [| lia].
    apply StronglySorted_merge_sort; apply _.
Qed.

Lemma brute_closest X0 q n i r :
  n <= length X0 -> i < length X0 -> i ∉ brute_nearest X0 q n ->
  r ∈ brute_nearest X0 q n ->
  (sqdist q (row X0 r) <= sqdist q (row X0 i))%Q.
Proof.
  unfold brute_nearest. intros Hn Hi Hnot Hr.
  set (l := merge_sort (closer X0 q) (seq 0 (length X0))) in *.
  assert (Hin : i ∈ l).
  { unfold l. rewrite (sorted_indices_perm X0 q). apply elem_of_seq. lia. }
  rewrite <- (take_drop n l) in Hin. apply elem_of_app in Hin as [Hin | Hin];
    [contradiction |].
  assert (Hs : StronglySorted (closer X0 q) (take n l ++ drop n l)).
  { rewrite take_drop. apply StronglySorted_merge_sort; apply _. }
  apply StronglySorted_app in Hs as (Hcross & _ & _).
  apply closer_le. apply Hcross; assumption.
Qed.

Definition brute : NeighborSearch :=
  {| nearest := brute_nearest;
     nearest_length := brute_length;
     nearest_NoDup := brute_NoDup;
     nearest_bound := brute_bound;
     nearest_sorted := brute_sorted;
     nearest_closest := brute_closest |}.


(** ** Scripted boosting steps *)

(** A boosting step that answers round [i] with [script i w], [w] being the
    weights it is given, and appends [i] to the learners. *)
Definition scripted (script : nat -> list Q -> string + (option (list Q) * Q * Q))
    : @Booster lcg :=
  {| Learner := nat;
     Private := unit;
     _validate_estimator := fun _ b => (inr tt, b);
     _boost := fun i _ _ w env =>
       (script i w,
        {| be_estimators := be_estimators env ++ [i];
           be_process := be_process env;
           be_random_state := be_random_state env;
           be_private := be_private env |}) |}.

(** Every weight set to 1, learner weight 1, error 1/4. *)
Definition steady (i : nat) (w : list Q) : string + (option (list Q) * Q * Q) :=
  inr (Some (repeat 1%Q (length w)), 1%Q, (1 # 4)%Q).

(** As [steady], but a perfect fit in round 2. *)
Definition perfect_at_2 (i : nat) (w : list Q) : string + (option (list Q) * Q * Q) :=
  if (i =? 2)%nat then inr (Some (repeat 1%Q (length w)), 1%Q, 0%Q) else steady i w.

(** As [steady], but the stop signal in round 2. *)
Definition stop_at_2 (i : nat) (w : list Q) : string + (option (list Q) * Q * Q) :=
  if (i =? 2)%nat then inr (None, 0%Q, 0%Q) else steady i w.

(** ** Conversions to a 64-bit integer *)





(** A conversion that wraps an integer of the unsigned 64-bit range around,
    raises for the other integers out of range, and gives the least 64-bit
    integer for every other number out of range. *)
Definition wrapping_cast (q : Q) : option Z :=
  let z := Qtrunc q in
  if int64_range z then Some z
  else if Qeq_bool (inject_Z z) q
       then if ((2 ^ 63 <=? z) && (z <? 2 ^ 64))%Z
            then Some (z - 2 ^ 64)%Z else None
       else Some (- 2 ^ 63)%Z.

Lemma wrapping_cast_in_range q :
  int64_range (Qtrunc q) = true -> wrapping_cast q = Some (Qtrunc q).
Proof. unfold wrapping_cast. intros ->. reflexivity. Qed.

Lemma wrapping_cast_is_int64 q z :
  wrapping_cast q = Some z -> int64_range z = true.
Proof.
  unfold wrapping_cast. destruct (int64_range (Qtrunc q)) eqn:E.
  - intros Hz. injection Hz as <-. exact E.
  - destruct (Qeq_bool _ q).
    + destruct ((2 ^ 63 <=? Qtrunc q) && (Qtrunc q <? 2 ^ 64))%Z eqn:Ew;
        [| discriminate].
      intros Hz. injection Hz as <-.
      apply andb_true_iff in Ew as [Hlo Hhi].
      apply Z.leb_le in Hlo. apply Z.ltb_lt in Hhi.
      unfold int64_range. apply andb_true_iff.
      split; [apply Z.leb_le | apply Z.ltb_lt]; lia.
    + intros Hz. injection Hz as <-. reflexivity.
Qed.

#[export] Instance wrapping : Int64Cast :=
  {| to_int64 := wrapping_cast;
     to_int64_in_range := wrapping_cast_in_range;
     to_int64_is_int64 := wrapping_cast_is_int64 |}.

(** ** A small training set *)

Definition demo_X : matrix := [[0%Q]; [1%Q]; [2%Q]; [10%Q]; [12%Q]].
Definition demo_y : list Q := [0%Q; 0%Q; 0%Q; 1%Q; 1%Q].

Definition demo_process : @Process lcg :=
  @Build_Process lcg (1%Z : @Generator lcg) (5%Z : @Entropy lcg) [].

Definition demo_heap (script : nat -> list Q -> string + (option (list Q) * Q * Q))
    (n_samples n_estimators : nat) (learning_rate : Q)
    : @SMOTEBoost.Heap lcg (scripted script) :=
  @SMOTEBoost.Build_Heap lcg (scripted script)
    (@SMOTEBoost.init lcg (scripted script) n_samples n_estimators 1
       NoEstimator learning_rate (Some 7%Z))
    demo_process None (tt : @Private lcg (scripted script)).

End Doubles.

(** * The claims on the test doubles *)

Import Doubles.

Definition ok_or {A} (d : A) (o : outcome A) : A :=
  match o with Ok a => a | Raise _ => d end.

Definition is_ok {A} (o : outcome A) : bool :=
  match o with Ok _ => true | Raise _ => false end.

Lemma run_Ok {A S} (r : outcome A * S) (d : A) :
  is_ok (fst r) = true -> r = (Ok (ok_or d (fst r)), snd r).
Proof. destruct r as [[a | e] s]; simpl; [reflexivity | discriminate]. Qed.

Definition exn_or (d : exn) {A} (o : outcome A) : exn :=
  match o with Ok _ => d | Raise e => e end.

Lemma run_Raise {A S} (r : outcome A * S) (d : exn) :
  is_ok (fst r) = false -> r = (Raise (exn_or d (fst r)), snd r).
Proof. destruct r as [[a | e] s]; simpl; [discriminate | reflexivity]. Qed.

Lemma head_Some {A B} (o : option (A * B)) (d : A * B) (a : A) :
  option_map fst o = Some a -> o = Some ((default d o).1, (default d o).2).
Proof. destruct o as [[a' b'] |]; simpl; [reflexivity | discriminate]. Qed.

Definition no_locals : SMOTEBoost.Locals :=
  SMOTEBoost.Build_Locals [] floating [] [].

(** A run on the small training set with [k = 1], one synthetic row per
    round and learning rate 1: the locals and the heap when the loop is
    entered, and at the head of round [i]. *)
Definition demo_init (script : nat -> list Q -> string + (option (list Q) * Q * Q))
    (n_estimators : nat) :=
  SMOTEBoost.fit_init (H := lcg) (H1 := scripted script)
    float64 demo_X demo_y None None (demo_heap script 1 n_estimators 1%Q).
Definition demo_l0 script n_estimators : SMOTEBoost.Locals :=
  ok_or no_locals (fst (demo_init script n_estimators)).
Definition demo_h0 script n_estimators := snd (demo_init script n_estimators).
Definition demo_head script n_estimators (i : nat) :=
  default (no_locals, demo_h0 script n_estimators)
    (rounds (H := lcg) (H0 := brute) (H1 := scripted script)
       0 i (demo_l0 script n_estimators) (demo_h0 script n_estimators)).

Lemma demo_init_Ok script n :
  demo_init script n = (Ok (demo_l0 script n), demo_h0 script n).
Proof. exact (run_Ok (demo_init script n) no_locals eq_refl). Qed.

Lemma demo_head_steady_1 :
  rounds (H := lcg) (H0 := brute) (H1 := scripted steady)
    0 1 (demo_l0 steady 3) (demo_h0 steady 3) =
  Some ((demo_head steady 3 1).1, (demo_head steady 3 1).2).
Proof.
  apply (head_Some _ _ (demo_head steady 3 1).1). vm_compute. reflexivity.
Qed.

Lemma steady_keeps_length :
  booster_keeps_length (H := lcg) (H1 := scripted steady).
Proof.
  intros i X0 y0 w env w' a e env' Hb. simpl in Hb. unfold steady in Hb.
  injection Hb as <- _ _ _. apply repeat_length.
Qed.

Lemma steady_keeps_nonnegative :
  booster_keeps_nonnegative (H := lcg) (H1 := scripted steady).
Proof.
  intros i X0 y0 w env w' a e env' _ Hb. simpl in Hb. unfold steady in Hb.
  injection Hb as <- _ _ _. apply Forall_forall. intros x Hx.
  apply list_elem_of_In, repeat_spec in Hx. subst x. discriminate.
Qed.

(** C8 on the small training set: learning rate 0, then learning rate 1. *)
Lemma fit_learning_rate_check_witness :
  SMOTEBoost.fit (H := lcg) (H0 := brute) (H1 := scripted steady)
    float64 demo_X demo_y None None (demo_heap steady 1 3 0%Q) =
    (Raise learning_rate_error, demo_heap steady 1 3 0%Q) /\
  SMOTEBoost.fit (H := lcg) (H0 := brute) (H1 := scripted steady)
    float64 demo_X demo_y None None (demo_heap steady 1 3 1%Q) <>
    (Raise learning_rate_error, demo_heap steady 1 3 1%Q).
Proof.
  split.
  - apply (proj1 (fit_learning_rate_check (H := lcg) (H0 := brute)
                    (H1 := scripted steady) float64 demo_X demo_y None None
                    (demo_heap steady 1 3 0%Q))).
    simpl. apply Qle_refl.
  - apply (proj2 (fit_learning_rate_check (H := lcg) (H0 := brute)
                    (H1 := scripted steady) float64 demo_X demo_y None None
                    (demo_heap steady 1 3 1%Q))).
    reflexivity.
Defined.

(** The run of [fit] on the small training set with three rounds, and the
    training set that its locals hold at the end. *)
Abbreviation demo_run :=
  (SMOTEBoost.fit_locals (H := lcg) (H0 := brute) (H1 := scripted steady)
     float64 demo_X demo_y None None (demo_heap steady 1 3 1%Q))
  (only parsing).
Definition demo_result : matrix * list Q := ok_or ([], []) (fst demo_run).

Lemma demo_run_Ok :
  demo_run = (Ok (demo_result.1, demo_result.2), snd demo_run).
Proof.
  assert (Hok : is_ok (fst demo_run) = true) by (vm_compute; reflexivity).
  rewrite (run_Ok demo_run ([], []) Hok) at 1.
  unfold demo_result. destruct (ok_or _ _). reflexivity.
Qed.

(** C5 on the small training set: at the head of round 1, and when [fit]
    returns. *)
Lemma fit_dataset_size_witness :
  demo_init steady 3 = (Ok (demo_l0 steady 3), demo_h0 steady 3) /\
  (demo_run =
   SMOTEBoost.boost_loop (H := lcg) (H0 := brute) (H1 := scripted steady) 1
     (SMOTEBoost.n_estimators (SMOTEBoost.self (demo_heap steady 1 3 1%Q)) - 1)
     (demo_head steady 3 1).1 (demo_head steady 3 1).2) /\
  (length (SMOTEBoost.X (demo_head steady 3 1).1) = length demo_X +
     1 * SMOTEBoost.n_samples (SMOTEBoost.self (demo_heap steady 1 3 1%Q)) /\
   length (SMOTEBoost.y (demo_head steady 3 1).1) =
     length (SMOTEBoost.X (demo_head steady 3 1).1) /\
   length (SMOTEBoost.sample_weight (demo_head steady 3 1).1) =
     length (SMOTEBoost.X (demo_head steady 3 1).1)) /\
  length demo_result.2 = length demo_result.1 /\
  length demo_result.1 = 8.
Proof.
  split; [apply demo_init_Ok |].
  pose proof (fit_dataset_size (H := lcg) (H0 := brute) (H1 := scripted steady)
                float64 demo_X demo_y None None (demo_heap steady 1 3 1%Q)
                (demo_l0 steady 3) (demo_h0 steady 3)
                steady_keeps_length (demo_init_Ok steady 3)) as [Hheads Hend].
  destruct (Hheads 1 (demo_head steady 3 1).1 (demo_head steady 3 1).2
              demo_head_steady_1) as (Htie & Hsize & _).
  split; [apply Htie; simpl; lia |]. split; [exact Hsize |].
  destruct (Hend demo_result.1 demo_result.2 (snd demo_run) demo_run_Ok)
    as (Hy & [(l & _ & HX) | (i & l & hi & Hi & _ & _ & HX)]).
  - split; [exact Hy | exact HX].
  - split; [exact Hy |]. vm_compute. reflexivity.
Defined.

(** C9 on the small training set: at the head of round 1, and when [fit]
    returns. *)
Lemma fit_appends_batches_witness :
  demo_init steady 3 = (Ok (demo_l0 steady 3), demo_h0 steady 3) /\
  (demo_run =
   SMOTEBoost.boost_loop (H := lcg) (H0 := brute) (H1 := scripted steady) 1
     (SMOTEBoost.n_estimators (SMOTEBoost.self (demo_heap steady 1 3 1%Q)) - 1)
     (demo_head steady 3 1).1 (demo_head steady 3 1).2) /\
  length (batches (H := lcg) (H0 := brute) (H1 := scripted steady)
            0 1 (demo_l0 steady 3) (demo_h0 steady 3)) = 1 /\
  SMOTEBoost.X (demo_head steady 3 1).1 =
    demo_X ++ concat (batches (H := lcg) (H0 := brute) (H1 := scripted steady)
                        0 1 (demo_l0 steady 3) (demo_h0 steady 3)) /\
  demo_result.1 =
    demo_X ++ concat (batches (H := lcg) (H0 := brute) (H1 := scripted steady)
                        0 (SMOTEBoost.n_estimators
                             (SMOTEBoost.self (demo_heap steady 1 3 1%Q)))
                        (demo_l0 steady 3) (demo_h0 steady 3)).
Proof.
  split; [apply demo_init_Ok |].
  destruct (fit_appends_batches (H := lcg) (H0 := brute) (H1 := scripted steady)
              float64 demo_X demo_y None None (demo_heap steady 1 3 1%Q)
              (demo_l0 steady 3) (demo_h0 steady 3) (demo_init_Ok steady 3))
    as (m & _ & Hheads & Hend).
  destruct (Hheads 1 (demo_head steady 3 1).1 (demo_head steady 3 1).2
              demo_head_steady_1) as (Htie & Hlen & HX & _).
  split; [apply Htie; simpl; lia |].
  split; [exact Hlen |]. split; [exact HX |].
  exact (proj1 (Hend demo_result.1 demo_result.2 (snd demo_run) demo_run_Ok)).
Defined.

(** The round-1 locals that go to the boosting step. *)
Abbreviation demo_augmented script n_estimators i :=
  (SMOTEBoost.augment (H := lcg) (H0 := brute) (H1 := scripted script)
     (demo_head script n_estimators i).1 (demo_head script n_estimators i).2)
  (only parsing).
Definition demo_l1 script n_estimators i : SMOTEBoost.Locals :=
  ok_or no_locals (fst (demo_augmented script n_estimators i)).
Definition demo_h1 script n_estimators i :=
  snd (demo_augmented script n_estimators i).

Lemma demo_augmented_steady_1 :
  demo_augmented steady 3 1 = (Ok (demo_l1 steady 3 1), demo_h1 steady 3 1).
Proof.
  assert (Hok : is_ok (fst (demo_augmented steady 3 1)) = true)
    by (vm_compute; reflexivity).
  exact (run_Ok (demo_augmented steady 3 1) no_locals Hok).
Qed.

(** C6 on the small training set, at the boosting call of round 1. *)
Lemma fit_weights_normalized_witness :
  demo_init steady 3 = (Ok (demo_l0 steady 3), demo_h0 steady 3) /\
  (Qsum (SMOTEBoost.sample_weight (demo_l1 steady 3 1)) == 1)%Q.
Proof.
  split; [apply demo_init_Ok |].
  exact (proj1 (proj2
    (proj1 (fit_weights_normalized (H := lcg) (H0 := brute)
              (H1 := scripted steady)
              float64 demo_X demo_y None None (demo_heap steady 1 3 1%Q)
              (demo_l0 steady 3) (demo_h0 steady 3)
              steady_keeps_nonnegative (demo_init_Ok steady 3)
              1 (demo_head steady 3 1).1 (demo_head steady 3 1).2
              demo_head_steady_1)
       (demo_l1 steady 3 1) (demo_h1 steady 3 1) demo_augmented_steady_1))).
Defined.

(** The answer of the boosting call of round [i]. *)
Abbreviation demo_boost script n_estimators i :=
  (SMOTEBoost.boost (H := lcg) (H1 := scripted script) i
     (demo_l1 script n_estimators i) (demo_h1 script n_estimators i))
  (only parsing).
Definition demo_answer script n_estimators i : option (list Q) * Q * Q :=
  ok_or (None, 0%Q, 0%Q) (fst (demo_boost script n_estimators i)).

Lemma demo_head_Some script n i :
  is_Some (rounds (H := lcg) (H0 := brute) (H1 := scripted script)
             0 i (demo_l0 script n) (demo_h0 script n)) ->
  rounds (H := lcg) (H0 := brute) (H1 := scripted script)
    0 i (demo_l0 script n) (demo_h0 script n) =
  Some ((demo_head script n i).1, (demo_head script n i).2).
Proof.
  unfold demo_head. intros [[l h] ->]. reflexivity.
Qed.

Lemma is_Some_fst {A B} (o : option (A * B)) :
  bool_decide (is_Some (option_map fst o)) = true -> is_Some o.
Proof. destruct o; simpl; [eauto | intros Hd; discriminate]. Qed.

Lemma demo_head_perfect_2 :
  rounds (H := lcg) (H0 := brute) (H1 := scripted perfect_at_2)
    0 2 (demo_l0 perfect_at_2 5) (demo_h0 perfect_at_2 5) =
  Some ((demo_head perfect_at_2 5 2).1, (demo_head perfect_at_2 5 2).2).
Proof. apply demo_head_Some, is_Some_fst. vm_compute. reflexivity. Qed.

Lemma demo_augmented_perfect_2 :
  demo_augmented perfect_at_2 5 2 =
  (Ok (demo_l1 perfect_at_2 5 2), demo_h1 perfect_at_2 5 2).
Proof.
  assert (Hok : is_ok (fst (demo_augmented perfect_at_2 5 2)) = true)
    by (vm_compute; reflexivity).
  exact (run_Ok (demo_augmented perfect_at_2 5 2) no_locals Hok).
Qed.

Lemma demo_boost_perfect_2 :
  demo_boost perfect_at_2 5 2 =
  (Ok ((demo_answer perfect_at_2 5 2).1.1, (demo_answer perfect_at_2 5 2).1.2,
       (demo_answer perfect_at_2 5 2).2),
   snd (demo_boost perfect_at_2 5 2)).
Proof.
  assert (Hok : is_ok (fst (demo_boost perfect_at_2 5 2)) = true)
    by (vm_compute; reflexivity).
  rewrite (run_Ok (demo_boost perfect_at_2 5 2) (None, 0%Q, 0%Q) Hok) at 1.
  unfold demo_answer.
  destruct (ok_or _ _) as [[ow a] e]. reflexivity.
Qed.

Lemma demo_head_stop_2 :
  rounds (H := lcg) (H0 := brute) (H1 := scripted stop_at_2)
    0 2 (demo_l0 stop_at_2 5) (demo_h0 stop_at_2 5) =
  Some ((demo_head stop_at_2 5 2).1, (demo_head stop_at_2 5 2).2).
Proof. apply demo_head_Some, is_Some_fst. vm_compute. reflexivity. Qed.

Lemma demo_augmented_stop_2 :
  demo_augmented stop_at_2 5 2 =
  (Ok (demo_l1 stop_at_2 5 2), demo_h1 stop_at_2 5 2).
Proof.
  assert (Hok : is_ok (fst (demo_augmented stop_at_2 5 2)) = true)
    by (vm_compute; reflexivity).
  exact (run_Ok (demo_augmented stop_at_2 5 2) no_locals Hok).
Qed.

Lemma demo_boost_stop_2 :
  demo_boost stop_at_2 5 2 =
  (Ok ((demo_answer stop_at_2 5 2).1.1, (demo_answer stop_at_2 5 2).1.2,
       (demo_answer stop_at_2 5 2).2),
   snd (demo_boost stop_at_2 5 2)).
Proof.
  assert (Hok : is_ok (fst (demo_boost stop_at_2 5 2)) = true)
    by (vm_compute; reflexivity).
  rewrite (run_Ok (demo_boost stop_at_2 5 2) (None, 0%Q, 0%Q) Hok) at 1.
  unfold demo_answer.
  destruct (ok_or _ _) as [[ow a] e]. reflexivity.
Qed.

(** C7 on the small training set: five rounds allowed, the boosting step
    answering round 2 with error 0 in one run and with the stop signal in
    another. *)
Lemma fit_early_stop_witness :
  (exists hf ws es,
     SMOTEBoost.fit (H := lcg) (H0 := brute) (H1 := scripted perfect_at_2)
       float64 demo_X demo_y None None (demo_heap perfect_at_2 1 5 1%Q) = (Ok tt, hf) /\
     SMOTEBoost.estimator_weights_ (SMOTEBoost.self hf) = Some ws /\
     SMOTEBoost.estimator_errors_ (SMOTEBoost.self hf) = Some es /\
     ws !! 2 = Some (demo_answer perfect_at_2 5 2).1.2 /\
     es !! 2 = Some (demo_answer perfect_at_2 5 2).2 /\
     (ws !! 3 = Some 0%Q /\ es !! 3 = Some 1%Q) /\
     (ws !! 4 = Some 0%Q /\ es !! 4 = Some 1%Q)) /\
  (exists hf ws es,
     SMOTEBoost.fit (H := lcg) (H0 := brute) (H1 := scripted stop_at_2)
       float64 demo_X demo_y None None (demo_heap stop_at_2 1 5 1%Q) = (Ok tt, hf) /\
     SMOTEBoost.estimator_weights_ (SMOTEBoost.self hf) = Some ws /\
     SMOTEBoost.estimator_errors_ (SMOTEBoost.self hf) = Some es /\
     (ws !! 2 = Some 0%Q /\ es !! 2 = Some 1%Q) /\
     (ws !! 3 = Some 0%Q /\ es !! 3 = Some 1%Q) /\
     (ws !! 4 = Some 0%Q /\ es !! 4 = Some 1%Q)).
Proof.
  split.
  - assert (Hi : 2 < SMOTEBoost.n_estimators
                       (SMOTEBoost.self (demo_heap perfect_at_2 1 5 1%Q)))
      by (simpl; lia).
    destruct (fit_early_stop (H := lcg) (H0 := brute) (H1 := scripted perfect_at_2)
                float64 demo_X demo_y None None (demo_heap perfect_at_2 1 5 1%Q)
                (demo_l0 perfect_at_2 5) (demo_h0 perfect_at_2 5) 2
                (demo_head perfect_at_2 5 2).1 (demo_head perfect_at_2 5 2).2
                (demo_l1 perfect_at_2 5 2) (demo_h1 perfect_at_2 5 2)
                (demo_answer perfect_at_2 5 2).1.1 (demo_answer perfect_at_2 5 2).1.2
                (demo_answer perfect_at_2 5 2).2 (snd (demo_boost perfect_at_2 5 2))
                (demo_init_Ok perfect_at_2 5) Hi demo_head_perfect_2
                demo_augmented_perfect_2 demo_boost_perfect_2) as [Hzero _].
    destruct (Hzero (default [] (demo_answer perfect_at_2 5 2).1.1))
      as (hf & ws & es & Hfit & Hws & Hes & Hw2 & He2 & Hlater).
    { vm_compute. reflexivity. }
    { vm_compute. reflexivity. }
    exists hf, ws, es. repeat split; try assumption;
      apply Hlater; simpl; lia.
  - assert (Hi : 2 < SMOTEBoost.n_estimators
                       (SMOTEBoost.self (demo_heap stop_at_2 1 5 1%Q)))
      by (simpl; lia).
    destruct (fit_early_stop (H := lcg) (H0 := brute) (H1 := scripted stop_at_2)
                float64 demo_X demo_y None None (demo_heap stop_at_2 1 5 1%Q)
                (demo_l0 stop_at_2 5) (demo_h0 stop_at_2 5) 2
                (demo_head stop_at_2 5 2).1 (demo_head stop_at_2 5 2).2
                (demo_l1 stop_at_2 5 2) (demo_h1 stop_at_2 5 2)
                (demo_answer stop_at_2 5 2).1.1 (demo_answer stop_at_2 5 2).1.2
                (demo_answer stop_at_2 5 2).2 (snd (demo_boost stop_at_2 5 2))
                (demo_init_Ok stop_at_2 5) Hi demo_head_stop_2
                demo_augmented_stop_2 demo_boost_stop_2) as [_ Hstop].
    destruct Hstop as (hf & ws & es & Hfit & Hws & Hes & Hlater).
    { vm_compute. reflexivity. }
    exists hf, ws, es. repeat split; try assumption;
      apply Hlater; simpl; lia.
Defined.


Definition two_63 : Q := inject_Z (2 ^ 63).

Lemma three_halves_not_int64 : ~ int64_label (3 # 2)%Q.
Proof.
  intros Hint. apply int64_label_iff in Hint as [_ Heq].
  vm_compute in Heq. discriminate.
Qed.

Lemma two_63_not_int64 : ~ int64_label two_63.
Proof.
  intros Hint. apply int64_label_iff in Hint as [Hr _].
  vm_compute in Hr. discriminate.
Qed.


(** The SMOTE step on the test doubles. *)
Abbreviation demo_smote l h :=
  (SMOTEBoost.smote_step (H := lcg) (H0 := brute) (H1 := scripted steady) l h)
  (only parsing).


(** ** The sampler on three points *)

Definition three_points : matrix := [[0%Q]; [1%Q]; [3%Q]].
Definition demo_sampler : SMOTE.t := fitted (SMOTE.init 1 (Some 7%Z)) float64 three_points.

(** The process-wide stream in the state a seeding with 7 gives. *)
Definition seeded_process : @Process lcg :=
  @Build_Process lcg (seed_int (NumpyRandom := lcg) 7%Z) (5%Z : @Entropy lcg) [].

(** C1 on the three points: two calls in a row. *)
Lemma sample_reseeds_witness :
  fst (SMOTE.sample (H := lcg) (H0 := brute) demo_sampler 2 seeded_process) =
  fst (SMOTE.sample (H := lcg) (H0 := brute) demo_sampler 2
         (snd (SMOTE.sample (H := lcg) (H0 := brute) demo_sampler 2
                 seeded_process))).
Proof.
  exact (proj1 (proj2 (sample_reseeds (H := lcg) (H0 := brute) demo_sampler 2))
           7%Z seeded_process _ _ _ _ eq_refl
           (surjective_pairing _) (surjective_pairing _)).
Defined.

(** C3 on two points with [k = 5]. *)
Lemma smote_fit_no_size_check_witness :
  SMOTE.fit float64 [[0%Q]; [1%Q]] (SMOTE.init 5 None) =
    (Ok tt, fitted (SMOTE.init 5 None) float64 [[0%Q]; [1%Q]]) /\
  exists p',
    SMOTE.sample (H := lcg) (H0 := brute)
      (fitted (SMOTE.init 5 None) float64 [[0%Q]; [1%Q]]) 1 seeded_process =
    (Raise (ValueError "Expected n_neighbors <= n_samples"), p').
Proof.
  pose proof (smote_fit_no_size_check (H := lcg) (H0 := brute)
                (H1 := scripted steady) (SMOTE.init 5 None) float64 [[0%Q]; [1%Q]])
    as (Hfit & _ & Hsample & _).
  split.
  - apply Hfit; simpl; lia.
  - apply Hsample; simpl; [lia | lia | exact I].
Defined.



(** ** Where the code departs from the claims *)

(** The sampler of the specification's words: the stream is seeded once,
    when the sampler is built, and [sample] only draws from it. *)
Definition sample_one_stream `{NumpyRandom} `{NeighborSearch}
    (self : SMOTE.t) (n_samples : nat) : M Process matrix :=
  (_ <- attr "n_features" (SMOTE.n_features self) ;;
   SMOTE.sample_rows self n_samples)%monad.

(** C1 fails: with [random_state = 7], the second of two calls of
    [sample(2)] in a row returns the rows of the first, where drawing on
    from the one stream would have returned other rows. *)
Lemma sample_restarts_stream :
  let first := SMOTE.sample (H := lcg) (H0 := brute) demo_sampler 2 seeded_process in
  fst first = Ok [[(667 # 1000)%Q]; [(360 # 1000)%Q]] /\
  fst (SMOTE.sample (H := lcg) (H0 := brute) demo_sampler 2 (snd first)) =
    Ok [[(667 # 1000)%Q]; [(360 # 1000)%Q]] /\
  fst (sample_one_stream (H := lcg) (H0 := brute) demo_sampler 2 (snd first)) =
    Ok [[(913 # 1000)%Q]; [(450 # 1000)%Q]].
Proof. cbv zeta. repeat split; vm_compute; reflexivity. Qed.

(** C3 fails: [fit] succeeds on a set of two points with [k = 5]. *)
Lemma smote_fit_accepts_few_points :
  fst (SMOTE.fit float64 [[0%Q]; [1%Q]] (SMOTE.init 5 None)) = Ok tt.
Proof. reflexivity. Qed.


(** C2 does not hold of the code: with the learning rate 1 and the weights
    [1, 1, 1, 1, 1] supplied for the five rows, [fit] raises [NameError] at
    line 175 and leaves the heap as it was; and had the name been bound, the
    weights [-1, -1], of sum -2, would have passed the test of line 180 as
    [1/2, 1/2]. *)
Theorem supplied_weights_NameError :
  SMOTEBoost.fit (H := lcg) (H0 := brute) (H1 := scripted steady)
    float64 demo_X demo_y (Some [1%Q; 1%Q; 1%Q; 1%Q; 1%Q]) None
    (demo_heap steady 1 3 1%Q) =
    (Raise (NameError "check_array"), demo_heap steady 1 3 1%Q) /\
  normalize_existing_weights [(-1)%Q; (-1)%Q] =
    Ok [Fin (1 # 2)%Q; Fin (1 # 2)%Q].
Proof.
  split.
  - apply (fit_supplied_weights (H := lcg) (H0 := brute) (H1 := scripted steady));
      reflexivity.
  - vm_compute. reflexivity.
Qed.

(** * The further properties on the test doubles *)

(** ** The sampler *)

(** X1 on a sampler just built, with seed 7. *)
Lemma sample_before_fit_witness :
  exists p',
    SMOTE.sample (H := lcg) (H0 := brute) (SMOTE.init 5 (Some 7%Z)) 2 demo_process =
      (Raise (AttributeError "n_features"), p') /\
    drawn p' = drawn demo_process ++ [DSeed] /\
    (forall s, Some 7%Z = Some s -> np_random p' = seed_int s).
Proof.
  apply (sample_before_fit (H := lcg) (H0 := brute) 5 (Some 7%Z) 2 demo_process).
  simpl. lia.
Defined.

Lemma three_points_sampled :
  SMOTE.sample (H := lcg) (H0 := brute)
    (fitted (SMOTE.init 1 (Some 7%Z)) float64 three_points) 2 seeded_process =
  (Ok (ok_or [] (fst (SMOTE.sample (H := lcg) (H0 := brute)
                        (fitted (SMOTE.init 1 (Some 7%Z)) float64 three_points) 2
                        seeded_process))),
   snd (SMOTE.sample (H := lcg) (H0 := brute)
          (fitted (SMOTE.init 1 (Some 7%Z)) float64 three_points) 2 seeded_process)).
Proof. apply run_Ok. vm_compute. reflexivity. Qed.

(** X2 on the three points. *)
Lemma sample_within_minority_witness :
  Forall (fun s => exists j nb,
            j < length three_points /\ nb < length three_points /\
            within (row three_points j) (row three_points nb) s)
    (ok_or [] (fst (SMOTE.sample (H := lcg) (H0 := brute)
                      (fitted (SMOTE.init 1 (Some 7%Z)) float64 three_points) 2
                      seeded_process))).
Proof.
  exact (sample_within_minority (H := lcg) (H0 := brute)
           (SMOTE.init 1 (Some 7%Z)) float64 three_points 2 seeded_process _ _
           (exact_differences_floating three_points) three_points_sampled).
Defined.

(** X3 on the three points, with [k_neighbors = 0]. *)
Lemma sample_without_neighbours_witness :
  exists p',
    SMOTE.sample (H := lcg) (H0 := brute)
      (fitted (SMOTE.init 0 None) float64 three_points) 1 seeded_process =
    (Raise (ValueError "a must be non-empty"), p').
Proof.
  apply (sample_without_neighbours (H := lcg) (H0 := brute)
           (SMOTE.init 0 None) float64 three_points 0 seeded_process).
  - reflexivity.
  - simpl. lia.
  - exact I.
Defined.

Lemma two_points_sampled :
  SMOTE.sample (H := lcg) (H0 := brute)
    (fitted (SMOTE.init 1 (Some 7%Z)) float64 [[0%Q; 4%Q]; [2%Q; 0%Q]]) 3 seeded_process =
  (Ok (ok_or [] (fst (SMOTE.sample (H := lcg) (H0 := brute)
                        (fitted (SMOTE.init 1 (Some 7%Z)) float64 [[0%Q; 4%Q]; [2%Q; 0%Q]])
                        3 seeded_process))),
   snd (SMOTE.sample (H := lcg) (H0 := brute)
          (fitted (SMOTE.init 1 (Some 7%Z)) float64 [[0%Q; 4%Q]; [2%Q; 0%Q]]) 3
          seeded_process)).
Proof. apply run_Ok. vm_compute. reflexivity. Qed.

(** X4 on the points (0, 4) and (2, 0). *)
Lemma sample_two_points_witness :
  Forall (fun s => exists gap,
            (0 <= gap)%Q /\ (gap < 1)%Q /\
            (veq s (vadd [0%Q; 4%Q] (vscale gap (vsub [2%Q; 0%Q] [0%Q; 4%Q]))) \/
             veq s (vadd [2%Q; 0%Q] (vscale gap (vsub [0%Q; 4%Q] [2%Q; 0%Q])))))
    (ok_or [] (fst (SMOTE.sample (H := lcg) (H0 := brute)
                      (fitted (SMOTE.init 1 (Some 7%Z)) float64 [[0%Q; 4%Q]; [2%Q; 0%Q]])
                      3 seeded_process))).
Proof.
  exact (sample_two_points (H := lcg) (H0 := brute)
           (SMOTE.init 1 (Some 7%Z)) float64 [0%Q; 4%Q] [2%Q; 0%Q] 3
           seeded_process _ _ eq_refl eq_refl
           (exact_differences_floating [[0%Q; 4%Q]; [2%Q; 0%Q]])
           two_points_sampled).
Defined.

(** ** The minority label *)

(** X5 on the small training set. *)
Lemma fit_minority_least_frequent_witness :
  exists m,
    SMOTEBoost.minority_target (SMOTEBoost.self (demo_h0 steady 3)) = Some m /\
    m ∈ demo_y /\
    forall v, v ∈ demo_y -> count_of m demo_y <= count_of v demo_y.
Proof.
  exact (fit_minority_least_frequent (H := lcg) (H1 := scripted steady)
           float64 demo_X demo_y None (demo_heap steady 1 3 1%Q)
           (demo_l0 steady 3) (demo_h0 steady 3) (demo_init_Ok steady 3)).
Defined.

(** Four rows, the labels 1 and 0 twice each, 1 first. *)
Definition tied_X : matrix := [[0%Q]; [1%Q]; [10%Q]; [12%Q]].
Definition tied_y : list Q := [1%Q; 0%Q; 0%Q; 1%Q].
Definition tied_init :=
  SMOTEBoost.fit_init (H := lcg) (H1 := scripted steady)
    float64 tied_X tied_y None None (demo_heap steady 1 3 1%Q).

Lemma tied_init_Ok :
  tied_init = (Ok (ok_or no_locals (fst tied_init)), snd tied_init).
Proof. exact (run_Ok tied_init no_locals eq_refl). Qed.

(** X6 on the tied labels. *)
Lemma fit_minority_first_of_ties_witness :
  exists m,
    SMOTEBoost.minority_target (SMOTEBoost.self (snd tied_init)) = Some m /\
    forall v, v ∈ tied_y -> count_of v tied_y = count_of m tied_y ->
              first_pos m tied_y <= first_pos v tied_y.
Proof.
  exact (fit_minority_first_of_ties (H := lcg) (H1 := scripted steady)
           float64 tied_X tied_y None (demo_heap steady 1 3 1%Q)
           (ok_or no_locals (fst tied_init)) (snd tied_init) tied_init_Ok).
Defined.

(** ** The ways out of the loop *)

(** As [steady], but every weight set to 0 in round 1. *)
Definition zero_at_1 (i : nat) (w : list Q) : string + (option (list Q) * Q * Q) :=
  if (i =? 1)%nat then inr (Some (repeat 0%Q (length w)), 1%Q, (1 # 4)%Q)
  else steady i w.

Lemma demo_head_zero_1 :
  rounds (H := lcg) (H0 := brute) (H1 := scripted zero_at_1)
    0 1 (demo_l0 zero_at_1 3) (demo_h0 zero_at_1 3) =
  Some ((demo_head zero_at_1 3 1).1, (demo_head zero_at_1 3 1).2).
Proof. apply demo_head_Some, is_Some_fst. vm_compute. reflexivity. Qed.

Lemma demo_augmented_zero_1 :
  demo_augmented zero_at_1 3 1 =
  (Ok (demo_l1 zero_at_1 3 1), demo_h1 zero_at_1 3 1).
Proof.
  assert (Hok : is_ok (fst (demo_augmented zero_at_1 3 1)) = true)
    by (vm_compute; reflexivity).
  exact (run_Ok (demo_augmented zero_at_1 3 1) no_locals Hok).
Qed.

Lemma answer_Some (r : option (list Q) * Q * Q) :
  match r.1.1 with Some _ => true | None => false end = true ->
  r = (Some (default [] r.1.1), r.1.2, r.2).
Proof. destruct r as [[[w |] a] e]; simpl; [reflexivity | discriminate]. Qed.

Lemma demo_boost_zero_1 :
  demo_boost zero_at_1 3 1 =
  (Ok (Some (default [] (demo_answer zero_at_1 3 1).1.1),
       (demo_answer zero_at_1 3 1).1.2, (demo_answer zero_at_1 3 1).2),
   snd (demo_boost zero_at_1 3 1)).
Proof.
  assert (Hok : is_ok (fst (demo_boost zero_at_1 3 1)) = true)
    by (vm_compute; reflexivity).
  rewrite (run_Ok (demo_boost zero_at_1 3 1) (None, 0%Q, 0%Q) Hok) at 1.
  fold (demo_answer zero_at_1 3 1).
  rewrite (answer_Some (demo_answer zero_at_1 3 1)) at 1; [reflexivity |].
  vm_compute. reflexivity.
Qed.

(** X7 on the small training set: three rounds allowed, the boosting step
    returning weights of sum 0 in round 1. *)
Lemma fit_stops_on_weight_sum_witness :
  exists hf ws es,
    SMOTEBoost.fit (H := lcg) (H0 := brute) (H1 := scripted zero_at_1)
      float64 demo_X demo_y None None (demo_heap zero_at_1 1 3 1%Q) = (Ok tt, hf) /\
    SMOTEBoost.estimators_ (SMOTEBoost.self hf) =
      SMOTEBoost.estimators_ (SMOTEBoost.self (snd (demo_boost zero_at_1 3 1))) /\
    SMOTEBoost.estimator_weights_ (SMOTEBoost.self hf) = Some ws /\
    SMOTEBoost.estimator_errors_ (SMOTEBoost.self hf) = Some es /\
    ws !! 1 = Some (demo_answer zero_at_1 3 1).1.2 /\
    es !! 1 = Some (demo_answer zero_at_1 3 1).2 /\
    forall j, 1 < j ->
      j < SMOTEBoost.n_estimators (SMOTEBoost.self (demo_heap zero_at_1 1 3 1%Q)) ->
      ws !! j = Some 0%Q /\ es !! j = Some 1%Q.
Proof.
  assert (Hi : 1 < SMOTEBoost.n_estimators
                     (SMOTEBoost.self (demo_heap zero_at_1 1 3 1%Q)))
    by (simpl; lia).
  assert (Hsum : (Qsum (default [] (demo_answer zero_at_1 3 1).1.1) <= 0)%Q).
  { apply Qle_bool_iff. vm_compute. reflexivity. }
  exact (fit_stops_on_weight_sum (H := lcg) (H0 := brute) (H1 := scripted zero_at_1)
           float64 demo_X demo_y None None (demo_heap zero_at_1 1 3 1%Q)
           (demo_l0 zero_at_1 3) (demo_h0 zero_at_1 3) 1
           (demo_head zero_at_1 3 1).1 (demo_head zero_at_1 3 1).2
           (demo_l1 zero_at_1 3 1) (demo_h1 zero_at_1 3 1)
           (default [] (demo_answer zero_at_1 3 1).1.1)
           (demo_answer zero_at_1 3 1).1.2 (demo_answer zero_at_1 3 1).2
           (snd (demo_boost zero_at_1 3 1))
           (demo_init_Ok zero_at_1 3) Hi demo_head_zero_1
           demo_augmented_zero_1 demo_boost_zero_1 Hsum).
Defined.

Lemma demo_head_steady_3 :
  rounds (H := lcg) (H0 := brute) (H1 := scripted steady)
    0 (SMOTEBoost.n_estimators (SMOTEBoost.self (demo_heap steady 1 3 1%Q)))
    (demo_l0 steady 3) (demo_h0 steady 3) =
  Some ((demo_head steady 3 3).1, (demo_head steady 3 3).2).
Proof.
  change (SMOTEBoost.n_estimators (SMOTEBoost.self (demo_heap steady 1 3 1%Q)))
    with 3.
  apply demo_head_Some, is_Some_fst. vm_compute. reflexivity.
Qed.

(** X8 on the small training set: the three rounds allowed all go on. *)
Lemma fit_records_every_round_witness :
  SMOTEBoost.fit (H := lcg) (H0 := brute) (H1 := scripted steady)
    float64 demo_X demo_y None None (demo_heap steady 1 3 1%Q) =
    (Ok tt, (demo_head steady 3 3).2) /\
  exists ws es,
    SMOTEBoost.estimator_weights_ (SMOTEBoost.self (demo_head steady 3 3).2) =
      Some ws /\
    SMOTEBoost.estimator_errors_ (SMOTEBoost.self (demo_head steady 3 3).2) =
      Some es /\
    length ws = SMOTEBoost.n_estimators (SMOTEBoost.self (demo_heap steady 1 3 1%Q)) /\
    length es = SMOTEBoost.n_estimators (SMOTEBoost.self (demo_heap steady 1 3 1%Q)) /\
    forall i l hi l1 h1 ow a e h2,
      i < SMOTEBoost.n_estimators (SMOTEBoost.self (demo_heap steady 1 3 1%Q)) ->
      rounds (H := lcg) (H0 := brute) (H1 := scripted steady)
        0 i (demo_l0 steady 3) (demo_h0 steady 3) = Some (l, hi) ->
      SMOTEBoost.augment (H := lcg) (H0 := brute) (H1 := scripted steady)
        l hi = (Ok l1, h1) ->
      SMOTEBoost.boost (H := lcg) (H1 := scripted steady) i l1 h1 =
        (Ok (ow, a, e), h2) ->
      ws !! i = Some a /\ es !! i = Some e.
Proof.
  exact (fit_records_every_round (H := lcg) (H0 := brute) (H1 := scripted steady)
           float64 demo_X demo_y None None (demo_heap steady 1 3 1%Q)
           (demo_l0 steady 3) (demo_h0 steady 3)
           (demo_head steady 3 3).1 (demo_head steady 3 3).2
           (demo_init_Ok steady 3) demo_head_steady_3).
Defined.

(** ** The first round and the minority rows *)

Lemma demo_first_augment :
  SMOTEBoost.augment (H := lcg) (H0 := brute) (H1 := scripted steady)
    (demo_l0 steady 3) (demo_h0 steady 3) =
  (Ok (ok_or no_locals
         (fst (SMOTEBoost.augment (H := lcg) (H0 := brute) (H1 := scripted steady)
                 (demo_l0 steady 3) (demo_h0 steady 3)))),
   snd (SMOTEBoost.augment (H := lcg) (H0 := brute) (H1 := scripted steady)
          (demo_l0 steady 3) (demo_h0 steady 3))).
Proof. apply run_Ok. vm_compute. reflexivity. Qed.

(** X9 on the small training set: five rows and one synthetic row. *)
Lemma first_round_weights_uniform_witness :
  length (SMOTEBoost.sample_weight
            (ok_or no_locals
               (fst (SMOTEBoost.augment (H := lcg) (H0 := brute)
                       (H1 := scripted steady)
                       (demo_l0 steady 3) (demo_h0 steady 3))))) =
    length demo_X + SMOTEBoost.n_samples (SMOTEBoost.self (demo_heap steady 1 3 1%Q)) /\
  Forall (fun x =>
            (x == 1 / inject_Z (Z.of_nat
                      (length demo_X +
                       SMOTEBoost.n_samples
                         (SMOTEBoost.self (demo_heap steady 1 3 1%Q)))))%Q)
    (SMOTEBoost.sample_weight
       (ok_or no_locals
          (fst (SMOTEBoost.augment (H := lcg) (H0 := brute) (H1 := scripted steady)
                  (demo_l0 steady 3) (demo_h0 steady 3))))).
Proof.
  exact (first_round_weights_uniform (H := lcg) (H0 := brute) (H1 := scripted steady)
           float64 demo_X demo_y None None (demo_heap steady 1 3 1%Q)
           (demo_l0 steady 3) (demo_h0 steady 3) _ _
           (demo_init_Ok steady 3) demo_first_augment).
Defined.

Lemma demo_minority_target :
  SMOTEBoost.minority_target (SMOTEBoost.self (demo_h0 steady 3)) = Some 1%Q.
Proof. vm_compute. reflexivity. Qed.

Lemma one_is_int64 : int64_label 1%Q.
Proof. exists 1%Z. split; reflexivity. Qed.

(** The small training set with the labels 0 and 2^63, which the
    conversion of the test double wraps around to -2^63. *)
Definition big_y : list Q := [0%Q; 0%Q; 0%Q; two_63; two_63].
Definition big_init :=
  SMOTEBoost.fit_init (H := lcg) (H1 := scripted steady)
    float64 demo_X big_y None None (demo_heap steady 1 3 1%Q).
Definition big_l0 : SMOTEBoost.Locals := ok_or no_locals (fst big_init).
Definition big_h0 := snd big_init.
Definition big_head (i : nat) :=
  default (no_locals, big_h0)
    (rounds (H := lcg) (H0 := brute) (H1 := scripted steady) 0 i big_l0 big_h0).

Lemma big_init_Ok : big_init = (Ok big_l0, big_h0).
Proof. exact (run_Ok big_init no_locals eq_refl). Qed.

Lemma big_minority_target :
  SMOTEBoost.minority_target (SMOTEBoost.self big_h0) = Some two_63.
Proof. vm_compute. reflexivity. Qed.

Lemma big_head_2 :
  rounds (H := lcg) (H0 := brute) (H1 := scripted steady) 0 2 big_l0 big_h0 =
  Some ((big_head 2).1, (big_head 2).2).
Proof.
  apply (head_Some _ _ (big_head 2).1). vm_compute. reflexivity.
Qed.

(** X10 on the small training set, at the head of round 1: the two
    minority rows and the synthetic row of round 0; and on the labels 0 and
    2^63, at the head of round 2: the two minority rows alone. *)
Lemma minority_rows_over_rounds_witness :
  (SMOTEBoost.minority_target (SMOTEBoost.self (demo_head steady 3 1).2) =
     Some 1%Q /\
   minority_rows (SMOTEBoost.X (demo_head steady 3 1).1)
     (SMOTEBoost.y (demo_head steady 3 1).1) 1%Q =
     minority_rows demo_X demo_y 1%Q ++
     concat (batches (H := lcg) (H0 := brute) (H1 := scripted steady)
               0 1 (demo_l0 steady 3) (demo_h0 steady 3)) /\
   length (minority_rows (SMOTEBoost.X (demo_head steady 3 1).1)
             (SMOTEBoost.y (demo_head steady 3 1).1) 1%Q) =
     length (minority_rows demo_X demo_y 1%Q) +
     1 * SMOTEBoost.n_samples (SMOTEBoost.self (demo_heap steady 1 3 1%Q))) /\
  (SMOTEBoost.minority_target (SMOTEBoost.self (big_head 2).2) = Some two_63 /\
   minority_rows (SMOTEBoost.X (big_head 2).1) (SMOTEBoost.y (big_head 2).1)
     two_63 = minority_rows demo_X big_y two_63).
Proof.
  split.
  - destruct (minority_rows_over_rounds (H := lcg) (H0 := brute)
                (H1 := scripted steady)
                float64 demo_X demo_y None None (demo_heap steady 1 3 1%Q)
                (demo_l0 steady 3) (demo_h0 steady 3) 1%Q 1
                (demo_head steady 3 1).1 (demo_head steady 3 1).2
                (demo_init_Ok steady 3) demo_minority_target demo_head_steady_1)
      as (Hlabel & Hint & _).
    split; [exact Hlabel | exact (Hint one_is_int64)].
  - destruct (minority_rows_over_rounds (H := lcg) (H0 := brute)
                (H1 := scripted steady)
                float64 demo_X big_y None None (demo_heap steady 1 3 1%Q)
                big_l0 big_h0 two_63 2 (big_head 2).1 (big_head 2).2
                big_init_Ok big_minority_target big_head_2)
      as (Hlabel & _ & Hother).
    split; [exact Hlabel | exact (Hother two_63_not_int64)].
Defined.

(** The small training set with the minority label 5 named by the
    caller. *)
Definition override_init :=
  SMOTEBoost.fit_init (H := lcg) (H1 := scripted steady)
    float64 demo_X demo_y None (Some 5%Q) (demo_heap steady 1 3 1%Q).

Lemma override_init_Ok :
  override_init = (Ok (ok_or no_locals (fst override_init)), snd override_init).
Proof. exact (run_Ok override_init no_locals eq_refl). Qed.

(** X11 on the small training set, which has no row of label 5. *)
Lemma fit_override_absent_witness :
  exists hf,
    SMOTEBoost.fit (H := lcg) (H0 := brute) (H1 := scripted steady)
      float64 demo_X demo_y None (Some 5%Q) (demo_heap steady 1 3 1%Q) =
      (Raise (ValueError "Found array with 0 sample(s)"), hf) /\
    SMOTEBoost.minority_target (SMOTEBoost.self hf) = Some 5%Q /\
    SMOTEBoost.estimators_ (SMOTEBoost.self hf) = Some [] /\
    SMOTEBoost.estimator_weights_ (SMOTEBoost.self hf) =
      Some (repeat 0%Q (SMOTEBoost.n_estimators
                          (SMOTEBoost.self (demo_heap steady 1 3 1%Q)))) /\
    SMOTEBoost.estimator_errors_ (SMOTEBoost.self hf) =
      Some (repeat 1%Q (SMOTEBoost.n_estimators
                          (SMOTEBoost.self (demo_heap steady 1 3 1%Q)))).
Proof.
  apply (fit_override_absent (H := lcg) (H0 := brute) (H1 := scripted steady)
           float64 demo_X demo_y None 5%Q (demo_heap steady 1 3 1%Q)
           (ok_or no_locals (fst override_init)) (snd override_init)
           override_init_Ok).
  - repeat constructor.
  - simpl. lia.
Defined.

(** ** The exceptions, the width and the batches *)

Lemma override_fit_Raise :
  SMOTEBoost.fit (H := lcg) (H0 := brute) (H1 := scripted steady)
    float64 demo_X demo_y None (Some 5%Q) (demo_heap steady 1 3 1%Q) =
  (Raise (exn_or learning_rate_error
            (fst (SMOTEBoost.fit (H := lcg) (H0 := brute) (H1 := scripted steady)
                    float64 demo_X demo_y None (Some 5%Q) (demo_heap steady 1 3 1%Q)))),
   snd (SMOTEBoost.fit (H := lcg) (H0 := brute) (H1 := scripted steady)
          float64 demo_X demo_y None (Some 5%Q) (demo_heap steady 1 3 1%Q))).
Proof. apply run_Raise. vm_compute. reflexivity. Qed.

(** X12 on a run that raises in its first round. *)
Lemma fit_no_internal_error_witness :
  internal_error
    (exn_or learning_rate_error
       (fst (SMOTEBoost.fit (H := lcg) (H0 := brute) (H1 := scripted steady)
               float64 demo_X demo_y None (Some 5%Q) (demo_heap steady 1 3 1%Q)))) = false.
Proof.
  exact (fit_no_internal_error (H := lcg) (H0 := brute) (H1 := scripted steady)
           float64 demo_X demo_y None (Some 5%Q) (demo_heap steady 1 3 1%Q) _ _
           override_fit_Raise).
Defined.

(** X13 on the small training set, at the head of round 1. *)
Lemma fit_keeps_width_witness :
  0 < n_cols demo_X /\
  width (n_cols demo_X) (SMOTEBoost.X (demo_head steady 3 1).1) /\
  forall X_syn h1,
    SMOTEBoost.smote_step (H := lcg) (H0 := brute) (H1 := scripted steady)
      (demo_head steady 3 1).1 (demo_head steady 3 1).2 = (Ok X_syn, h1) ->
    width (n_cols demo_X) X_syn.
Proof.
  exact (fit_keeps_width (H := lcg) (H0 := brute) (H1 := scripted steady)
           float64 demo_X demo_y None None (demo_heap steady 1 3 1%Q)
           (demo_l0 steady 3) (demo_h0 steady 3) 1
           (demo_head steady 3 1).1 (demo_head steady 3 1).2
           (demo_init_Ok steady 3) demo_head_steady_1).
Defined.

(** The small training set with the labels 1/2 and 3/2. *)
Definition halves_y : list Q := [(1 # 2)%Q; (1 # 2)%Q; (1 # 2)%Q; (3 # 2)%Q; (3 # 2)%Q].
Definition halves_init :=
  SMOTEBoost.fit_init (H := lcg) (H1 := scripted steady)
    float64 demo_X halves_y None None (demo_heap steady 1 3 1%Q).
Definition halves_l0 : SMOTEBoost.Locals := ok_or no_locals (fst halves_init).
Definition halves_h0 := snd halves_init.
Definition halves_head (i : nat) :=
  default (no_locals, halves_h0)
    (rounds (H := lcg) (H0 := brute) (H1 := scripted steady) 0 i halves_l0 halves_h0).

Lemma halves_init_Ok : halves_init = (Ok halves_l0, halves_h0).
Proof. exact (run_Ok halves_init no_locals eq_refl). Qed.

Lemma halves_minority_target :
  SMOTEBoost.minority_target (SMOTEBoost.self halves_h0) = Some (3 # 2)%Q.
Proof. vm_compute. reflexivity. Qed.

Lemma halves_head_2 :
  rounds (H := lcg) (H0 := brute) (H1 := scripted steady) 0 2 halves_l0 halves_h0 =
  Some ((halves_head 2).1, (halves_head 2).2).
Proof.
  apply (head_Some _ _ (halves_head 2).1). vm_compute. reflexivity.
Qed.

(** X14 on the labels 1/2 and 3/2 and on the labels 0 and 2^63, with seed
    7 and a floating array: the batch of round 2 is the batch of round 0. *)
Lemma same_batch_every_round_witness :
  fst (SMOTEBoost.smote_step (H := lcg) (H0 := brute) (H1 := scripted steady)
         (halves_head 2).1 (halves_head 2).2) =
  fst (SMOTEBoost.smote_step (H := lcg) (H0 := brute) (H1 := scripted steady)
         halves_l0 halves_h0) /\
  fst (SMOTEBoost.smote_step (H := lcg) (H0 := brute) (H1 := scripted steady)
         (big_head 2).1 (big_head 2).2) =
  fst (SMOTEBoost.smote_step (H := lcg) (H0 := brute) (H1 := scripted steady)
         big_l0 big_h0).
Proof.
  split.
  - exact (same_batch_every_round (H := lcg) (H0 := brute)
             (H1 := scripted steady)
             float64 demo_X halves_y None None (demo_heap steady 1 3 1%Q)
             halves_l0 halves_h0 (3 # 2)%Q 7%Z 2
             (halves_head 2).1 (halves_head 2).2 0 halves_l0 halves_h0
             halves_init_Ok halves_minority_target three_halves_not_int64
             eq_refl halves_head_2 eq_refl (or_intror eq_refl)).
  - exact (same_batch_every_round (H := lcg) (H0 := brute)
             (H1 := scripted steady)
             float64 demo_X big_y None None (demo_heap steady 1 3 1%Q)
             big_l0 big_h0 two_63 7%Z 2
             (big_head 2).1 (big_head 2).2 0 big_l0 big_h0
             big_init_Ok big_minority_target two_63_not_int64
             eq_refl big_head_2 eq_refl (or_intror eq_refl)).
Defined.

(** X15 on the small training set, whose minority class has two rows, with
    [k_neighbors = 1], at the head of round 1. *)
Lemma smote_step_never_fails_witness :
  exists X_syn h1,
    SMOTEBoost.smote_step (H := lcg) (H0 := brute) (H1 := scripted steady)
      (demo_head steady 3 1).1 (demo_head steady 3 1).2 = (Ok X_syn, h1).
Proof.
  apply (smote_step_never_fails (H := lcg) (H0 := brute) (H1 := scripted steady)
           float64 demo_X demo_y None None (demo_heap steady 1 3 1%Q)
           (demo_l0 steady 3) (demo_h0 steady 3) 1%Q 1
           (demo_head steady 3 1).1 (demo_head steady 3 1).2
           (demo_init_Ok steady 3) demo_minority_target).
  - simpl. lia.
  - vm_compute. lia.
  - simpl. lia.
  - exact demo_head_steady_1.
Defined.

(** X16 on an [X] without rows. *)
Lemma fit_rejects_input_witness :
  exists msg,
    SMOTEBoost.fit (H := lcg) (H0 := brute) (H1 := scripted steady)
      float64 [] demo_y None None (demo_heap steady 1 3 1%Q) =
    (Raise (ValueError msg), demo_heap steady 1 3 1%Q).
Proof.
  apply (fit_rejects_input (H := lcg) (H0 := brute) (H1 := scripted steady)
           float64 [] demo_y None None (demo_heap steady 1 3 1%Q)).
  - reflexivity.
  - left. reflexivity.
Defined.

(** X17 on the small training set, at the boosting call of round 1. *)
Lemma synthetic_weight_share_witness :
  exists w_old w_syn,
    SMOTEBoost.sample_weight (demo_l1 steady 3 1) = w_old ++ w_syn /\
    Forall2 (fun x' x =>
               (x' == x * (inject_Z (Z.of_nat
                             (length (SMOTEBoost.X (demo_head steady 3 1).1))) /
                           inject_Z (Z.of_nat
                             (length (SMOTEBoost.X (demo_head steady 3 1).1) +
                              SMOTEBoost.n_samples
                                (SMOTEBoost.self (demo_heap steady 1 3 1%Q))))))%Q)
            w_old (SMOTEBoost.sample_weight (demo_head steady 3 1).1) /\
    length w_syn =
      SMOTEBoost.n_samples (SMOTEBoost.self (demo_heap steady 1 3 1%Q)) /\
    Forall (fun x =>
              (x == 1 / inject_Z (Z.of_nat
                        (length (SMOTEBoost.X (demo_head steady 3 1).1) +
                         SMOTEBoost.n_samples
                           (SMOTEBoost.self (demo_heap steady 1 3 1%Q)))))%Q)
           w_syn.
Proof.
  assert (Hi : 1 < SMOTEBoost.n_estimators
                     (SMOTEBoost.self (demo_heap steady 1 3 1%Q)))
    by (simpl; lia).
  exact (synthetic_weight_share (H := lcg) (H0 := brute) (H1 := scripted steady)
           float64 demo_X demo_y None None (demo_heap steady 1 3 1%Q)
           (demo_l0 steady 3) (demo_h0 steady 3) 1
           (demo_head steady 3 1).1 (demo_head steady 3 1).2
           (demo_l1 steady 3 1) (demo_h1 steady 3 1)
           steady_keeps_nonnegative (demo_init_Ok steady 3) demo_head_steady_1 Hi
           demo_augmented_steady_1).
Defined.

(** ** A seed out of range *)

(** The classifier of the small runs, with [random_state = -1]. *)
Definition bad_seed_heap : @SMOTEBoost.Heap lcg (scripted steady) :=
  @SMOTEBoost.Build_Heap lcg (scripted steady)
    (@SMOTEBoost.init lcg (scripted steady) 1 3 1 NoEstimator 1%Q
       (Some (-1)%Z))
    demo_process None (tt : @Private lcg (scripted steady)).

(** X18 on the small training set. *)
Lemma fit_rejects_seed_witness :
  exists hf,
    SMOTEBoost.fit (H := lcg) (H0 := brute) (H1 := scripted steady)
      float64 demo_X demo_y None None bad_seed_heap =
      (Raise (ValueError "Seed must be between 0 and 2**32 - 1"), hf) /\
    SMOTEBoost.estimators_ (SMOTEBoost.self hf) = Some [] /\
    SMOTEBoost.estimator_weights_ (SMOTEBoost.self hf) =
      Some (repeat 0%Q (SMOTEBoost.n_estimators (SMOTEBoost.self bad_seed_heap))) /\
    SMOTEBoost.estimator_errors_ (SMOTEBoost.self hf) =
      Some (repeat 1%Q (SMOTEBoost.n_estimators (SMOTEBoost.self bad_seed_heap))) /\
    SMOTEBoost.process hf = SMOTEBoost.process bad_seed_heap.
Proof.
  apply (fit_rejects_seed (H := lcg) (H0 := brute) (H1 := scripted steady)
           float64 demo_X demo_y None bad_seed_heap (-1)%Z tt).
  - reflexivity.
  - reflexivity.
  - reflexivity.
  - reflexivity.
  - lia.
Defined.

(** ** The element type of the training set *)

(** Two points as an array of unsigned 8-bit integers. *)
Definition uint8_points : matrix := [[5%Q]; [3%Q]].

Lemma uint8_points_of_dtype : of_dtype uint8 uint8_points.
Proof.
  unfold of_dtype, uint8, uint8_points. intros r a Hr Ha.
  apply elem_of_cons in Hr as [-> | Hr];
    [| apply elem_of_cons in Hr as [-> | Hr]; [| inversion Hr]];
    (apply elem_of_cons in Ha as [-> | Ha]; [| inversion Ha]);
    split; reflexivity.
Qed.

Lemma uint8_points_sampled :
  SMOTE.sample (H := lcg) (H0 := brute)
    (fitted (SMOTE.init 1 (Some 7%Z)) uint8 uint8_points) 3 seeded_process =
  (Ok (ok_or [] (fst (SMOTE.sample (H := lcg) (H0 := brute)
                        (fitted (SMOTE.init 1 (Some 7%Z)) uint8 uint8_points) 3
                        seeded_process))),
   snd (SMOTE.sample (H := lcg) (H0 := brute)
          (fitted (SMOTE.init 1 (Some 7%Z)) uint8 uint8_points) 3
          seeded_process)).
Proof. apply run_Ok. vm_compute. reflexivity. Qed.

(** X19 on the points 5 and 3 as unsigned 8-bit integers: the second of
    three rows is made of the base 5 and the neighbour 3 with the gap
    0.64, and is 5 + 0.64 * 254. *)
Lemma sample_unsigned_wraps_witness :
  Forall (fun s => exists j nb gap,
            j < length uint8_points /\ nb < length uint8_points /\
            (0 <= gap)%Q /\ (gap < 1)%Q /\
            forall c v, s !! c = Some v ->
              exists x z,
                row uint8_points j !! c = Some x /\
                row uint8_points nb !! c = Some z /\
                ((x <= z)%Q -> (v == x + gap * (z - x))%Q) /\
                ((z < x)%Q ->
                 (v == x + gap * (inject_Z (2 ^ Z.pos 8) + z - x))%Q /\
                 (x <= v)%Q))
    (ok_or [] (fst (SMOTE.sample (H := lcg) (H0 := brute)
                      (fitted (SMOTE.init 1 (Some 7%Z)) uint8 uint8_points) 3
                      seeded_process))) /\
  fst (SMOTE.sample (H := lcg) (H0 := brute)
         (fitted (SMOTE.init 1 (Some 7%Z)) uint8 uint8_points) 3
         seeded_process) =
    Ok [[(3666 # 1000)%Q]; [(167560 # 1000)%Q]; [(3174 # 1000)%Q]].
Proof.
  split.
  - exact (sample_unsigned_wraps (H := lcg) (H0 := brute)
             (SMOTE.init 1 (Some 7%Z)) 8 uint8_points 3 seeded_process _ _
             uint8_points_of_dtype uint8_points_sampled).
  - vm_compute. reflexivity.
Defined.

(** The classifier of the small runs with another base estimator, for which
    [check_X_y] keeps the element type of [X]; and its run on the small
    training set as an array of 64-bit integers. *)
Definition other_heap : @SMOTEBoost.Heap lcg (scripted steady) :=
  @SMOTEBoost.Build_Heap lcg (scripted steady)
    (@SMOTEBoost.init lcg (scripted steady) 1 3 1 OtherEstimator 1%Q
       (Some 7%Z))
    demo_process None (tt : @Private lcg (scripted steady)).
Definition other_init :=
  SMOTEBoost.fit_init (H := lcg) (H1 := scripted steady)
    int64 demo_X demo_y None None other_heap.
Definition other_l0 : SMOTEBoost.Locals := ok_or no_locals (fst other_init).
Definition other_h0 := snd other_init.
Definition other_head (i : nat) :=
  default (no_locals, other_h0)
    (rounds (H := lcg) (H0 := brute) (H1 := scripted steady) 0 i other_l0 other_h0).

Lemma other_init_Ok : other_init = (Ok other_l0, other_h0).
Proof. exact (run_Ok other_init no_locals eq_refl). Qed.

Lemma other_minority_target :
  SMOTEBoost.minority_target (SMOTEBoost.self other_h0) = Some 1%Q.
Proof. vm_compute. reflexivity. Qed.

Lemma other_head_1 :
  rounds (H := lcg) (H0 := brute) (H1 := scripted steady) 0 1 other_l0 other_h0 =
  Some ((other_head 1).1, (other_head 1).2).
Proof.
  apply (head_Some _ _ (other_head 1).1). vm_compute. reflexivity.
Qed.

Lemma other_smote_1 :
  demo_smote (other_head 1).1 (other_head 1).2 =
  (Ok (ok_or [] (fst (demo_smote (other_head 1).1 (other_head 1).2))),
   snd (demo_smote (other_head 1).1 (other_head 1).2)).
Proof. apply run_Ok. vm_compute. reflexivity. Qed.

Lemma demo_smote_0 :
  demo_smote (demo_l0 steady 3) (demo_h0 steady 3) =
  (Ok (ok_or [] (fst (demo_smote (demo_l0 steady 3) (demo_h0 steady 3)))),
   snd (demo_smote (demo_l0 steady 3) (demo_h0 steady 3))).
Proof. apply run_Ok. vm_compute. reflexivity. Qed.

(** X20 on the small training set: in round 0 with the default base
    estimator; and in round 1 with another base estimator and an array of
    64-bit integers, which round 0 has as it is given. *)
Lemma fit_rounds_interpolate_witness :
  (SMOTEBoost.X_dtype (demo_l0 steady 3) = floating /\
   Forall (interpolated
             (minority_rows (SMOTEBoost.X (demo_l0 steady 3))
                (SMOTEBoost.y (demo_l0 steady 3)) 1%Q)
             (SMOTE.k (SMOTEBoost.smote (SMOTEBoost.self (demo_h0 steady 3)))))
     (ok_or [] (fst (demo_smote (demo_l0 steady 3) (demo_h0 steady 3))))) /\
  SMOTEBoost.X_dtype other_l0 = int64 /\
  (SMOTEBoost.X_dtype (other_head 1).1 = floating /\
   Forall (interpolated
             (minority_rows (SMOTEBoost.X (other_head 1).1)
                (SMOTEBoost.y (other_head 1).1) 1%Q)
             (SMOTE.k (SMOTEBoost.smote (SMOTEBoost.self (other_head 1).2))))
     (ok_or [] (fst (demo_smote (other_head 1).1 (other_head 1).2)))).
Proof.
  split; [| split].
  - exact (fit_rounds_interpolate (H := lcg) (H0 := brute)
             (H1 := scripted steady)
             float64 demo_X demo_y None None (demo_heap steady 1 3 1%Q)
             (demo_l0 steady 3) (demo_h0 steady 3) 1%Q 0
             (demo_l0 steady 3) (demo_h0 steady 3) _ _
             (demo_init_Ok steady 3) demo_minority_target eq_refl
             (or_introl eq_refl) demo_smote_0).
  - vm_compute. reflexivity.
  - exact (fit_rounds_interpolate (H := lcg) (H0 := brute)
             (H1 := scripted steady)
             int64 demo_X demo_y None None other_heap
             other_l0 other_h0 1%Q 1 (other_head 1).1 (other_head 1).2 _ _
             other_init_Ok other_minority_target other_head_1
             (or_intror (or_intror (le_n 1))) other_smote_1).
Defined.
